(** * GestureBridge: the realtime media pipeline of [App.tsx]

    A shallow embedding of the [App] component: its React state, its refs,
    the callbacks it hands to the browser and to the live session, and the
    part of the browser those callbacks act on (interval timers, script
    processors, the session promise, encodes in flight).

    Conventions of the embedding.
    - A JavaScript number (a clock reading [AudioContext.currentTime] or a
      buffer duration, in seconds) is the rational ([Q]) that the double
      denotes.  [<] and [>] compare the rationals; [+] is [fadd], the exact
      sum rounded to the nearest double, ties to even, as IEEE 754
      prescribes.  [NaN] and the infinities are left out: the clock and the
      durations are finite and no sum of the scheduler gets near the
      largest double.  Wall-clock readings ([Date], in milliseconds) are
      integers ([Z]).
    - A JavaScript object with identity (a source node, a session promise,
      a media stream, an interval handle) is a [positive] drawn from one
      counter of the world.  Interval handles are positive in every browser,
      so the truthiness test [if (frameIntervalRef.current)] is the test
      against [null].
    - A closure is the record of the values it captured.  [isMicOn] and
      [mediaStream] are [const] bindings of one render of [App]; a callback
      created during a render keeps that render's values.
    - Every callback runs to completion.  An [await] or a [then] whose
      promise the browser or the network settles ([getUserMedia],
      [blobToBase64], the session promise) ends one event and its
      continuation is another; one whose promise comes from a helper that
      is not among the sources ([pcmToAudioBuffer], [AudioContext.resume])
      is taken to continue at once.  A session promise that rejects is a
      promise that never resolves: nothing is chained on its rejection. *)

From Stdlib Require Import ZArith QArith Qround Qpower Lia Lqa String DecimalString DecimalZ
  DecimalPos List Sorted.
From stdpp Require Import base gmap sets list strings.

Open Scope Z_scope.

(** ** Data model *)

(** Modelled from the spec: [ConnectionStatus] of [./types], which is not
    among the sources.  Its members are the four that [App] names, the
    states of the connection state machine. *)
Inductive ConnectionStatus : Type :=
| DISCONNECTED
| CONNECTING
| CONNECTED
| ERROR.

#[global] Instance ConnectionStatus_eq_dec : EqDecision ConnectionStatus.
Proof. solve_decision. Defined.

(** Modelled from the spec: the [role] of a [Message] of [./types], user
    or model. *)
Inductive Role : Type :=
| user
| model.

#[global] Instance Role_eq_dec : EqDecision Role.
Proof. solve_decision. Defined.

(** Modelled from the spec: [Message] of [./types], with the four fields
    the updater of lines 91-108 reads and writes; [timestamp] is the
    [Date]'s [getTime()]. *)
Record Message : Type := {
  id : string;
  role : Role;
  text : string;
  timestamp : Z
}.

(** [Number.prototype.toString] on an integer: its decimal digits, with a
    leading minus sign below zero. *)
Definition toString (z : Z) : string := NilZero.string_of_int (Z.to_int z).

(** ** TranscriptAssembler: the updater passed to [setMessages] *)

Module Transcript.

(** The merge window of line 94, in milliseconds. *)
Definition MERGE_WINDOW : Z := 2000.

(** [isRecent] of line 94, for a last message that exists. *)
Definition isRecent (now : Z) (lastMsg : Message) : bool :=
  bool_decide (now - timestamp lastMsg < MERGE_WINDOW).

(** [{ ...lastMsg, text: lastMsg.text + text }] *)
Definition withText (lastMsg : Message) (delta : string) : Message :=
  {| id := id lastMsg;
     role := role lastMsg;
     text := text lastMsg +:+ delta;
     timestamp := timestamp lastMsg |}.

(** The three readings of the wall clock one run of the updater can make,
    in the order the code makes them: [new Date().getTime()] of the
    recency test, [Date.now()] of the id, [new Date()] of the timestamp. *)
Record Clock : Type := {
  atCheck : Z;
  atId : Z;
  atStamp : Z
}.

Definition freshMessage (delta : string) (clk : Clock) : Message :=
  {| id := toString (atId clk);
     role := model;
     text := delta;
     timestamp := atStamp clk |}.

(** [prev => { ... }] of lines 91-108. *)
Definition appendTranscription (delta : string) (clk : Clock) (prev : list Message)
  : list Message :=
  match last prev with
  | Some lastMsg =>
      if bool_decide (role lastMsg = model) && isRecent (atCheck clk) lastMsg
      then removelast prev ++ [withText lastMsg delta]
      else prev ++ [freshMessage delta clk]
  | None => prev ++ [freshMessage delta clk]
  end.

(** What the updater keeps true of the transcript: every message is the
    model's, its id is the decimal string of an instant no later than the
    timestamp of the last message, and no id occurs twice. *)
Definition idBefore (bound : Z) (m : Message) : Prop :=
  role m = model /\ exists t : Z, id m = toString t /\ t <= bound.

Definition wellFormed (msgs : list Message) : Prop :=
  NoDup (map id msgs) /\
  forall lastMsg, last msgs = Some lastMsg ->
    Forall (idBefore (timestamp lastMsg)) msgs.

(** The last message takes the delta: it is the model's and its
    timestamp is less than the merge window before the reading of the
    clock. *)
Definition mergeable (clk : Clock) (prev : list Message) (lastMsg : Message) : Prop :=
  last prev = Some lastMsg /\ role lastMsg = model /\
  atCheck clk - timestamp lastMsg < MERGE_WINDOW.

(** The wall clock does not run backwards during one run of the updater. *)
Definition monotone (clk : Clock) : Prop :=
  atCheck clk <= atId clk <= atStamp clk.

End Transcript.

(** ** Browser objects and wire messages *)

(** An [AudioBuffer], as far as the scheduler reads it. *)
Record AudioBuffer : Type := {
  duration : Q
}.

(** The shared [AudioContext] of [ensureAudioContext]. *)
Record AudioContext : Type := {
  sampleRate : Z
}.

(** The fields of a [LiveServerMessage] that [onmessage] reads:
    [serverContent?.outputTranscription?.text],
    [serverContent?.modelTurn?.parts?.[0]?.inlineData?.data] and
    [serverContent?.interrupted]; [None] is [undefined]. *)
Record LiveServerMessage : Type := {
  outputTranscription : option string;
  inlineData : option string;
  interrupted : option bool
}.

(** JavaScript truthiness of an optional string: [undefined] and the empty
    string are falsy. *)
Definition truthy (s : option string) : option string :=
  match s with
  | Some EmptyString => None
  | other => other
  end.

(** The argument of [session.sendRealtimeInput]. *)
Inductive Payload : Type :=
| Media (mimeType : string) (data : string)
| Content (contentRole : string) (contentText : string).

(** An outbound item: the payload, named by the number it was given when
    the capture callback (or the probe) produced it.  The counter grows, so
    a smaller number is an earlier production. *)
Definition Outbound : Type := (positive * Payload)%type.

(** The session promise returned by [ai.live.connect], with the callbacks
    chained on it, and what the remote channel has received:
    [queued] holds the [then] callbacks waiting for the promise, in the
    order they were registered; [sentLog] the calls of
    [sendRealtimeInput], oldest first.  [errorStream] is the [mediaStream]
    captured by the [stopEverything] that the session's [onerror] calls. *)
Record Session : Type := {
  resolved : bool;
  queued : list Outbound;
  sentLog : list Outbound;
  errorStream : option positive
}.

(** The values a call of [connectToGemini] captured from its render. *)
Record Capture : Type := {
  capturedMic : bool;
  capturedStream : option positive
}.

(** What a handler does to the world outside the component. *)
Inductive Effect : Type :=
| ConsoleLog (what : string)
| ConsoleError (what : string)
| NodeStart (node : positive) (when : Q)
| NodeStop (node : positive)
| SetInterval (timer : positive) (period : Z)
| ClearInterval (timer : positive)
| TrackStop (stream : positive)
| GetUserMedia (continuation : positive).

(** ** The world: React state, refs, browser *)

(** The [useState] cells of [App]. *)
Record ReactState : Type := {
  status : ConnectionStatus;
  messages : list Message;
  error : option string;
  isMicOn : bool;
  mediaStream : option positive
}.

(** The [useRef] cells of [App] ([videoRef] and [canvasRef] are read only
    by the frame callback, whose readiness test is an input of the tick). *)
Record Refs : Type := {
  audioContextRef : option AudioContext;
  nextStartTimeRef : Q;
  frameIntervalRef : option positive;
  sourcesRef : list positive;
  sessionPromiseRef : option positive
}.

(** The part of the browser the callbacks live in.
    - [timers]: the live intervals, each with the session promise its
      callback captured;
    - [processors]: the installed [onaudioprocess] closures, each with the
      [isMicOn] and the session promise it captured;
    - [sessions]: the session promises;
    - [encoding]: the [blobToBase64] promises not settled yet, each with
      the session promise its continuation will chain on and its payload;
    - [connecting]: the calls of [connectToGemini] waiting in
      [await getUserMedia];
    - [counter]: the next object identity. *)
Record Browser : Type := {
  timers : gmap positive positive;
  processors : list (bool * positive);
  sessions : gmap positive Session;
  encoding : gmap positive (positive * Payload);
  connecting : gmap positive Capture;
  counter : positive
}.

Record World : Type := {
  react : ReactState;
  refs : Refs;
  browser : Browser
}.

Definition initialWorld : World :=
  {| react := {| status := DISCONNECTED; messages := []; error := None;
                 isMicOn := true; mediaStream := None |};
     refs := {| audioContextRef := None; nextStartTimeRef := 0%Q;
                frameIntervalRef := None; sourcesRef := [];
                sessionPromiseRef := None |};
     browser := {| timers := ∅; processors := []; sessions := ∅;
                   encoding := ∅; connecting := ∅; counter := 1%positive |} |}.

(** *** Field updates *)

Definition withReact (f : ReactState -> ReactState) (w : World) : World :=
  {| react := f (react w); refs := refs w; browser := browser w |}.

Definition withRefs (f : Refs -> Refs) (w : World) : World :=
  {| react := react w; refs := f (refs w); browser := browser w |}.

Definition withBrowser (f : Browser -> Browser) (w : World) : World :=
  {| react := react w; refs := refs w; browser := f (browser w) |}.

Definition putStatus (v : ConnectionStatus) (s : ReactState) : ReactState :=
  {| status := v; messages := messages s; error := error s;
     isMicOn := isMicOn s; mediaStream := mediaStream s |}.

Definition putMessages (v : list Message) (s : ReactState) : ReactState :=
  {| status := status s; messages := v; error := error s;
     isMicOn := isMicOn s; mediaStream := mediaStream s |}.

Definition putError (v : option string) (s : ReactState) : ReactState :=
  {| status := status s; messages := messages s; error := v;
     isMicOn := isMicOn s; mediaStream := mediaStream s |}.

Definition putIsMicOn (v : bool) (s : ReactState) : ReactState :=
  {| status := status s; messages := messages s; error := error s;
     isMicOn := v; mediaStream := mediaStream s |}.

Definition putMediaStream (v : option positive) (s : ReactState) : ReactState :=
  {| status := status s; messages := messages s; error := error s;
     isMicOn := isMicOn s; mediaStream := v |}.

Definition putAudioContext (v : option AudioContext) (r : Refs) : Refs :=
  {| audioContextRef := v; nextStartTimeRef := nextStartTimeRef r;
     frameIntervalRef := frameIntervalRef r; sourcesRef := sourcesRef r;
     sessionPromiseRef := sessionPromiseRef r |}.

Definition putNextStartTime (v : Q) (r : Refs) : Refs :=
  {| audioContextRef := audioContextRef r; nextStartTimeRef := v;
     frameIntervalRef := frameIntervalRef r; sourcesRef := sourcesRef r;
     sessionPromiseRef := sessionPromiseRef r |}.

Definition putFrameInterval (v : option positive) (r : Refs) : Refs :=
  {| audioContextRef := audioContextRef r; nextStartTimeRef := nextStartTimeRef r;
     frameIntervalRef := v; sourcesRef := sourcesRef r;
     sessionPromiseRef := sessionPromiseRef r |}.

Definition putSources (v : list positive) (r : Refs) : Refs :=
  {| audioContextRef := audioContextRef r; nextStartTimeRef := nextStartTimeRef r;
     frameIntervalRef := frameIntervalRef r; sourcesRef := v;
     sessionPromiseRef := sessionPromiseRef r |}.

Definition putSessionPromise (v : option positive) (r : Refs) : Refs :=
  {| audioContextRef := audioContextRef r; nextStartTimeRef := nextStartTimeRef r;
     frameIntervalRef := frameIntervalRef r; sourcesRef := sourcesRef r;
     sessionPromiseRef := v |}.

Definition putTimers (v : gmap positive positive) (b : Browser) : Browser :=
  {| timers := v; processors := processors b; sessions := sessions b;
     encoding := encoding b; connecting := connecting b; counter := counter b |}.

Definition putProcessors (v : list (bool * positive)) (b : Browser) : Browser :=
  {| timers := timers b; processors := v; sessions := sessions b;
     encoding := encoding b; connecting := connecting b; counter := counter b |}.

Definition putSessions (v : gmap positive Session) (b : Browser) : Browser :=
  {| timers := timers b; processors := processors b; sessions := v;
     encoding := encoding b; connecting := connecting b; counter := counter b |}.

Definition putEncoding (v : gmap positive (positive * Payload)) (b : Browser) : Browser :=
  {| timers := timers b; processors := processors b; sessions := sessions b;
     encoding := v; connecting := connecting b; counter := counter b |}.

Definition putConnecting (v : gmap positive Capture) (b : Browser) : Browser :=
  {| timers := timers b; processors := processors b; sessions := sessions b;
     encoding := encoding b; connecting := v; counter := counter b |}.

Definition putCounter (v : positive) (b : Browser) : Browser :=
  {| timers := timers b; processors := processors b; sessions := sessions b;
     encoding := encoding b; connecting := connecting b; counter := v |}.

(** ** Handlers as state transformers that log their effects *)

Definition Eff (A : Type) : Type := World -> A * World * list Effect.

Definition ret {A : Type} (a : A) : Eff A := fun w => (a, w, []).

Definition bind {A B : Type} (m : Eff A) (k : A -> Eff B) : Eff B :=
  fun w =>
    let '(a, w1, e1) := m w in
    let '(b, w2, e2) := k a w1 in
    (b, w2, e1 ++ e2).

Declare Scope eff_scope.
Delimit Scope eff_scope with eff.
Bind Scope eff_scope with Eff.

Notation "x <- m ;; k" := (bind m (fun x => k))
  (at level 100, m at next level, right associativity) : eff_scope.
Notation "m ;; k" := (bind m (fun _ => k))
  (at level 100, right associativity) : eff_scope.

Definition get : Eff World := fun w => (w, w, []).

Definition modify (f : World -> World) : Eff unit := fun w => (tt, f w, []).

Definition emit (e : Effect) : Eff unit := fun w => (tt, w, [e]).

Definition when_ (b : bool) (m : Eff unit) : Eff unit :=
  if b then m else ret tt.

(** A new object identity. *)
Definition newObject : Eff positive :=
  fun w => (counter (browser w),
            withBrowser (putCounter (Pos.succ (counter (browser w)))) w,
            []).

Arguments bind {A B} m k w /.
Arguments ret {A} a w /.
Arguments get w /.
Arguments modify f w /.
Arguments emit e w /.
Arguments newObject w /.

(** [collection.forEach(f)] *)
Fixpoint forEach {A : Type} (f : A -> Eff unit) (l : list A) : Eff unit :=
  match l with
  | [] => ret tt
  | x :: rest => (f x ;; forEach f rest)%eff
  end.

(** The world after running a handler, and the effects of the run. *)
Definition after {A : Type} (m : Eff A) (w : World) : World := snd (fst (m w)).

Definition effectsOf {A : Type} (m : Eff A) (w : World) : list Effect := snd (m w).

(** *** Reading and writing the cells *)

Definition readState {A : Type} (f : ReactState -> A) : Eff A :=
  fun w => (f (react w), w, []).

Definition readRef {A : Type} (f : Refs -> A) : Eff A :=
  fun w => (f (refs w), w, []).

Definition readBrowser {A : Type} (f : Browser -> A) : Eff A :=
  fun w => (f (browser w), w, []).

Arguments readState {A} f w /.
Arguments readRef {A} f w /.
Arguments readBrowser {A} f w /.

Definition setStatus (v : ConnectionStatus) : Eff unit := modify (withReact (putStatus v)).
Definition setError (v : option string) : Eff unit := modify (withReact (putError v)).
Definition setIsMicOn (v : bool) : Eff unit := modify (withReact (putIsMicOn v)).
Definition setMediaStream (v : option positive) : Eff unit :=
  modify (withReact (putMediaStream v)).
Definition setMessages (f : list Message -> list Message) : Eff unit :=
  modify (withReact (fun s => putMessages (f (messages s)) s)).

(** ** JavaScript numbers

    The doubles, as the rationals they denote. *)

(** [2 ^ e], for any integer [e]. *)
Definition pow2 (e : Z) : Q := (2 ^ e)%Q.

(** The integer nearest to [q], the even one of two that are equally
    near. *)
Definition nearestEven (q : Q) : Z :=
  let f := Qfloor q in
  match (q - inject_Z f ?= 1 # 2)%Q with
  | Lt => f
  | Eq => if Z.even f then f else f + 1
  | Gt => f + 1
  end.

(** The [e] with [2 ^ e <= q < 2 ^ (e + 1)], for [q > 0]. *)
Definition binade (q : Q) : Z :=
  let e0 := Z.log2 (Qnum q) - Z.log2 (Z.pos (Qden q)) in
  if Qle_bool (pow2 e0) q then e0 else e0 - 1.

(** The exponent of the last place of the double nearest to [q > 0]: 53
    significant bits, and no exponent below that of the subnormals. *)
Definition ulpExponent (q : Q) : Z := Z.max (binade q - 52) (-1074).

Definition roundAt (e : Z) (q : Q) : Q :=
  (inject_Z (nearestEven (q / pow2 e)) * pow2 e)%Q.

Definition roundPositive (q : Q) : Q := roundAt (ulpExponent q) q.

(** The double nearest to [q], ties to even (IEEE 754 binary64,
    roundTiesToEven), as the number it denotes. *)
Definition round (q : Q) : Q :=
  Qred match (q ?= 0)%Q with
       | Eq => 0
       | Gt => roundPositive q
       | Lt => - roundPositive (- q)
       end.

(** [x + y] on JavaScript numbers. *)
Definition fadd (x y : Q) : Q := round (x + y).

(** [q] is a JavaScript number. *)
Definition isDouble (q : Q) : Prop := (round q == q)%Q.

(** [x < y] on JavaScript numbers. *)
Definition Qltb (x y : Q) : bool := (Qnum x * QDen y <? Qnum y * QDen x)%Z.

(** [Set.prototype.add] and [Set.prototype.delete] on a set that iterates
    in insertion order. *)
Definition setAdd (x : positive) (l : list positive) : list positive :=
  if decide (x ∈ l) then l else l ++ [x].

Definition setDelete (x : positive) (l : list positive) : list positive :=
  filter (fun y => y ≠ x) l.

(** ** InboundPlaybackScheduler *)

(** The look-ahead bound of line 124, in seconds. *)
Definition MAX_LOOKAHEAD : Q := 1 # 2.

(** What one run of the scheduler scheduled. *)
Record PlaybackUnit : Type := {
  handle : positive;
  scheduledStart : Q;
  unitDuration : Q
}.

(** The test of line 124. *)
Definition driftTooLarge (nextStartTime now : Q) : bool :=
  Qltb nextStartTime now || Qltb (fadd now MAX_LOOKAHEAD) nextStartTime.

(** The scheduler, lines 121-138, for a buffer that decoded; [now] is
    [audioCtx.currentTime]. *)
Definition schedule (now : Q) (audioBuffer : AudioBuffer) : Eff PlaybackUnit :=
  (nextStartTime <- readRef nextStartTimeRef ;;
   when_ (driftTooLarge nextStartTime now)
     (modify (withRefs (putNextStartTime now))) ;;
   sourceNode <- newObject ;;
   start <- readRef nextStartTimeRef ;;
   emit (NodeStart sourceNode start) ;;
   modify (withRefs (putNextStartTime (fadd start (duration audioBuffer)))) ;;
   modify (withRefs (fun r => putSources (setAdd sourceNode (sourcesRef r)) r)) ;;
   ret {| handle := sourceNode; scheduledStart := start;
          unitDuration := duration audioBuffer |})%eff.

(** [sourceNode.onended], lines 136-138. *)
Definition onended (sourceNode : positive) : Eff unit :=
  modify (withRefs (fun r => putSources (setDelete sourceNode (sourcesRef r)) r)).

(** The interruption branch, lines 145-151. *)
Definition handleInterruption (msg : LiveServerMessage) : Eff unit :=
  match interrupted msg with
  | Some true =>
      (sources <- readRef sourcesRef ;;
       forEach (fun node => emit (NodeStop node)) sources ;;
       modify (withRefs (putSources [])) ;;
       modify (withRefs (putNextStartTime 0%Q)))%eff
  | _ => ret tt
  end.

(** A run of decoded units arriving one after the other, each with the
    clock reading at its arrival, and no other event between them. *)
Fixpoint scheduleAll (arrivals : list (Q * AudioBuffer)) : Eff (list PlaybackUnit) :=
  match arrivals with
  | [] => ret []
  | (now, audioBuffer) :: rest =>
      (unit <- schedule now audioBuffer ;;
       units <- scheduleAll rest ;;
       ret (unit :: units))%eff
  end.

(** ** OutboundDispatcher *)

(** [sessionPromise.then(session => session.sendRealtimeInput(item))]: the
    call is made at once on a promise that has resolved, and waits in
    registration order on one that has not. *)
Definition chain (item : Outbound) (s : Session) : Session :=
  if resolved s
  then {| resolved := true; queued := queued s;
          sentLog := sentLog s ++ [item]; errorStream := errorStream s |}
  else {| resolved := false; queued := queued s ++ [item];
          sentLog := sentLog s; errorStream := errorStream s |}.

Definition thenSend (sessionPromise : positive) (item : Outbound) : Eff unit :=
  modify (withBrowser (fun b => putSessions (alter (chain item) sessionPromise (sessions b)) b)).

(** The session promise is fulfilled: the waiting callbacks run in the
    order they were registered. *)
Definition fulfil (s : Session) : Session :=
  {| resolved := true; queued := [];
     sentLog := sentLog s ++ queued s; errorStream := errorStream s |}.

Definition sessionResolved (sessionPromise : positive) : Eff unit :=
  modify (withBrowser (fun b => putSessions (alter fulfil sessionPromise (sessions b)) b)).

(** [blobToBase64(blob)] is called: the encode is in flight. *)
Definition startEncoding (sessionPromise : positive) (payload : Payload) : Eff unit :=
  (e <- newObject ;;
   modify (withBrowser (fun b =>
     putEncoding (<[e := (sessionPromise, payload)]> (encoding b)) b)))%eff.

(** The [blobToBase64] promise [e] is fulfilled: its continuation chains
    the send on the session promise. *)
Definition encodeSettled (e : positive) : Eff unit :=
  (inFlight <- readBrowser encoding ;;
   match inFlight !! e with
   | Some (sessionPromise, payload) =>
       modify (withBrowser (fun b => putEncoding (delete e (encoding b)) b)) ;;
       thenSend sessionPromise (e, payload)
   | None => ret tt
   end)%eff.

(** ** CapturePipeline *)

(** [processor.onaudioprocess], lines 169-186.  [capturedIsMicOn] is the
    [isMicOn] of the render whose [connectToGemini] built the closure;
    [data] stands for the block, which [float32To16BitPCM] and
    [blobToBase64] turn into the bytes sent. *)
Definition onaudioprocess (capturedIsMicOn : bool) (sessionPromise : positive)
    (data : string) : Eff unit :=
  if negb capturedIsMicOn then ret tt
  else startEncoding sessionPromise (Media "audio/pcm;rate=16000" data).

(** The interval callback, lines 206-240.  [frame] is [None] when one of
    the guards of lines 207 and 212 returns (no video element, no canvas,
    no 2d context, [readyState < 2]), and the drawn frame otherwise. *)
Definition onframe (sessionPromise : positive) (frame : option string) : Eff unit :=
  match frame with
  | None => ret tt
  | Some data => startEncoding sessionPromise (Media "image/jpeg" data)
  end.

(** The period of line 240, in milliseconds. *)
Definition FRAME_PERIOD : Z := 200.

(** [startVideoStreaming], lines 202-241. *)
Definition startVideoStreaming (sessionPromise : positive) : Eff unit :=
  (current <- readRef frameIntervalRef ;;
   match current with
   | Some timer =>
       emit (ClearInterval timer) ;;
       modify (withBrowser (fun b => putTimers (delete timer (timers b)) b))
   | None => ret tt
   end ;;
   timer <- newObject ;;
   emit (SetInterval timer FRAME_PERIOD) ;;
   modify (withBrowser (fun b => putTimers (<[timer := sessionPromise]> (timers b)) b)) ;;
   modify (withRefs (putFrameInterval (Some timer))))%eff.

(** ** SessionController *)

(** [stopEverything], lines 243-256.  [capturedMediaStream] is the
    [mediaStream] of the render that created this closure. *)
Definition stopEverything (capturedMediaStream : option positive) : Eff unit :=
  (current <- readRef frameIntervalRef ;;
   match current with
   | Some timer =>
       emit (ClearInterval timer) ;;
       modify (withBrowser (fun b => putTimers (delete timer (timers b)) b)) ;;
       modify (withRefs (putFrameInterval None))
   | None => ret tt
   end ;;
   sources <- readRef sourcesRef ;;
   forEach (fun node => emit (NodeStop node)) sources ;;
   modify (withRefs (putSources [])) ;;
   modify (withRefs (putSessionPromise None)) ;;
   match capturedMediaStream with
   | Some stream => emit (TrackStop stream) ;; setMediaStream None
   | None => ret tt
   end)%eff.

(** [disconnect], lines 258-261. *)
Definition disconnect (capturedMediaStream : option positive) : Eff unit :=
  (stopEverything capturedMediaStream ;; setStatus DISCONNECTED)%eff.

(** [stop()] as the user reaches it: [disconnect] of the current render. *)
Definition stop : Eff unit :=
  (stream <- readState mediaStream ;; disconnect stream)%eff.

(** [ensureAudioContext], lines 43-53. *)
Definition ensureAudioContext : Eff unit :=
  (current <- readRef audioContextRef ;;
   match current with
   | None => modify (withRefs (putAudioContext (Some {| sampleRate := 24000 |})))
   | Some _ => ret tt
   end)%eff.

(** [connectToGemini] up to [await getUserMedia], lines 56-62. *)
Definition connectToGemini (captured : Capture) : Eff unit :=
  (setStatus CONNECTING ;;
   setError None ;;
   ensureAudioContext ;;
   k <- newObject ;;
   modify (withBrowser (fun b => putConnecting (<[k := captured]> (connecting b)) b)) ;;
   emit (GetUserMedia k))%eff.

(** [connectToGemini] from the fulfilment of [getUserMedia] to its end,
    lines 63-192. *)
Definition connectResumed (captured : Capture) (stream : positive) : Eff unit :=
  (setMediaStream (Some stream) ;;
   sessionPromise <- newObject ;;
   modify (withBrowser (fun b => putSessions
     (<[sessionPromise := {| resolved := false; queued := []; sentLog := [];
                             errorStream := capturedStream captured |}]> (sessions b)) b)) ;;
   modify (withRefs (putSessionPromise (Some sessionPromise))) ;;
   modify (withBrowser (fun b => putProcessors
     (processors b ++ [(capturedMic captured, sessionPromise)]) b)) ;;
   startVideoStreaming sessionPromise)%eff.

(** The [catch] of [connectToGemini], lines 194-199, for a rejection with
    message [message]. *)
Definition connectFailed (captured : Capture) (message : string) : Eff unit :=
  (emit (ConsoleError message) ;;
   setError (Some (match message with
                   | EmptyString => "Failed to connect"
                   | _ => message
                   end)) ;;
   setStatus ERROR ;;
   stopEverything (capturedStream captured))%eff.

(** The session callbacks, lines 83-86 and 153-162. *)
Definition onopen : Eff unit :=
  (emit (ConsoleLog "Gemini Connected") ;; setStatus CONNECTED)%eff.

Definition onclose : Eff unit :=
  (emit (ConsoleLog "Gemini Closed") ;; setStatus DISCONNECTED)%eff.

Definition onerror (capturedMediaStream : option positive) : Eff unit :=
  (emit (ConsoleError "Gemini Error") ;;
   setError (Some "Connection error. Please try again.") ;;
   setStatus ERROR ;;
   stopEverything capturedMediaStream)%eff.

(** [handleToggle], lines 267-273, of the current render. *)
Definition handleToggle : Eff unit :=
  (s <- readState status ;;
   mic <- readState isMicOn ;;
   stream <- readState mediaStream ;;
   if bool_decide (s = CONNECTED) || bool_decide (s = CONNECTING)
   then disconnect stream
   else connectToGemini {| capturedMic := mic; capturedStream := stream |})%eff.

(** The microphone button, line 319. *)
Definition toggleMic : Eff unit :=
  (mic <- readState isMicOn ;; setIsMicOn (negb mic))%eff.

(** The text of the probe, line 282. *)
Definition PROBE_TEXT : string := "Hello! Confirm you can hear and see me.".

(** [handleTestConnection], lines 275-287. *)
Definition handleTestConnection : Eff unit :=
  (current <- readRef sessionPromiseRef ;;
   match current with
   | Some sessionPromise =>
       n <- newObject ;;
       thenSend sessionPromise (n, Content "user" PROBE_TEXT)
   | None => ret tt
   end)%eff.

(** The "Test Connection" button is rendered, line 325. *)
Definition probeOffered (w : World) : bool :=
  bool_decide (status (react w) = CONNECTED).

Section Inbound.

(** [base64ToBytes] followed by [pcmToAudioBuffer] (of
    [./services/audioUtils]): the decoded buffer, or [None] when either
    throws. *)
Variable decode : string -> option AudioBuffer.

(** The audio branch of [onmessage] inside its [try], lines 114-141, for
    a shared audio context that exists. *)
Definition playAudio (base64Audio : string) (now : Q) : Eff unit :=
  match decode base64Audio with
  | Some audioBuffer => (schedule now audioBuffer ;; ret tt)%eff
  | None => emit (ConsoleError "Audio decoding error:")
  end.

(** [onmessage], lines 87-152.  [now] is [audioCtx.currentTime] and
    [clk] the wall clock, as the handler reads them. *)
Definition onmessage (msg : LiveServerMessage) (now : Q) (clk : Transcript.Clock)
  : Eff unit :=
  (match truthy (outputTranscription msg) with
   | Some delta => setMessages (Transcript.appendTranscription delta clk)
   | None => ret tt
   end ;;
   match truthy (inlineData msg) with
   | Some base64Audio =>
       audioCtx <- readRef audioContextRef ;;
       match audioCtx with
       | None => ret tt
       | Some _ => playAudio base64Audio now ;; handleInterruption msg
       end
   | None => handleInterruption msg
   end)%eff.

End Inbound.

(** ** The event loop *)

(** What the browser, the user and the remote session can make happen.
    An event that names a callback that is not installed (a cleared
    interval, a button that is not rendered, an unknown promise) does
    nothing. *)
Inductive Event : Type :=
| ClickToggle
| ClickMic
| ClickTestConnection
| Unmount
| UserMediaGranted (k : positive) (stream : positive)
| UserMediaDenied (k : positive) (message : string)
| SessionOpened (sessionPromise : positive)
| SessionResolved (sessionPromise : positive)
| SessionMessage (sessionPromise : positive) (msg : LiveServerMessage)
    (now : Q) (clk : Transcript.Clock)
| SessionClosed (sessionPromise : positive)
| SessionFailed (sessionPromise : positive)
| AudioBlock (processor : nat) (data : string)
| FrameTick (timer : positive) (frame : option string)
| EncodeDone (e : positive)
| NodeEnded (sourceNode : positive).

Section EventLoop.

Variable decode : string -> option AudioBuffer.

(** Runs a callback of the session [sessionPromise], if there is one. *)
Definition ofSession (sessionPromise : positive) (callback : Session -> Eff unit)
  : Eff unit :=
  (known <- readBrowser sessions ;;
   match known !! sessionPromise with
   | Some s => callback s
   | None => ret tt
   end)%eff.

Definition dispatch (ev : Event) : Eff unit :=
  match ev with
  | ClickToggle => handleToggle
  | ClickMic => toggleMic
  | ClickTestConnection =>
      (w <- get ;; if probeOffered w then handleTestConnection else ret tt)%eff
  | Unmount =>
      (* the cleanup of [useEffect(..., [])], lines 263-265: the
         [stopEverything] of the first render, whose [mediaStream] is
         [null] *)
      stopEverything None
  | UserMediaGranted k stream =>
      (pending <- readBrowser connecting ;;
       match pending !! k with
       | Some captured =>
           modify (withBrowser (fun b => putConnecting (delete k (connecting b)) b)) ;;
           connectResumed captured stream
       | None => ret tt
       end)%eff
  | UserMediaDenied k message =>
      (pending <- readBrowser connecting ;;
       match pending !! k with
       | Some captured =>
           modify (withBrowser (fun b => putConnecting (delete k (connecting b)) b)) ;;
           connectFailed captured message
       | None => ret tt
       end)%eff
  | SessionOpened p => ofSession p (fun _ => onopen)
  | SessionResolved p => sessionResolved p
  | SessionMessage p msg now clk => ofSession p (fun _ => onmessage decode msg now clk)
  | SessionClosed p => ofSession p (fun _ => onclose)
  | SessionFailed p => ofSession p (fun s => onerror (errorStream s))
  | AudioBlock i data =>
      (installed <- readBrowser processors ;;
       match installed !! i with
       | Some (capturedIsMicOn, sessionPromise) =>
           onaudioprocess capturedIsMicOn sessionPromise data
       | None => ret tt
       end)%eff
  | FrameTick timer frame =>
      (live <- readBrowser timers ;;
       match live !! timer with
       | Some sessionPromise => onframe sessionPromise frame
       | None => ret tt
       end)%eff
  | EncodeDone e => encodeSettled e
  | NodeEnded sourceNode => onended sourceNode
  end.

Fixpoint run (events : list Event) : Eff unit :=
  match events with
  | [] => ret tt
  | ev :: rest => (dispatch ev ;; run rest)%eff
  end.

(** The worlds the application can be in. *)
Definition reachable (w : World) : Prop :=
  exists events : list Event, after (run events) initialWorld = w.

End EventLoop.

(** ** Vocabulary of the properties *)

(** The playback interval [[scheduledStart, scheduledStart + duration)],
    with the sum as the program computes it: the value [nextStartTime]
    takes on line 133. *)
Definition scheduledEnd (u : PlaybackUnit) : Q :=
  fadd (scheduledStart u) (unitDuration u).

Definition playsAt (t : Q) (u : PlaybackUnit) : Prop :=
  (scheduledStart u <= t /\ t < scheduledEnd u)%Q.

Definition overlap (u v : PlaybackUnit) : Prop :=
  exists t : Q, playsAt t u /\ playsAt t v.

(** No two units of the sequence play at the same instant. *)
Definition nonOverlapping (units : list PlaybackUnit) : Prop :=
  forall (i j : nat) (u v : PlaybackUnit),
    (i < j)%nat -> units !! i = Some u -> units !! j = Some v -> ~ overlap u v.

(** Starts do not decrease in arrival order. *)
Definition nonDecreasing (units : list PlaybackUnit) : Prop :=
  forall (i j : nat) (u v : PlaybackUnit),
    (i < j)%nat -> units !! i = Some u -> units !! j = Some v ->
    (scheduledStart u <= scheduledStart v)%Q.

(** No arrival of the run finds the schedule more than [MAX_LOOKAHEAD]
    ahead of the clock, that is, the second disjunct of line 124 is false
    each time. *)
Fixpoint withinLookahead (arrivals : list (Q * AudioBuffer)) (w : World) : Prop :=
  match arrivals with
  | [] => True
  | (now, audioBuffer) :: rest =>
      Qltb (fadd now MAX_LOOKAHEAD) (nextStartTimeRef (refs w)) = false /\
      withinLookahead rest (after (schedule now audioBuffer) w)
  end.

(** The units a run of the scheduler returns. *)
Definition unitsOf (arrivals : list (Q * AudioBuffer)) (w : World) : list PlaybackUnit :=
  fst (fst (scheduleAll arrivals w)).

(** What the remote channel of a session promise receives, in order: the
    sends made, then the sends waiting for the promise. *)
Definition pipeline (sessionPromise : positive) (w : World) : list Outbound :=
  match sessions (browser w) !! sessionPromise with
  | Some s => sentLog s ++ queued s
  | None => []
  end.

(** The sends made so far on a session promise. *)
Definition delivered (sessionPromise : positive) (w : World) : list Outbound :=
  match sessions (browser w) !! sessionPromise with
  | Some s => sentLog s
  | None => []
  end.

(** The chunks of one stream among outbound items. *)
Definition isStream (mime : string) (item : Outbound) : bool :=
  match snd item with
  | Media m _ => bool_decide (m = mime)
  | Content _ _ => false
  end.

Definition ofStream (mime : string) (items : list Outbound) : list Outbound :=
  List.filter (isStream mime) items.

(** The number of live interval timers. *)
Definition liveTimers (w : World) : nat := size (timers (browser w)).

(** The message with its audio payload taken out. *)
Definition withoutAudio (msg : LiveServerMessage) : LiveServerMessage :=
  {| outputTranscription := outputTranscription msg;
     inlineData := None;
     interrupted := interrupted msg |}.

(** The start the scheduler gives a unit that arrives at [now] when the
    schedule stands at [nextStartTime]. *)
Definition startFor (nextStartTime now : Q) : Q :=
  if driftTooLarge nextStartTime now then now else nextStartTime.

(** What an event chains on a session promise: the chunk whose encode it
    settles, or the probe. *)
Definition chainedOn (sessionPromise : positive) (ev : Event) (w : World) : list Outbound :=
  match ev with
  | EncodeDone e =>
      match encoding (browser w) !! e with
      | Some (target, payload) =>
          if decide (target = sessionPromise) then [(e, payload)] else []
      | None => []
      end
  | ClickTestConnection =>
      if probeOffered w then
        match sessionPromiseRef (refs w) with
        | Some target =>
            if decide (target = sessionPromise)
            then [(counter (browser w), Content "user" PROBE_TEXT)]
            else []
        | None => []
        end
      else []
  | _ => []
  end.

Section Histories.

Variable decode : string -> option AudioBuffer.

(** The items chained on a session promise during a run, in the order
    the encodes settled. *)
Fixpoint completions (sessionPromise : positive) (events : list Event) (w : World)
  : list Outbound :=
  match events with
  | [] => []
  | ev :: rest =>
      chainedOn sessionPromise ev w ++
      completions sessionPromise rest (after (dispatch decode ev) w)
  end.

(** "Chunks of a stream reach the remote channel in the order they were
    produced", over every run of the application: of two chunks of one
    stream that were both sent, the one sent first has the smaller
    production number. *)
Definition deliveredInProductionOrder : Prop :=
  forall (events : list Event) (sessionPromise : positive) (mime : string),
    StronglySorted Pos.lt
      (map fst (ofStream mime
         (delivered sessionPromise (after (run decode events) initialWorld)))).

(** The block handed to processor [i] enters the dispatcher: an encode of
    it is in flight afterwards that was not before. *)
Definition audioForwarded (i : nat) (data : string) (w : World) : Prop :=
  exists (e sessionPromise : positive),
    encoding (browser w) !! e = None /\
    encoding (browser (after (dispatch decode (AudioBlock i data)) w)) !! e =
      Some (sessionPromise, Media "audio/pcm;rate=16000" data).


(** "Whenever the probe is offered, invoking it injects a text message
    into the outbound channel", over every world the application can be
    in: some session promise has one more item chained on it. *)
Definition probeAlwaysInjects : Prop :=
  forall events : list Event,
    let w := after (run decode events) initialWorld in
    probeOffered w = true ->
    exists (sessionPromise : positive) (item : Outbound),
      pipeline sessionPromise (after handleTestConnection w) =
        pipeline sessionPromise w ++ [item].

End Histories.

(** What every reachable world satisfies. *)
Record consistent (w : World) : Prop := {
  timer_tracked :
    forall t : positive,
      is_Some (timers (browser w) !! t) -> frameIntervalRef (refs w) = Some t;
  context_ready :
    (exists p : positive, is_Some (sessions (browser w) !! p)) \/
    (exists k : positive, is_Some (connecting (browser w) !! k)) ->
    is_Some (audioContextRef (refs w));
  sessions_fresh :
    forall p : positive,
      is_Some (sessions (browser w) !! p) -> (p < counter (browser w))%positive;
  encoding_known :
    forall (e p : positive) (payload : Payload),
      encoding (browser w) !! e = Some (p, payload) ->
      is_Some (sessions (browser w) !! p);
  processors_known :
    forall (mic : bool) (p : positive),
      (mic, p) ∈ processors (browser w) -> is_Some (sessions (browser w) !! p);
  timers_known :
    forall t p : positive,
      timers (browser w) !! t = Some p -> is_Some (sessions (browser w) !! p);
  promise_known :
    forall p : positive,
      sessionPromiseRef (refs w) = Some p -> is_Some (sessions (browser w) !! p);
  queue_flushed :
    forall (p : positive) (s : Session),
      sessions (browser w) !! p = Some s -> resolved s = true -> queued s = [];
  encoding_fresh :
    forall e : positive,
      is_Some (encoding (browser w) !! e) -> (e < counter (browser w))%positive
}.

(** Sequences of the two operations on the frame timer. *)
Inductive TimerOp : Type :=
| StartVideo (sessionPromise : positive)
| StopAll (capturedMediaStream : option positive).

Definition timerOp (op : TimerOp) : Eff unit :=
  match op with
  | StartVideo sessionPromise => startVideoStreaming sessionPromise
  | StopAll capturedMediaStream => stopEverything capturedMediaStream
  end.

Fixpoint timerOps (ops : list TimerOp) : Eff unit :=
  match ops with
  | [] => ret tt
  | op :: rest => (timerOp op ;; timerOps rest)%eff
  end.

(** A concrete decoder for the examples: every payload but ["corrupt"]
    decodes, to a buffer of a quarter of a second. *)
Definition sampleDecode (base64Audio : string) : option AudioBuffer :=
  if decide (base64Audio = "corrupt") then None else Some {| duration := 1 # 4 |}.

(** A burst of three units: two arrive at clock 0, the third a tenth of a
    second later, while the schedule stands 1.4 s ahead.  [round (2 # 5)]
    is the number literal [0.4]. *)
Definition burst : list (Q * AudioBuffer) :=
  [ (0%Q, {| duration := round (2 # 5) |});
    (0%Q, {| duration := 1 |});
    (round (1 # 10), {| duration := 1 |}) ].

(** Three units that keep within the look-ahead; the third arrives after
    the schedule has run dry. *)
Definition steady : list (Q * AudioBuffer) :=
  [ (0%Q, {| duration := round (1 # 5) |});
    (round (1 # 10), {| duration := round (1 # 5) |});
    (1%Q, {| duration := round (3 # 10) |}) ].

(** Three units of 0.2, 0.3 and 0.3 seconds that all arrive at clock 0.1:
    the rounded sums put the schedule at 0.6000000000000001 when the
    third arrives, a hair beyond the 0.6 the look-ahead allows. *)
Definition hairline : list (Q * AudioBuffer) :=
  [ (round (1 # 10), {| duration := round (1 # 5) |});
    (round (1 # 10), {| duration := round (3 # 10) |});
    (round (1 # 10), {| duration := round (3 # 10) |}) ].

(** The durations of a run are not negative. *)
Definition nonNegative (arrivals : list (Q * AudioBuffer)) : Prop :=
  Forall (fun arrival => (0 <= duration (snd arrival))%Q) arrivals.

(** The clock readings of a run are JavaScript numbers. *)
Definition clockReadings (arrivals : list (Q * AudioBuffer)) : Prop :=
  Forall (fun arrival => isDouble (fst arrival)) arrivals.

(** *** Concrete runs for the examples *)

Definition silentClock : Transcript.Clock :=
  {| Transcript.atCheck := 0; Transcript.atId := 0; Transcript.atStamp := 0 |}.

Definition audioMessage (data : string) : LiveServerMessage :=
  {| outputTranscription := None; inlineData := Some data; interrupted := None |}.

Definition interruption : LiveServerMessage :=
  {| outputTranscription := None; inlineData := None; interrupted := Some true |}.

(** The user starts the interpreter and grants the microphone (stream 7):
    [connectToGemini] has run to its end, the session promise is object 2,
    the frame timer object 3, and the state is still Connecting. *)
Definition connectingRun : list Event :=
  [ClickToggle; UserMediaGranted 1 7].

(** The session opens and its promise resolves. *)
Definition connectedRun : list Event :=
  connectingRun ++ [SessionOpened 2; SessionResolved 2].

(** Three audio messages arrive at clock 0 and are scheduled. *)
Definition playingRun : list Event :=
  connectedRun ++
  [ SessionMessage 2 (audioMessage "a") 0%Q silentClock;
    SessionMessage 2 (audioMessage "b") 0%Q silentClock;
    SessionMessage 2 (audioMessage "c") 0%Q silentClock ].

(** The user stops while Connecting; the session, which nothing closed,
    opens afterwards. *)
Definition stoppedThenOpenedRun : list Event :=
  connectingRun ++ [ClickToggle; SessionOpened 2].

(** Two blocks are captured; the encode of the second settles first. *)
Definition overtakingRun : list Event :=
  connectedRun ++
  [ AudioBlock 0 "first"; AudioBlock 0 "second"; EncodeDone 5; EncodeDone 4 ].

(** The user mutes after the session is connected. *)
Definition mutedRun : list Event :=
  connectedRun ++ [ClickMic].

(** The user stops after the session is connected; the script processor,
    which [stopEverything] leaves connected, hands over one more block. *)
Definition stoppedRun : list Event :=
  connectedRun ++ [ClickToggle; AudioBlock 0 "pcm"; EncodeDone 4].

(** The session fails after it connected; its [onerror] leaves the
    microphone stream 7 in the state.  The user starts again and the
    second connection is granted stream 8. *)
Definition restartedRun : list Event :=
  connectedRun ++ [SessionFailed 2; ClickToggle; UserMediaGranted 4 8].

(** The user starts, stops and starts again before the browser answers
    the first microphone request; then both requests are granted, with
    streams 7 and 8. *)
Definition regrantedRun : list Event :=
  [ClickToggle; ClickToggle; ClickToggle; UserMediaGranted 1 7; UserMediaGranted 2 8].

(** Every message of the run is handled with a wall clock that does not
    run backwards while the handler runs. *)
Definition clocksMonotone (events : list Event) : Prop :=
  Forall (fun ev => match ev with
                    | SessionMessage _ _ _ clk => Transcript.monotone clk
                    | _ => True
                    end) events.

(** Wall-clock readings that agree, for the examples. *)
Definition clockAt (t : Z) : Transcript.Clock :=
  {| Transcript.atCheck := t; Transcript.atId := t; Transcript.atStamp := t |}.

(** The transcript after the delta ["Hello"] arrived at instant 1000. *)
Definition helloTranscript : list Message :=
  [ {| id := "1000"; role := model; text := "Hello"; timestamp := 1000 |} ].

(** ** More of [App]: what it renders, and what its runs accumulate *)

(** The label of the main button, lines 350-361. *)
Definition toggleLabel (w : World) : string :=
  if bool_decide (status (react w) = CONNECTED) then "Stop Interpreter"
  else if bool_decide (status (react w) = CONNECTING) then "Connecting..."
  else "Start Interpreter".

(** The [isActive] that [App] passes to [VideoPreview], line 313. *)
Definition previewActive (w : World) : bool :=
  bool_decide (status (react w) = CONNECTED) || bool_decide (status (react w) = CONNECTING).

(** The error banner is rendered, line 299: [error] is a non-empty
    string. *)
Definition bannerShown (w : World) : bool :=
  match truthy (error (react w)) with
  | Some _ => true
  | None => false
  end.

(** The text of the whole transcript, message after message. *)
Definition transcriptText (msgs : list Message) : string :=
  foldr (fun m rest => text m +:+ rest) "" msgs.

(** The delta an event hands to the updater of the transcript: the
    non-empty [outputTranscription.text] of a message of a known session. *)
Definition acceptedDelta (ev : Event) (w : World) : string :=
  match ev with
  | SessionMessage p msg _ _ =>
      match sessions (browser w) !! p, truthy (outputTranscription msg) with
      | Some _, Some delta => delta
      | _, _ => ""
      end
  | _ => ""
  end.

Section Accumulation.

Variable decode : string -> option AudioBuffer.

(** The deltas of a run, one after the other. *)
Fixpoint acceptedText (events : list Event) (w : World) : string :=
  match events with
  | [] => ""
  | ev :: rest =>
      acceptedDelta ev w +:+ acceptedText rest (after (dispatch decode ev) w)
  end.

End Accumulation.

(** The production numbers of the items chained on a session promise. *)
Definition pipelineIds (sessionPromise : positive) (w : World) : list positive :=
  map fst (pipeline sessionPromise w).

(** What a run of the application keeps true besides [consistent]. *)
Record wellKept (w : World) : Prop := {
  sources_distinct : NoDup (sourcesRef (refs w));
  sources_fresh :
    forall node : positive,
      node ∈ sourcesRef (refs w) -> (node < counter (browser w))%positive;
  error_shown :
    status (react w) = ERROR ->
    exists message : string, error (react w) = Some message /\ message <> "";
  unresolved_silent :
    forall (p : positive) (s : Session),
      sessions (browser w) !! p = Some s -> resolved s = false -> sentLog s = [];
  items_distinct :
    forall p : positive, NoDup (pipelineIds p w);
  items_fresh :
    forall p n : positive,
      n ∈ pipelineIds p w -> (n < counter (browser w))%positive;
  items_settled :
    forall p n : positive,
      n ∈ pipelineIds p w -> encoding (browser w) !! n = None
}.

(** A message that carries a transcription delta only. *)
Definition textMessage (delta : string) : LiveServerMessage :=
  {| outputTranscription := Some delta; inlineData := None; interrupted := None |}.

(** Three deltas arrive: the second within the merge window of the first,
    the third long after. *)
Definition talkingRun : list Event :=
  connectedRun ++
  [ SessionMessage 2 (textMessage "Hel") 0%Q (clockAt 1000);
    SessionMessage 2 (textMessage "lo") 0%Q (clockAt 1500);
    SessionMessage 2 (textMessage "Bye") 0%Q (clockAt 9000) ].

(** The session fails after it connected. *)
Definition failedRun : list Event :=
  connectedRun ++ [SessionFailed 2].

(** A block is captured and encoded while the session promise is still
    pending. *)
Definition queuedRun : list Event :=
  connectingRun ++ [AudioBlock 0 "pcm"; EncodeDone 4].

(** ** The [Transcript] component *)

Module TranscriptView.

(** The side a bubble is aligned to, line 185. *)
Inductive Side : Type :=
| itemsStart
| itemsEnd.

(** One rendered message, lines 183-199; [stamp] is the [Date] that
    [toLocaleTimeString] formats. *)
Record Bubble : Type := {
  key : string;
  side : Side;
  speaker : string;
  body : string;
  stamp : Z
}.

(** The list area, lines 176-201. *)
Inductive View : Type :=
| Placeholder
| Bubbles (bubbles : list Bubble).

Definition bubbleOf (msg : Message) : Bubble :=
  {| key := id msg;
     side := if bool_decide (role msg = model) then itemsStart else itemsEnd;
     speaker := if bool_decide (role msg = model) then "Interpreter" else "User";
     body := text msg;
     stamp := timestamp msg |}.

Definition render (messages : list Message) : View :=
  match messages with
  | [] => Placeholder
  | _ => Bubbles (map bubbleOf messages)
  end.

(** The React keys of the rendered list. *)
Definition keys (v : View) : list string :=
  match v with
  | Placeholder => []
  | Bubbles bubbles => map key bubbles
  end.

End TranscriptView.

(** ** The [AudioVisualizer] component: the bars of one frame *)

Module Visualizer.

(** The argument of [roundRect], line 62. *)
Record Rect : Type := {
  rectX : Q;
  rectY : Q;
  rectWidth : Q;
  rectHeight : Q
}.

(** A byte of the [Uint8Array], as a number. *)
Definition level (b : Byte.byte) : Q := inject_Z (Z.of_N (Byte.to_N b)).

(** [barWidth], line 51. *)
Definition barWidth (canvasWidth : Q) (bufferLength : nat) : Q :=
  (canvasWidth / inject_Z (Z.of_nat bufferLength) * (5 # 2))%Q.

(** [barHeight], line 56. *)
Definition barHeight (canvasHeight : Q) (b : Byte.byte) : Q :=
  (level b / 255 * canvasHeight)%Q.

(** The loop of lines 55-67, from bin [dataArray[0]] on, with [x] as the
    loop finds it. *)
Fixpoint bars (canvasHeight width x : Q) (dataArray : list Byte.byte) : list Rect :=
  match dataArray with
  | [] => []
  | b :: rest =>
      (if Qltb 0 (barHeight canvasHeight b)
       then [{| rectX := x;
                rectY := (canvasHeight - barHeight canvasHeight b)%Q;
                rectWidth := width;
                rectHeight := barHeight canvasHeight b |}]
       else []) ++
      bars canvasHeight width (x + (width + 1))%Q rest
  end.

(** The rectangles one run of [draw] fills, lines 45-67. *)
Definition draw (canvasWidth canvasHeight : Q) (dataArray : list Byte.byte) : list Rect :=
  bars canvasHeight (barWidth canvasWidth (length dataArray)) 0%Q dataArray.

(** The left edge of the bar of bin [i]. *)
Definition barLeft (width : Q) (i : nat) : Q :=
  (inject_Z (Z.of_nat i) * (width + 1))%Q.

(** The canvas of line 84. *)
Definition CANVAS_WIDTH : Q := 60.
Definition CANVAS_HEIGHT : Q := 24.

End Visualizer.

(** ** The [VideoPreview] component: the camera stream *)

Module Preview.

(** The video element's [srcObject], the [isActive] of the last render,
    and the [getUserMedia] calls of [startVideo] that have not settled. *)
Record State : Type := {
  isActive : bool;
  srcObject : option positive;
  requests : list positive;
  nextRequest : positive
}.

Definition initial : State :=
  {| isActive := false; srcObject := None; requests := []; nextRequest := 1 |}.

(** The cleanup of the effect, lines 118-123. *)
Definition cleanup (s : State) : State * list Effect :=
  match srcObject s with
  | Some stream => (s, [TrackStop stream])
  | None => (s, [])
  end.

(** [startVideo], lines 94-114, up to its [await getUserMedia]. *)
Definition startVideo (active : bool) (s : State) : State * list Effect :=
  if active then
    ({| isActive := isActive s; srcObject := srcObject s;
        requests := requests s ++ [nextRequest s];
        nextRequest := Pos.succ (nextRequest s) |},
     [GetUserMedia (nextRequest s)])
  else
    match srcObject s with
    | Some stream =>
        ({| isActive := isActive s; srcObject := None;
            requests := requests s; nextRequest := nextRequest s |},
         [TrackStop stream])
    | None => (s, [])
    end.

(** A render with a new [isActive]: React runs the cleanup of the last
    effect, then the effect (the dependency list of line 124); a render
    with the same [isActive] runs neither. *)
Definition setActive (active : bool) (s : State) : State * list Effect :=
  if bool_decide (active = isActive s) then (s, [])
  else
    let '(s1, e1) := cleanup s in
    let '(s2, e2) :=
      startVideo active
        {| isActive := active; srcObject := srcObject s1;
           requests := requests s1; nextRequest := nextRequest s1 |} in
    (s2, e1 ++ e2).

(** [getUserMedia] of request [k] is fulfilled, lines 104-105; [played]
    says whether [play()] succeeded. *)
Definition granted (k stream : positive) (played : bool) (s : State)
  : State * list Effect :=
  if decide (k ∈ requests s) then
    ({| isActive := isActive s; srcObject := Some stream;
        requests := filter (fun r => r ≠ k) (requests s);
        nextRequest := nextRequest s |},
     if played then [] else [ConsoleError "Error accessing camera:"])
  else (s, []).

(** [getUserMedia] of request [k] is rejected, lines 106-108. *)
Definition denied (k : positive) (s : State) : State * list Effect :=
  if decide (k ∈ requests s) then
    ({| isActive := isActive s; srcObject := srcObject s;
        requests := filter (fun r => r ≠ k) (requests s);
        nextRequest := nextRequest s |},
     [ConsoleError "Error accessing camera:"])
  else (s, []).

Inductive Step : Type :=
| Render (active : bool)
| Granted (k stream : positive) (played : bool)
| Denied (k : positive).

Definition step (st : Step) (s : State) : State * list Effect :=
  match st with
  | Render active => setActive active s
  | Granted k stream played => granted k stream played s
  | Denied k => denied k s
  end.

Fixpoint steps (sts : list Step) (s : State) : State * list Effect :=
  match sts with
  | [] => (s, [])
  | st :: rest =>
      let '(s1, e1) := step st s in
      let '(s2, e2) := steps rest s1 in
      (s2, e1 ++ e2)
  end.

End Preview.

(** * Proofs *)

(** ** Tactics for running handlers symbolically *)

Lemma forEach_stop (l : list positive) (w : World) :
  forEach (fun node => emit (NodeStop node)) l w = (tt, w, map NodeStop l).
Proof.
  induction l as [|x l IH]; [reflexivity|].
  cbn [forEach]. unfold bind.
  change (emit (NodeStop x) w) with (tt, w, [NodeStop x]). cbv beta iota zeta.
  rewrite IH. reflexivity.
Qed.

Ltac unfold_handlers :=
  unfold dispatch, ofSession, handleToggle, toggleMic, handleTestConnection, probeOffered,
    connectResumed, connectFailed, connectToGemini, ensureAudioContext, stop, disconnect,
    stopEverything, startVideoStreaming, onopen, onclose, onerror, onmessage, playAudio,
    handleInterruption, onended, schedule, onaudioprocess, onframe, encodeSettled,
    startEncoding, sessionResolved, thenSend, timerOp,
    setStatus, setError, setIsMicOn, setMediaStream, setMessages, when_.

Ltac eff_step := cbn; repeat (rewrite forEach_stop; cbn).

Ltac split_scrutinee :=
  match goal with
  | |- context [match ?x with _ => _ end] =>
      lazymatch type of x with
      | option _ => idtac
      | bool => idtac
      | string => idtac
      | sumbool _ _ => idtac
      | prod _ _ => is_var x
      end;
      destruct x eqn:?
  end.

Ltac eff_cases :=
  unfold_handlers; eff_step; repeat (split_scrutinee; eff_step).

(** ** Rounding to the nearest double *)

Lemma pow2_pos (e : Z) : (0 < pow2 e)%Q.
Proof. apply Qpower_0_lt. reflexivity. Qed.

Lemma pow2_add (a b : Z) : (pow2 (a + b) == pow2 a * pow2 b)%Q.
Proof. apply Qpower_plus. discriminate. Qed.

Lemma pow2_le (a b : Z) : a <= b -> (pow2 a <= pow2 b)%Q.
Proof. intros Hab. apply Qpower_le_compat_l; [exact Hab|discriminate]. Qed.

Lemma pow2_lt_inv (a b : Z) : (pow2 a < pow2 b)%Q -> a < b.
Proof. intros Hab. apply (Qpower_lt_compat_l_inv 2); [exact Hab|reflexivity]. Qed.

Lemma pow2_Z (n : Z) : 0 <= n -> (pow2 n == inject_Z (2 ^ n))%Q.
Proof. intros Hn. unfold pow2. rewrite Zpower_Qpower by exact Hn. reflexivity. Qed.

Lemma nearestEven_bounds (q : Q) : Qfloor q <= nearestEven q <= Qfloor q + 1.
Proof.
  unfold nearestEven.
  destruct (q - inject_Z (Qfloor q) ?= 1 # 2)%Q; [destruct (Z.even (Qfloor q))| |]; lia.
Qed.

Lemma nearestEven_Z (n : Z) : nearestEven (inject_Z n) = n.
Proof.
  unfold nearestEven. rewrite Qfloor_Z.
  destruct (Qcompare_spec (inject_Z n - inject_Z n) (1 # 2)); [lra|reflexivity|lra].
Qed.

Lemma nearestEven_comp (a b : Q) : (a == b)%Q -> nearestEven a = nearestEven b.
Proof.
  intros Hab. unfold nearestEven. rewrite (Qfloor_comp a b Hab).
  assert (Hfrac : (a - inject_Z (Qfloor b) == b - inject_Z (Qfloor b))%Q)
    by (rewrite Hab; reflexivity).
  rewrite (Qcompare_comp _ _ Hfrac _ _ (Qeq_refl (1 # 2))). reflexivity.
Qed.

Lemma nearestEven_mono (a b : Q) : (a <= b)%Q -> nearestEven a <= nearestEven b.
Proof.
  intros Hab. pose proof (Qfloor_resp_le a b Hab) as Hfloor.
  pose proof (nearestEven_bounds a) as Ha. pose proof (nearestEven_bounds b) as Hb.
  destruct (Z.eq_dec (Qfloor a) (Qfloor b)) as [Hsame|Hdiff]; [|lia].
  unfold nearestEven. rewrite Hsame.
  destruct (Qcompare_spec (a - inject_Z (Qfloor b)) (1 # 2));
    destruct (Qcompare_spec (b - inject_Z (Qfloor b)) (1 # 2));
    try (destruct (Z.even (Qfloor b))); try lia; lra.
Qed.

Lemma pow2_succ (a : Z) : (pow2 (a + 1) == 2 * pow2 a)%Q.
Proof. rewrite pow2_add. change (pow2 1) with 2%Q. ring. Qed.

Lemma Zratio_lt (p q r t : Z) :
  0 < q -> 0 < t -> p * t < r * q ->
  (inject_Z p / inject_Z q < inject_Z r / inject_Z t)%Q.
Proof.
  intros Hq Ht Hcross.
  assert (Hq' : (0 < inject_Z q)%Q)
    by (change 0%Q with (inject_Z 0); rewrite <- Zlt_Qlt; exact Hq).
  assert (Ht' : (0 < inject_Z t)%Q)
    by (change 0%Q with (inject_Z 0); rewrite <- Zlt_Qlt; exact Ht).
  apply Qlt_shift_div_l; [exact Ht'|].
  assert (Hswap : (inject_Z p / inject_Z q * inject_Z t ==
                   inject_Z p * inject_Z t / inject_Z q)%Q) by (field; lra).
  rewrite Hswap. apply Qlt_shift_div_r; [exact Hq'|].
  rewrite <- !inject_Z_mult, <- Zlt_Qlt. exact Hcross.
Qed.

Lemma binade_spec (q : Q) :
  (0 < q)%Q -> (pow2 (binade q) <= q < pow2 (binade q + 1))%Q.
Proof.
  intros Hq. destruct q as [n d]. unfold binade. cbn [Qnum Qden].
  assert (Hn : 0 < n) by (unfold Qlt in Hq; cbn in Hq; lia).
  set (a := Z.log2 n). set (b := Z.log2 (Z.pos d)).
  destruct (Z.log2_spec n Hn) as [Hna Hna']. fold a in Hna, Hna'.
  destruct (Z.log2_spec (Z.pos d) eq_refl) as [Hdb Hdb']. fold b in Hdb, Hdb'.
  assert (Ha : 0 <= a) by apply Z.log2_nonneg.
  assert (Hb : 0 <= b) by apply Z.log2_nonneg.
  assert (Hval : (n # d == inject_Z n / inject_Z (Z.pos d))%Q) by apply Qmake_Qdiv.
  assert (Hpa : 0 < 2 ^ a) by (apply Z.pow_pos_nonneg; lia).
  assert (Hpb : 0 < 2 ^ b) by (apply Z.pow_pos_nonneg; lia).
  rewrite <- Z.add_1_r in Hna', Hdb'.
  assert (Hsa : 2 ^ (a + 1) = 2 * 2 ^ a) by (rewrite Z.pow_add_r by lia; lia).
  assert (Hsb : 2 ^ (b + 1) = 2 * 2 ^ b) by (rewrite Z.pow_add_r by lia; lia).
  assert (Hlow : (pow2 (a - b - 1) < n # d)%Q).
  { replace (a - b - 1) with (a - (b + 1)) by lia.
    unfold pow2. rewrite Qpower_minus by discriminate. fold (pow2 a) (pow2 (b + 1)).
    rewrite pow2_Z by lia. rewrite pow2_Z by lia. rewrite Hval.
    apply Zratio_lt; nia. }
  assert (Hhigh : (n # d < pow2 (a - b + 1))%Q).
  { replace (a - b + 1) with (a + 1 - b) by lia.
    unfold pow2. rewrite Qpower_minus by discriminate. fold (pow2 (a + 1)) (pow2 b).
    rewrite pow2_Z by lia. rewrite pow2_Z by lia. rewrite Hval.
    apply Zratio_lt; nia. }
  destruct (Qle_bool (pow2 (a - b)) (n # d)) eqn:Htest.
  - apply Qle_bool_iff in Htest. split; [exact Htest|exact Hhigh].
  - assert (Hbelow : (n # d < pow2 (a - b))%Q).
    { apply Qnot_le_lt. intros Hle. apply Qle_bool_iff in Hle. congruence. }
    replace (a - b - 1 + 1) with (a - b) by lia.
    split; [apply Qlt_le_weak, Hlow|exact Hbelow].
Qed.

Lemma binade_unique (q : Q) (k : Z) :
  (pow2 k <= q < pow2 (k + 1))%Q -> binade q = k.
Proof.
  intros [Hlow Hhigh].
  assert (Hq : (0 < q)%Q) by (pose proof (pow2_pos k); lra).
  destruct (binade_spec q Hq) as [Hlow' Hhigh'].
  assert (H1 : binade q < k + 1) by (apply pow2_lt_inv; lra).
  assert (H2 : k < binade q + 1) by (apply pow2_lt_inv; lra).
  lia.
Qed.

Lemma binade_comp (a b : Q) : (0 < a)%Q -> (a == b)%Q -> binade a = binade b.
Proof.
  intros Ha Hab. symmetry. apply binade_unique. rewrite <- Hab. apply binade_spec, Ha.
Qed.

Lemma binade_mono (a b : Q) : (0 < a)%Q -> (a <= b)%Q -> binade a <= binade b.
Proof.
  intros Ha Hab.
  destruct (binade_spec a Ha) as [Hlow _].
  destruct (binade_spec b ltac:(lra)) as [_ Hhigh].
  assert (binade a < binade b + 1) by (apply pow2_lt_inv; lra). lia.
Qed.

Lemma scaled_le (e : Z) (a b : Q) : (a <= b)%Q -> (a / pow2 e <= b / pow2 e)%Q.
Proof.
  intros Hab. pose proof (pow2_pos e) as He.
  apply Qle_shift_div_l; [exact He|].
  assert (Hback : (a / pow2 e * pow2 e == a)%Q) by (field; lra).
  rewrite Hback. exact Hab.
Qed.

Lemma roundAt_mono (e : Z) (a b : Q) : (a <= b)%Q -> (roundAt e a <= roundAt e b)%Q.
Proof.
  intros Hab. unfold roundAt. pose proof (pow2_pos e) as He.
  apply Qmult_le_compat_r; [|lra].
  rewrite <- Zle_Qle. apply nearestEven_mono, scaled_le, Hab.
Qed.

Lemma roundAt_comp (e : Z) (a b : Q) : (a == b)%Q -> roundAt e a = roundAt e b.
Proof.
  intros Hab. unfold roundAt. f_equal. f_equal. apply nearestEven_comp.
  rewrite Hab. reflexivity.
Qed.

Lemma roundAt_exact (e n : Z) (q : Q) :
  (q == inject_Z n * pow2 e)%Q -> (roundAt e q == q)%Q.
Proof.
  intros Hq. unfold roundAt. pose proof (pow2_pos e) as He.
  assert (Hscaled : (q / pow2 e == inject_Z n)%Q) by (rewrite Hq; field; lra).
  rewrite (nearestEven_comp _ _ Hscaled), nearestEven_Z. symmetry. exact Hq.
Qed.

Lemma ulpExponent_low (q : Q) : -1074 <= ulpExponent q /\ binade q - 52 <= ulpExponent q.
Proof. unfold ulpExponent. lia. Qed.

(** The significand of the rounded number has at most 53 bits, and 53
    exactly when the number is not subnormal. *)
Lemma roundPositive_significand (q : Q) :
  (0 < q)%Q ->
  let e := ulpExponent q in
  let m := nearestEven (q / pow2 e) in
  0 <= m <= 2 ^ 53 /\ (e = -1074 \/ 2 ^ 52 <= m).
Proof.
  intros Hq. cbv zeta. set (e := ulpExponent q).
  destruct (binade_spec q Hq) as [Hlow Hhigh].
  destruct (ulpExponent_low q) as [Hmin Hprec]. fold e in Hmin, Hprec.
  pose proof (pow2_pos e) as He.
  assert (Hup : (q / pow2 e <= inject_Z (2 ^ 53))%Q).
  { apply Qle_shift_div_r; [exact He|].
    rewrite <- (pow2_Z 53) by lia. rewrite <- pow2_add.
    apply Qle_trans with (pow2 (binade q + 1)); [lra|apply pow2_le; lia]. }
  assert (Hpos : (inject_Z 0 <= q / pow2 e)%Q).
  { apply Qle_shift_div_l; [exact He|]. change (inject_Z 0) with 0%Q. lra. }
  apply nearestEven_mono in Hup, Hpos. rewrite nearestEven_Z in Hup, Hpos.
  split; [lia|].
  destruct (Z.eq_dec e (-1074)) as [Hsub|Hnormal]; [left; exact Hsub|right].
  assert (Hexact : e = binade q - 52) by (unfold e, ulpExponent in *; lia).
  assert (Hdown : (inject_Z (2 ^ 52) <= q / pow2 e)%Q).
  { apply Qle_shift_div_l; [exact He|].
    rewrite <- (pow2_Z 52) by lia. rewrite <- pow2_add.
    replace (52 + e) with (binade q) by lia. exact Hlow. }
  apply nearestEven_mono in Hdown. rewrite nearestEven_Z in Hdown. exact Hdown.
Qed.

Lemma roundPositive_nonneg (q : Q) : (0 < q)%Q -> (0 <= roundPositive q)%Q.
Proof.
  intros Hq. destruct (roundPositive_significand q Hq) as [[Hm _] _].
  unfold roundPositive, roundAt. pose proof (pow2_pos (ulpExponent q)).
  apply Qmult_le_0_compat; [|lra].
  change 0%Q with (inject_Z 0). rewrite <- Zle_Qle. exact Hm.
Qed.

Lemma roundPositive_comp (a b : Q) :
  (0 < a)%Q -> (a == b)%Q -> roundPositive a = roundPositive b.
Proof.
  intros Ha Hab. unfold roundPositive, ulpExponent.
  rewrite (binade_comp a b Ha Hab). apply roundAt_comp, Hab.
Qed.

Lemma roundPositive_mono (a b : Q) :
  (0 < a)%Q -> (a <= b)%Q -> (roundPositive a <= roundPositive b)%Q.
Proof.
  intros Ha Hab. assert (Hb : (0 < b)%Q) by lra.
  pose proof (binade_mono a b Ha Hab) as Hbin.
  unfold roundPositive.
  destruct (Z.eq_dec (ulpExponent a) (ulpExponent b)) as [Hsame|Hdiff].
  - rewrite Hsame. apply roundAt_mono, Hab.
  - assert (Hstep : ulpExponent a + 1 <= ulpExponent b)
      by (unfold ulpExponent in *; lia).
    assert (Hnormal : ulpExponent b = binade b - 52)
      by (unfold ulpExponent in *; lia).
    destruct (binade_spec a Ha) as [_ Hhigh].
    destruct (binade_spec b Hb) as [Hlow _].
    destruct (ulpExponent_low a) as [_ Hprec].
    apply Qle_trans with (pow2 (53 + ulpExponent a)).
    + assert (Hfix : (roundAt (ulpExponent a) (pow2 (53 + ulpExponent a)) ==
                      pow2 (53 + ulpExponent a))%Q).
      { apply (roundAt_exact _ (2 ^ 53)).
        rewrite pow2_add, (pow2_Z 53) by lia. reflexivity. }
      rewrite <- Hfix. apply roundAt_mono.
      apply Qle_trans with (pow2 (binade a + 1)); [lra|apply pow2_le; lia].
    + apply Qle_trans with (pow2 (52 + ulpExponent b)); [apply pow2_le; lia|].
      assert (Hfix : (roundAt (ulpExponent b) (pow2 (52 + ulpExponent b)) ==
                      pow2 (52 + ulpExponent b))%Q).
      { apply (roundAt_exact _ (2 ^ 52)).
        rewrite pow2_add, (pow2_Z 52) by lia. reflexivity. }
      rewrite <- Hfix. apply roundAt_mono.
      replace (52 + ulpExponent b) with (binade b) by lia. exact Hlow.
Qed.

(** A number with a significand of at most 53 bits and an exponent in
    range is rounded to itself. *)
Lemma roundPositive_fixed (m e : Z) (q : Q) :
  0 < m <= 2 ^ 53 -> -1074 <= e -> (e = -1074 \/ 2 ^ 52 <= m) ->
  (q == inject_Z m * pow2 e)%Q ->
  (roundPositive q == q)%Q.
Proof.
  intros [Hm Hm53] He Hform Hq.
  pose proof (pow2_pos e) as Hpe.
  assert (Hmq : (0 < inject_Z m)%Q)
    by (change 0%Q with (inject_Z 0); rewrite <- Zlt_Qlt; exact Hm).
  assert (Hpos : (0 < q)%Q) by (rewrite Hq; apply Qmult_lt_0_compat; assumption).
  unfold roundPositive.
  destruct (Z.eq_dec m (2 ^ 53)) as [Htop|Hbelow].
  - (* the significand carried into the next binade *)
    assert (Hq' : (q == pow2 (53 + e))%Q).
    { rewrite Hq, Htop, pow2_add, (pow2_Z 53) by lia. reflexivity. }
    assert (Hbin : binade q = 53 + e).
    { apply binade_unique. rewrite Hq'. split; [lra|].
      rewrite pow2_succ. pose proof (pow2_pos (53 + e)). lra. }
    assert (Hulp : ulpExponent q = e + 1) by (unfold ulpExponent; lia).
    rewrite Hulp. apply (roundAt_exact _ (2 ^ 52)).
    rewrite Hq'. replace (53 + e) with (52 + (e + 1)) by lia.
    rewrite pow2_add, (pow2_Z 52) by lia. reflexivity.
  - assert (Hhigh : (q < pow2 (53 + e))%Q).
    { rewrite Hq, pow2_add, (pow2_Z 53) by lia.
      apply Qmult_lt_compat_r; [exact Hpe|]. rewrite <- Zlt_Qlt. lia. }
    assert (Hulp : ulpExponent q = e).
    { destruct (binade_spec q Hpos) as [Hlow _].
      assert (Hbin : binade q < 53 + e) by (apply pow2_lt_inv; lra).
      destruct Hform as [Hsub|Hnormal]; [unfold ulpExponent; lia|].
      assert (Hbin' : binade q = 52 + e).
      { apply binade_unique. split.
        - rewrite Hq, pow2_add, (pow2_Z 52) by lia.
          apply Qmult_le_compat_r; [|lra]. rewrite <- Zle_Qle. exact Hnormal.
        - replace (52 + e + 1) with (53 + e) by lia. exact Hhigh. }
      unfold ulpExponent. lia. }
    rewrite Hulp. apply (roundAt_exact _ m), Hq.
Qed.

Lemma round_zero (q : Q) : (q == 0)%Q -> (round q == 0)%Q.
Proof.
  intros Hq. unfold round. rewrite Qred_correct.
  destruct (Qcompare_spec q 0); [reflexivity|lra|lra].
Qed.

Lemma round_positive (q : Q) : (0 < q)%Q -> (round q == roundPositive q)%Q.
Proof.
  intros Hq. unfold round. rewrite Qred_correct.
  destruct (Qcompare_spec q 0); [lra|lra|reflexivity].
Qed.

Lemma round_negative (q : Q) : (q < 0)%Q -> (round q == - roundPositive (- q))%Q.
Proof.
  intros Hq. unfold round. rewrite Qred_correct.
  destruct (Qcompare_spec q 0); [lra|reflexivity|lra].
Qed.

Lemma round_comp (a b : Q) : (a == b)%Q -> round a = round b.
Proof.
  intros Hab. unfold round. apply Qred_complete.
  destruct (Qcompare_spec a 0); destruct (Qcompare_spec b 0); try lra.
  - rewrite (roundPositive_comp (- a) (- b)) by lra. reflexivity.
  - rewrite (roundPositive_comp a b) by lra. reflexivity.
Qed.

(** Rounding never reorders two numbers. *)
Lemma round_mono (a b : Q) : (a <= b)%Q -> (round a <= round b)%Q.
Proof.
  intros Hab.
  destruct (Qlt_le_dec a 0) as [Ha|Ha]; [|apply Qle_lteq in Ha as [Ha|Ha]];
    (destruct (Qlt_le_dec b 0) as [Hb|Hb]; [|apply Qle_lteq in Hb as [Hb|Hb]]);
    try lra.
  - rewrite (round_negative a Ha), (round_negative b Hb).
    pose proof (roundPositive_mono (- b) (- a)). lra.
  - rewrite (round_negative a Ha), (round_positive b Hb).
    pose proof (roundPositive_nonneg (- a)). pose proof (roundPositive_nonneg b). lra.
  - rewrite (round_negative a Ha), (round_zero b) by (symmetry; exact Hb).
    pose proof (roundPositive_nonneg (- a)). lra.
  - rewrite (round_positive a Ha), (round_positive b Hb).
    apply roundPositive_mono; assumption.
  - rewrite (round_zero a) by (symmetry; exact Ha). rewrite (round_positive b Hb).
    apply roundPositive_nonneg, Hb.
  - rewrite (round_zero a) by (symmetry; exact Ha).
    rewrite (round_zero b) by (symmetry; exact Hb). lra.
Qed.

Lemma roundPositive_idem (q : Q) :
  (0 < q)%Q -> (0 < roundPositive q)%Q ->
  (roundPositive (roundPositive q) == roundPositive q)%Q.
Proof.
  intros Hq Hr. destruct (roundPositive_significand q Hq) as [[Hm Hm53] Hform].
  destruct (ulpExponent_low q) as [Hmin _].
  apply (roundPositive_fixed (nearestEven (q / pow2 (ulpExponent q))) (ulpExponent q)).
  - split; [|exact Hm53].
    destruct (Z.eq_dec (nearestEven (q / pow2 (ulpExponent q))) 0) as [Hzero|]; [|lia].
    unfold roundPositive, roundAt in Hr. rewrite Hzero in Hr.
    assert (Hnone : (inject_Z 0 * pow2 (ulpExponent q) == 0)%Q) by ring.
    rewrite Hnone in Hr. lra.
  - exact Hmin.
  - exact Hform.
  - reflexivity.
Qed.

(** A rounded number is a JavaScript number. *)
Lemma round_idem (q : Q) : (round (round q) == round q)%Q.
Proof.
  destruct (Qlt_le_dec q 0) as [Hq|Hq]; [|apply Qle_lteq in Hq as [Hq|Hq]].
  - rewrite (round_comp (round q) (- roundPositive (- q))) by (apply round_negative, Hq).
    rewrite (round_negative q Hq).
    pose proof (roundPositive_nonneg (- q) ltac:(lra)) as Hr.
    apply Qle_lteq in Hr as [Hr|Hr].
    + rewrite round_negative by lra.
      rewrite (roundPositive_comp (- - roundPositive (- q)) (roundPositive (- q)))
        by (try ring; lra).
      rewrite roundPositive_idem by (try assumption; lra). reflexivity.
    + rewrite round_zero by lra. lra.
  - rewrite (round_comp (round q) (roundPositive q)) by (apply round_positive, Hq).
    rewrite (round_positive q Hq).
    pose proof (roundPositive_nonneg q Hq) as Hr.
    apply Qle_lteq in Hr as [Hr|Hr].
    + rewrite round_positive by exact Hr. apply roundPositive_idem; assumption.
    + rewrite round_zero by lra. lra.
  - rewrite (round_comp (round q) 0) by (apply round_zero; lra).
    rewrite (round_zero q) by lra. apply round_zero. reflexivity.
Qed.

Lemma isDouble_round (q : Q) : isDouble (round q).
Proof. apply round_idem. Qed.

Lemma isDouble_fadd (x y : Q) : isDouble (fadd x y).
Proof. apply round_idem. Qed.

(** Adding what is not negative never yields less. *)
Lemma fadd_ge (x y : Q) : isDouble x -> (0 <= y)%Q -> (x <= fadd x y)%Q.
Proof.
  intros Hx Hy. unfold fadd, isDouble in *.
  assert (Hsum : (round x <= round (x + y))%Q) by (apply round_mono; lra).
  lra.
Qed.

(** The rounded number is within half a unit in the last place. *)
Lemma nearestEven_error (q : Q) :
  (- (1 # 2) <= inject_Z (nearestEven q) - q <= 1 # 2)%Q.
Proof.
  pose proof (Qfloor_le q) as Hlow. pose proof (Qlt_floor q) as Hhigh.
  rewrite inject_Z_plus in Hhigh. change (inject_Z 1) with 1%Q in Hhigh.
  unfold nearestEven.
  destruct (Qcompare_spec (q - inject_Z (Qfloor q)) (1 # 2));
    try (destruct (Z.even (Qfloor q)));
    rewrite ?inject_Z_plus; change (inject_Z 1) with 1%Q; lra.
Qed.

Lemma roundPositive_error (q : Q) :
  (- (pow2 (ulpExponent q) / 2) <= roundPositive q - q <= pow2 (ulpExponent q) / 2)%Q.
Proof.
  unfold roundPositive, roundAt. set (e := ulpExponent q).
  pose proof (pow2_pos e) as He.
  pose proof (nearestEven_error (q / pow2 e)) as Herr.
  set (m := inject_Z (nearestEven (q / pow2 e))) in *.
  assert (Hdiff : (m * pow2 e - q == (m - q / pow2 e) * pow2 e)%Q) by (field; lra).
  rewrite Hdiff. destruct Herr as [Hlow Hhigh].
  apply (Qmult_le_compat_r _ _ (pow2 e)) in Hlow; [|lra].
  apply (Qmult_le_compat_r _ _ (pow2 e)) in Hhigh; [|lra].
  assert (Hneg : (- (pow2 e / 2) == - (1 # 2) * pow2 e)%Q) by field.
  assert (Hhalf : (pow2 e / 2 == (1 # 2) * pow2 e)%Q) by field.
  rewrite Hneg, Hhalf. split; assumption.
Qed.

(** Known doubles: the literals 0.1 and 0.3, the sum [0.1 + 0.2], ties
    that go to the even significand, and the smallest subnormal. *)
Lemma round_on_known_doubles :
  round (1 # 10) = 3602879701896397 # 36028797018963968 /\
  round (3 # 10) = 5404319552844595 # 18014398509481984 /\
  fadd (round (1 # 10)) (round (1 # 5)) = 1351079888211149 # 4503599627370496 /\
  round (inject_Z (2 ^ 53 + 1)) = inject_Z (2 ^ 53) /\
  round (inject_Z (2 ^ 53 + 3)) = inject_Z (2 ^ 53 + 4) /\
  isDouble (1 # 2 ^ 1074) /\
  round (1 # 2 ^ 1075) = 0%Q /\
  round (- (1 # 10)) = - 3602879701896397 # 36028797018963968.
Proof. repeat split; vm_compute; reflexivity. Qed.

(** ** Numbers and strings *)

Lemma Qltb_lt (x y : Q) : Qltb x y = true <-> (x < y)%Q.
Proof. unfold Qltb, Qlt. apply Z.ltb_lt. Qed.

Lemma driftTooLarge_true (nextStartTime now : Q) :
  driftTooLarge nextStartTime now = true <->
  (nextStartTime < now \/ fadd now (1 # 2) < nextStartTime)%Q.
Proof.
  unfold driftTooLarge, MAX_LOOKAHEAD.
  rewrite orb_true_iff, !Qltb_lt. reflexivity.
Qed.

Lemma to_int_proper (z : Z) :
  Z.to_int z <> Decimal.Pos Decimal.Nil /\ Z.to_int z <> Decimal.Neg Decimal.Nil.
Proof.
  destruct z as [|p|p]; cbn; split; try discriminate;
    intros H; injection H as H; exact (Unsigned.to_uint_nonnil p H).
Qed.

Lemma toString_inj (a b : Z) : toString a = toString b -> a = b.
Proof.
  unfold toString. intros H.
  apply (f_equal NilZero.int_of_string) in H.
  destruct (to_int_proper a) as [Ha1 Ha2], (to_int_proper b) as [Hb1 Hb2].
  rewrite !NilZero.isi in H by assumption.
  injection H as H.
  apply (f_equal Z.of_int) in H. now rewrite !DecimalZ.of_to in H.
Qed.

(** ** Membership in an effect log *)

Lemma stop_logged (node : positive) (l : list positive) :
  node ∈ l -> NodeStop node ∈ map NodeStop l.
Proof. intros Hnode. apply list_elem_of_fmap. exists node. now split. Qed.

Ltac in_log :=
  first
    [ apply list_elem_of_here
    | apply stop_logged; assumption
    | apply list_elem_of_further; in_log
    | apply elem_of_app; left; in_log
    | apply elem_of_app; right; in_log ].

(** ** TranscriptAssembler *)

Section TranscriptProofs.

Import Transcript.

Lemma appendTranscription_merge delta clk prev lastMsg :
  mergeable clk prev lastMsg ->
  appendTranscription delta clk prev = removelast prev ++ [withText lastMsg delta].
Proof.
  intros (Hlast & Hrole & Hrecent). unfold appendTranscription, isRecent.
  rewrite Hlast, bool_decide_eq_true_2, bool_decide_eq_true_2 by assumption.
  reflexivity.
Qed.

Lemma appendTranscription_new delta clk prev :
  (~ exists lastMsg, mergeable clk prev lastMsg) ->
  appendTranscription delta clk prev = prev ++ [freshMessage delta clk].
Proof.
  intros Hno. unfold appendTranscription, isRecent.
  destruct (last prev) as [lastMsg|] eqn:Hlast; [|reflexivity].
  destruct (bool_decide (role lastMsg = model)) eqn:Hrole; [|reflexivity].
  destruct (bool_decide (atCheck clk - timestamp lastMsg < MERGE_WINDOW)) eqn:Hrecent;
    [|reflexivity].
  exfalso. apply Hno. exists lastMsg.
  apply bool_decide_eq_true_1 in Hrole, Hrecent. now repeat split.
Qed.

(** When a new message is created, every id of the transcript names an
    instant before the one the new id names. *)
Lemma stale_ids_are_older clk prev :
  wellFormed prev -> monotone clk ->
  (~ exists lastMsg, mergeable clk prev lastMsg) ->
  Forall (idBefore (atId clk - 1)) prev.
Proof.
  intros [_ Hwf] [Hmono _] Hno.
  destruct (last prev) as [lastMsg|] eqn:Hlast.
  - specialize (Hwf lastMsg eq_refl).
    assert (Hrole : role lastMsg = model).
    { apply last_Some in Hlast as [l' ->].
      apply Forall_app in Hwf as [_ Hwf]. inversion Hwf as [|? ? [Hr _] _]. exact Hr. }
    assert (Hstale : ~ atCheck clk - timestamp lastMsg < MERGE_WINDOW).
    { intros Hlt. apply Hno. exists lastMsg. now repeat split. }
    unfold MERGE_WINDOW in Hstale.
    eapply Forall_impl; [exact Hwf|].
    intros m [Hr (t & Hid & Hle)]. split; [exact Hr|]. exists t. split; [exact Hid|lia].
  - apply last_None in Hlast as ->. constructor.
Qed.

Lemma fresh_id_unused clk prev :
  wellFormed prev -> monotone clk ->
  (~ exists lastMsg, mergeable clk prev lastMsg) ->
  toString (atId clk) ∉ map id prev.
Proof.
  intros Hwf Hmono Hno Hin.
  pose proof (stale_ids_are_older clk prev Hwf Hmono Hno) as Hall.
  apply list_elem_of_fmap in Hin as (m & Hid & Hm).
  rewrite Forall_forall in Hall. destruct (Hall m Hm) as [_ (t & Hid' & Hle)].
  rewrite Hid' in Hid. apply toString_inj in Hid. lia.
Qed.

Lemma idBefore_mono bound bound' m :
  bound <= bound' -> idBefore bound m -> idBefore bound' m.
Proof.
  intros Hle [Hr (t & Hid & Ht)]. split; [exact Hr|]. exists t. split; [exact Hid|lia].
Qed.

(** The updater keeps the transcript well formed. *)
Lemma appendTranscription_wellFormed delta clk prev :
  wellFormed prev -> monotone clk -> wellFormed (appendTranscription delta clk prev).
Proof.
  intros Hwf Hmono.
  destruct (last prev) as [lastMsg|] eqn:Hlast.
  - destruct (decide (role lastMsg = model /\ atCheck clk - timestamp lastMsg < MERGE_WINDOW))
      as [[Hr Hrec]|Hno].
    + rewrite (appendTranscription_merge delta clk prev lastMsg) by now repeat split.
      destruct Hwf as [Hnd Hall]. specialize (Hall lastMsg Hlast).
      apply last_Some in Hlast as [l' ->]. rewrite removelast_last.
      split.
      * rewrite map_app in *. exact Hnd.
      * intros lastMsg'. rewrite last_snoc. intros [= <-]. cbn.
        apply Forall_app in Hall as [Hl' Hlast]. apply Forall_app. split; [exact Hl'|].
        constructor; [|constructor]. inversion Hlast as [|? ? [Hr' (t & Hid & Ht)] _].
        split; [exact Hr'|]. exists t. now split.
    + assert (Hnone : ~ exists lastMsg, mergeable clk prev lastMsg).
      { intros (m & Hm & Hr & Hrec). rewrite Hlast in Hm. injection Hm as <-.
        now apply Hno. }
      rewrite appendTranscription_new by exact Hnone.
      pose proof (fresh_id_unused clk prev Hwf Hmono Hnone) as Hfresh.
      pose proof (stale_ids_are_older clk prev Hwf Hmono Hnone) as Hold.
      destruct Hwf as [Hnd _]. split.
      * rewrite map_app. cbn. apply NoDup_app. repeat split.
        -- exact Hnd.
        -- intros x Hx Hx'. apply list_elem_of_singleton in Hx'. subst x.
           now apply Hfresh.
        -- apply NoDup_singleton.
      * intros lastMsg'. rewrite last_snoc. intros [= <-]. cbn.
        destruct Hmono as [_ Hmono]. apply Forall_app. split.
        -- eapply Forall_impl; [exact Hold|]. intros m. apply idBefore_mono. lia.
        -- constructor; [|constructor]. split; [reflexivity|].
           exists (atId clk). now split.
  - apply last_None in Hlast as ->. cbn. split.
    + apply NoDup_singleton.
    + intros lastMsg' [= <-]. cbn. constructor; [|constructor].
      split; [reflexivity|]. exists (atId clk). split; [reflexivity|apply Hmono].
Qed.

End TranscriptProofs.

(** ** InboundPlaybackScheduler *)

Lemma schedule_result (now : Q) (audioBuffer : AudioBuffer) (w : World) :
  let start := startFor (nextStartTimeRef (refs w)) now in
  let node := counter (browser w) in
  exists w' : World,
    schedule now audioBuffer w =
      ({| handle := node; scheduledStart := start;
          unitDuration := duration audioBuffer |}, w', [NodeStart node start]) /\
    nextStartTimeRef (refs w') = fadd start (duration audioBuffer) /\
    sourcesRef (refs w') = setAdd node (sourcesRef (refs w)) /\
    audioContextRef (refs w') = audioContextRef (refs w) /\
    react w' = react w.
Proof.
  cbv zeta. unfold startFor. eff_cases; eexists; (split; [reflexivity|]); cbn; repeat split.
Qed.

Lemma startFor_reset (nextStartTime now : Q) :
  (nextStartTime < now \/ fadd now (1 # 2) < nextStartTime)%Q ->
  startFor nextStartTime now = now.
Proof. intros H. unfold startFor. now rewrite (proj2 (driftTooLarge_true _ _) H). Qed.

Lemma startFor_keep (nextStartTime now : Q) :
  ~ (nextStartTime < now \/ fadd now (1 # 2) < nextStartTime)%Q ->
  startFor nextStartTime now = nextStartTime.
Proof.
  intros H. unfold startFor.
  destruct (driftTooLarge nextStartTime now) eqn:Hd; [|reflexivity].
  now apply driftTooLarge_true in Hd.
Qed.

Lemma setAdd_elem (x : positive) (l : list positive) : x ∈ setAdd x l.
Proof.
  unfold setAdd. destruct (decide (x ∈ l)); [assumption|].
  set_solver.
Qed.

Lemma handleInterruption_stops (msg : LiveServerMessage) (w : World) :
  interrupted msg = Some true ->
  handleInterruption msg w =
    (tt, withRefs (putNextStartTime 0%Q) (withRefs (putSources []) w),
     map NodeStop (sourcesRef (refs w)) ++ []).
Proof. intros Hint. unfold handleInterruption. rewrite Hint. eff_step. reflexivity. Qed.

Lemma handleInterruption_quiet (msg : LiveServerMessage) (w : World) :
  interrupted msg <> Some true -> handleInterruption msg w = (tt, w, []).
Proof.
  intros Hint. unfold handleInterruption.
  destruct (interrupted msg) as [[|]|]; [congruence|reflexivity|reflexivity].
Qed.

(** C1.  For every decoded unit, the scheduler compares [nextStartTime]
    with the clock reading [now], in the arithmetic of JavaScript numbers:
    when [nextStartTime < now] or [nextStartTime > now + 0.5] (the sum
    rounded to the nearest double) the unit starts at [now], otherwise at
    [nextStartTime]; the source node is started at that instant and is in
    the active set afterwards, and [nextStartTime] becomes that instant
    plus the unit's duration (the [+=] of line 133, a sum of doubles).
    [onmessage] does exactly this for a message whose audio decodes and
    that carries no interruption. *)
Theorem schedule_resets_then_advances
    (now : Q) (audioBuffer : AudioBuffer) (w : World) :
  let nextStartTime := nextStartTimeRef (refs w) in
  let start := startFor nextStartTime now in
  let node := counter (browser w) in
  ((nextStartTime < now \/ fadd now (1 # 2) < nextStartTime)%Q -> start = now) /\
  (~ (nextStartTime < now \/ fadd now (1 # 2) < nextStartTime)%Q ->
   start = nextStartTime) /\
  effectsOf (schedule now audioBuffer) w = [NodeStart node start] /\
  nextStartTimeRef (refs (after (schedule now audioBuffer) w)) =
    fadd start (duration audioBuffer) /\
  node ∈ sourcesRef (refs (after (schedule now audioBuffer) w)) /\
  (forall (decode : string -> option AudioBuffer) (msg : LiveServerMessage)
          (clk : Transcript.Clock) (base64Audio : string),
      is_Some (audioContextRef (refs w)) ->
      truthy (inlineData msg) = Some base64Audio ->
      decode base64Audio = Some audioBuffer ->
      interrupted msg <> Some true ->
      effectsOf (onmessage decode msg now clk) w = [NodeStart node start] /\
      nextStartTimeRef (refs (after (onmessage decode msg now clk) w)) =
        fadd start (duration audioBuffer)).
Proof.
  cbv zeta.
  destruct (schedule_result now audioBuffer w) as (w' & Hrun & Hnext & Hsrc & _ & _).
  split; [apply startFor_reset|]. split; [apply startFor_keep|].
  unfold effectsOf, after. rewrite Hrun. cbn [fst snd].
  split; [reflexivity|]. split; [exact Hnext|].
  split; [rewrite Hsrc; apply setAdd_elem|].
  intros decode msg clk base64Audio [ctx Hctx] Haudio Hdecode Hint.
  unfold onmessage, playAudio, setMessages. rewrite Haudio, Hdecode.
  pose proof (fun v => handleInterruption_quiet msg v Hint) as Hquiet.
  unfold startFor in *.
  destruct (truthy (outputTranscription msg)); unfold_handlers; cbn;
    rewrite Hctx; cbn;
    destruct (driftTooLarge (nextStartTimeRef (refs w)) now); cbn;
    rewrite Hquiet; cbn; split; reflexivity.
Qed.

(** A message with audio that decodes, on a world with no schedule yet. *)
Lemma schedule_resets_then_advances_witness :
  effectsOf
    (onmessage sampleDecode
       {| outputTranscription := None; inlineData := Some "pcm"; interrupted := None |}
       (3 # 1) {| Transcript.atCheck := 0; Transcript.atId := 0; Transcript.atStamp := 0 |})
    (withRefs (putAudioContext (Some {| sampleRate := 24000 |})) initialWorld)
  = [NodeStart 1%positive (3 # 1)].
Proof.
  refine (proj1 (proj2 (proj2 (proj2 (proj2 (proj2
    (schedule_resets_then_advances (3 # 1) {| duration := 1 # 4 |}
       (withRefs (putAudioContext (Some {| sampleRate := 24000 |})) initialWorld))))))
    sampleDecode _ _ "pcm" _ _ _ _)).
  - eexists. reflexivity.
  - reflexivity.
  - reflexivity.
  - discriminate.
Defined.

Lemma unitsOf_cons (now : Q) (audioBuffer : AudioBuffer)
    (rest : list (Q * AudioBuffer)) (w : World) :
  unitsOf ((now, audioBuffer) :: rest) w =
    {| handle := counter (browser w);
       scheduledStart := startFor (nextStartTimeRef (refs w)) now;
       unitDuration := duration audioBuffer |}
    :: unitsOf rest (after (schedule now audioBuffer) w).
Proof.
  destruct (schedule_result now audioBuffer w) as (w' & Hrun & _).
  unfold unitsOf, after. cbn [scheduleAll]. unfold bind. rewrite Hrun. cbn [fst snd].
  destruct (scheduleAll rest w') as [[units w''] effects]. reflexivity.
Qed.

Lemma schedule_next (now : Q) (audioBuffer : AudioBuffer) (w : World) :
  nextStartTimeRef (refs (after (schedule now audioBuffer) w)) =
    fadd (startFor (nextStartTimeRef (refs w)) now) (duration audioBuffer).
Proof.
  destruct (schedule_result now audioBuffer w) as (w' & Hrun & Hnext & _).
  unfold after. rewrite Hrun. exact Hnext.
Qed.

(** Without the look-ahead reset a unit never starts before the schedule. *)
Lemma startFor_within (nextStartTime now : Q) :
  Qltb (fadd now MAX_LOOKAHEAD) nextStartTime = false ->
  (nextStartTime <= startFor nextStartTime now)%Q.
Proof.
  intros Hwithin. unfold startFor, driftTooLarge. rewrite Hwithin, orb_false_r.
  destruct (Qltb nextStartTime now) eqn:Hunder.
  - apply Qltb_lt in Hunder. lra.
  - lra.
Qed.

Lemma startFor_isDouble (nextStartTime now : Q) :
  isDouble nextStartTime -> isDouble now -> isDouble (startFor nextStartTime now).
Proof.
  intros Hnext Hnow. unfold startFor.
  destruct (driftTooLarge nextStartTime now); assumption.
Qed.

Lemma units_start_after_schedule (arrivals : list (Q * AudioBuffer)) :
  forall (w : World) (j : nat) (v : PlaybackUnit),
    nonNegative arrivals ->
    clockReadings arrivals ->
    isDouble (nextStartTimeRef (refs w)) ->
    withinLookahead arrivals w ->
    unitsOf arrivals w !! j = Some v ->
    (nextStartTimeRef (refs w) <= scheduledStart v)%Q /\ isDouble (scheduledStart v).
Proof.
  induction arrivals as [|[now audioBuffer] rest IH];
    intros w j v Hpos Hclock Hnext Hwithin Hv.
  - discriminate.
  - rewrite unitsOf_cons in Hv. destruct Hwithin as [Hhere Hrest].
    inversion Hpos as [|? ? Hdur Hpos']; subst. cbn in Hdur.
    inversion Hclock as [|? ? Hnow Hclock']; subst. cbn in Hnow.
    pose proof (startFor_within _ now Hhere) as Hstart.
    pose proof (startFor_isDouble _ now Hnext Hnow) as Hdouble.
    destruct j as [|j]; cbn in Hv.
    + injection Hv as <-. split; [exact Hstart|exact Hdouble].
    + assert (Hnext' : isDouble (nextStartTimeRef (refs (after (schedule now audioBuffer) w))))
        by (rewrite schedule_next; apply isDouble_fadd).
      destruct (IH _ j v Hpos' Hclock' Hnext' Hrest Hv) as [Hlow Hv'].
      split; [|exact Hv']. rewrite schedule_next in Hlow.
      pose proof (fadd_ge _ (duration audioBuffer) Hdouble Hdur). lra.
Qed.

Lemma units_end_before_later_start (arrivals : list (Q * AudioBuffer)) :
  forall (w : World) (i j : nat) (u v : PlaybackUnit),
    nonNegative arrivals ->
    clockReadings arrivals ->
    isDouble (nextStartTimeRef (refs w)) ->
    withinLookahead arrivals w ->
    (i < j)%nat ->
    unitsOf arrivals w !! i = Some u ->
    unitsOf arrivals w !! j = Some v ->
    (scheduledStart u <= scheduledEnd u)%Q /\ (scheduledEnd u <= scheduledStart v)%Q.
Proof.
  induction arrivals as [|[now audioBuffer] rest IH];
    intros w i j u v Hpos Hclock Hnext Hwithin Hij Hu Hv.
  - discriminate.
  - rewrite unitsOf_cons in Hu, Hv. destruct Hwithin as [Hhere Hrest].
    inversion Hpos as [|? ? Hdur Hpos']; subst. cbn in Hdur.
    inversion Hclock as [|? ? Hnow Hclock']; subst. cbn in Hnow.
    assert (Hnext' : isDouble (nextStartTimeRef (refs (after (schedule now audioBuffer) w))))
      by (rewrite schedule_next; apply isDouble_fadd).
    destruct j as [|j]; [lia|]. cbn in Hv.
    destruct i as [|i]; cbn in Hu.
    + injection Hu as <-. unfold scheduledEnd. cbn. split.
      * apply fadd_ge; [apply startFor_isDouble; assumption|exact Hdur].
      * destruct (units_start_after_schedule rest _ j v Hpos' Hclock' Hnext' Hrest Hv)
          as [Hlow _].
        rewrite schedule_next in Hlow. exact Hlow.
    + apply (IH _ i j u v Hpos' Hclock' Hnext' Hrest); [lia|assumption|assumption].
Qed.

(** Only a message of the session moves the schedule: every other event
    leaves [nextStartTime] where it was, so units scheduled by consecutive
    messages are scheduled as [scheduleAll] schedules them, whatever else
    happens between them. *)
Lemma other_events_keep_schedule decode (ev : Event) (w : World) :
  (forall p msg now clk, ev <> SessionMessage p msg now clk) ->
  nextStartTimeRef (refs (after (dispatch decode ev) w)) = nextStartTimeRef (refs w).
Proof.
  intros Hother. unfold after.
  destruct ev; try (exfalso; eapply Hother; reflexivity); eff_cases; reflexivity.
Qed.

(** C2, as the code has it.  For every sequence of units scheduled one
    after the other with no interruption between them, whose durations are
    not negative and none of which arrives while [nextStartTime] is more
    than 0.5 s ahead of the clock (so the look-ahead reset of line 124
    never fires), the intervals [[scheduledStart, scheduledStart+duration)]
    are pairwise non-overlapping and the starts are non-decreasing in
    arrival order.  The clock readings and the schedule the run starts
    from are JavaScript numbers, and every sum is the program's: the test
    of line 124 compares with the rounded [now + 0.5], and the end of an
    interval is the rounded [scheduledStart + duration] that line 133
    stores. *)
Theorem scheduleAll_ordered_within_lookahead
    (arrivals : list (Q * AudioBuffer)) (w : World) :
  Forall (fun arrival => (0 <= duration (snd arrival))%Q) arrivals ->
  clockReadings arrivals ->
  isDouble (nextStartTimeRef (refs w)) ->
  withinLookahead arrivals w ->
  nonOverlapping (unitsOf arrivals w) /\ nonDecreasing (unitsOf arrivals w).
Proof.
  intros Hpos Hclock Hnext Hwithin. split.
  - intros i j u v Hij Hu Hv (t & [Hu1 Hu2] & [Hv1 Hv2]).
    destruct (units_end_before_later_start arrivals w i j u v
                Hpos Hclock Hnext Hwithin Hij Hu Hv) as [_ Hend].
    lra.
  - intros i j u v Hij Hu Hv.
    destruct (units_end_before_later_start arrivals w i j u v
                Hpos Hclock Hnext Hwithin Hij Hu Hv) as [Hdur Hend].
    lra.
Qed.

Lemma scheduleAll_ordered_within_lookahead_witness :
  nonOverlapping (unitsOf steady initialWorld) /\
  nonDecreasing (unitsOf steady initialWorld).
Proof.
  apply (scheduleAll_ordered_within_lookahead steady initialWorld).
  - repeat constructor; vm_compute; discriminate.
  - repeat constructor; vm_compute; reflexivity.
  - vm_compute. reflexivity.
  - vm_compute. repeat split; reflexivity.
Defined.

(** C2, as stated, fails on [burst]: the third unit arrives while the
    schedule is 1.3 s ahead of the clock, is reset to the clock, and so
    starts at 0.1 s, before the second unit's start (0.4 s) and inside
    both earlier intervals. *)
Lemma burst_overlaps_and_goes_back :
  unitsOf burst initialWorld =
    [ {| handle := 1; scheduledStart := 0; unitDuration := round (2 # 5) |};
      {| handle := 2; scheduledStart := round (2 # 5); unitDuration := 1 |};
      {| handle := 3; scheduledStart := round (1 # 10); unitDuration := 1 |} ] /\
  ~ nonOverlapping (unitsOf burst initialWorld) /\
  ~ nonDecreasing (unitsOf burst initialWorld).
Proof.
  assert (Hunits : unitsOf burst initialWorld =
    [ {| handle := 1; scheduledStart := 0; unitDuration := round (2 # 5) |};
      {| handle := 2; scheduledStart := round (2 # 5); unitDuration := 1 |};
      {| handle := 3; scheduledStart := round (1 # 10); unitDuration := 1 |} ])
    by (vm_compute; reflexivity).
  split; [exact Hunits|]. rewrite Hunits. split.
  - intros Hno. eapply (Hno 0%nat 2%nat); [lia|reflexivity|reflexivity|].
    exists (1 # 5)%Q. unfold playsAt, scheduledEnd. cbn [scheduledStart unitDuration].
    repeat split; vm_compute; first [reflexivity|discriminate].
  - intros Hmono. specialize (Hmono 1%nat 2%nat _ _ ltac:(lia) eq_refl eq_refl).
    cbn [scheduledStart] in Hmono. vm_compute in Hmono. apply Hmono. reflexivity.
Qed.

(** The scheduler runs on doubles.  With [nextStartTime] at 0.8 and the
    clock at 0.3 the sum [0.3 + 0.5] rounds to 0.8, so the look-ahead test
    is false and the schedule is kept, although the exact sum is below the
    number 0.8 denotes.  On [hairline] the rounded sums make the third
    unit trip the look-ahead: the starts are 0.1, 0.30000000000000004 and
    0.1 again. *)
Lemma scheduler_compares_rounded_sums :
  driftTooLarge (round (4 # 5)) (round (3 # 10)) = false /\
  (round (3 # 10) + (1 # 2) < round (4 # 5))%Q /\
  map scheduledStart (unitsOf hairline initialWorld) =
    [round (1 # 10); fadd (round (1 # 10)) (round (1 # 5)); round (1 # 10)] /\
  (3 # 10 < fadd (round (1 # 10)) (round (1 # 5)))%Q /\
  ~ withinLookahead hairline initialWorld.
Proof.
  split; [vm_compute; reflexivity|]. split; [vm_compute; reflexivity|].
  split; [vm_compute; reflexivity|]. split; [vm_compute; reflexivity|].
  intros (_ & _ & Hthird & _). vm_compute in Hthird. discriminate.
Qed.

(** ** What every reachable world satisfies *)

Lemma initial_consistent : consistent initialWorld.
Proof.
  split; cbn.
  - intros t [x Hx]. rewrite lookup_empty in Hx. discriminate.
  - intros [[p [x Hx]]|[k [x Hx]]]; rewrite lookup_empty in Hx; discriminate.
  - intros p [x Hx]. rewrite lookup_empty in Hx. discriminate.
  - intros e p payload Hx. rewrite lookup_empty in Hx. discriminate.
  - intros mic p Hin. apply elem_of_nil in Hin. contradiction.
  - intros t p Hx. rewrite lookup_empty in Hx. discriminate.
  - discriminate.
  - intros p s Hx. rewrite lookup_empty in Hx. discriminate.
  - intros e [x Hx]. rewrite lookup_empty in Hx. discriminate.
Qed.

Ltac map_norm :=
  repeat match goal with
  | H : is_Some (alter _ _ _ !! _) |- _ => apply lookup_alter_is_Some in H
  | H : is_Some (delete _ _ !! _) |- _ => apply lookup_delete_is_Some in H as [? H]
  | H : is_Some (<[_:=_]> _ !! _) |- _ => apply lookup_insert_is_Some' in H
  | H : <[_:=_]> _ !! _ = Some _ |- _ => apply lookup_insert_Some in H
  | H : delete _ _ !! _ = Some _ |- _ => apply lookup_delete_Some in H as [? H]
  | H : _ ∈ _ ++ _ |- _ => apply elem_of_app in H
  | H : _ ∈ [_] |- _ => apply list_elem_of_singleton in H
  | |- is_Some (alter _ _ _ !! _) => apply lookup_alter_is_Some
  | |- is_Some (<[_:=_]> _ !! _) => apply lookup_insert_is_Some'
  end.

Lemma dispatch_timer_tracked decode ev w :
  consistent w ->
  forall t : positive,
    is_Some (timers (browser (after (dispatch decode ev) w)) !! t) ->
    frameIntervalRef (refs (after (dispatch decode ev) w)) = Some t.
Proof.
  intros [Hinv _ _ _ _ _ _ _ _]. unfold after.
  destruct ev; eff_cases.
  all: try exact Hinv.
  all: intros t [x Hx].
  all: repeat (apply lookup_insert_Some in Hx as [[<- _]|[_ Hx]]; [reflexivity|]).
  all: try (apply lookup_delete_Some in Hx as [Hne Hx]).
  all: pose proof (Hinv t (ex_intro _ x Hx)) as Ht; congruence.
Qed.

Lemma dispatch_context_ready decode ev w :
  consistent w ->
  (exists p : positive, is_Some (sessions (browser (after (dispatch decode ev) w)) !! p)) \/
  (exists k : positive, is_Some (connecting (browser (after (dispatch decode ev) w)) !! k)) ->
  is_Some (audioContextRef (refs (after (dispatch decode ev) w))).
Proof.
  intros [_ Hinv _ _ _ _ _ _ _]. unfold after.
  destruct ev; eff_cases.
  all: try exact Hinv.
  all: try (intros _; eexists; reflexivity).
  all: try (intros _;
            match goal with H : audioContextRef _ = Some _ |- _ => rewrite H; eexists; reflexivity end).
  all: try (intros _; apply Hinv; right; eexists; eexists; eassumption).
  all: intros [[q Hq]|[q Hq]]; map_norm;
       try match goal with H : audioContextRef (refs _) = _ |- _ => rewrite H end;
       apply Hinv; eauto.
Qed.

Lemma dispatch_sessions_fresh decode ev w :
  consistent w ->
  forall p : positive,
    is_Some (sessions (browser (after (dispatch decode ev) w)) !! p) ->
    (p < counter (browser (after (dispatch decode ev) w)))%positive.
Proof.
  intros [_ _ Hinv _ _ _ _ _ _]. unfold after.
  destruct ev; eff_cases.
  all: try exact Hinv.
  all: intros q Hq; map_norm.
  all: try (specialize (Hinv q)); try lia; try (destruct Hq as [<-|Hq]; [lia|]);
       try (specialize (Hinv Hq)); lia.
Qed.

Lemma dispatch_known decode ev w :
  consistent w ->
  let w' := after (dispatch decode ev) w in
  (forall (e p : positive) (payload : Payload),
      encoding (browser w') !! e = Some (p, payload) ->
      is_Some (sessions (browser w') !! p)) /\
  (forall (mic : bool) (p : positive),
      (mic, p) ∈ processors (browser w') -> is_Some (sessions (browser w') !! p)) /\
  (forall t p : positive,
      timers (browser w') !! t = Some p -> is_Some (sessions (browser w') !! p)) /\
  (forall p : positive,
      sessionPromiseRef (refs w') = Some p -> is_Some (sessions (browser w') !! p)).
Proof.
  intros [_ _ _ Henc Hproc Htim Hprom _ _]. unfold after. cbv zeta.
  destruct ev; eff_cases.
  all: try (repeat split; assumption).
  all: repeat split.
  all: try assumption.
  all: try discriminate.
  all: intros; map_norm.
  all: try (eapply Hproc, list_elem_of_lookup_2; eassumption).
  all: repeat match goal with
       | H : _ \/ _ |- _ => destruct H as [H|H]
       | H : _ /\ _ |- _ => destruct H
       end; map_norm; simplify_eq; eauto.
  all: eapply Hproc, list_elem_of_lookup_2; eassumption.
Qed.

Lemma dispatch_queue_flushed decode ev w :
  consistent w ->
  forall (p : positive) (s : Session),
    sessions (browser (after (dispatch decode ev) w)) !! p = Some s ->
    resolved s = true -> queued s = [].
Proof.
  intros [_ _ _ _ _ _ _ Hinv _]. unfold after.
  destruct ev; eff_cases.
  all: try exact Hinv.
  all: intros q s' Hq Hres.
  all: try (apply lookup_insert_Some in Hq as [[_ <-]|[_ Hq]]; [discriminate|]).
  all: try (apply lookup_alter_Some in Hq as [[_ (s0 & Hq & ->)]|[_ Hq]]).
  all: try (eapply Hinv; eassumption).
  all: try reflexivity.
  all: unfold chain in *; destruct (resolved s0) eqn:Hs0; cbn in *; try discriminate.
  all: eapply Hinv; eassumption.
Qed.

Lemma dispatch_encoding_fresh decode ev w :
  consistent w ->
  forall e : positive,
    is_Some (encoding (browser (after (dispatch decode ev) w)) !! e) ->
    (e < counter (browser (after (dispatch decode ev) w)))%positive.
Proof.
  intros [_ _ _ _ _ _ _ _ Hinv]. unfold after.
  destruct ev; eff_cases.
  all: try exact Hinv.
  all: intros q Hq; map_norm.
  all: try (destruct Hq as [<-|Hq]; [lia|]).
  all: specialize (Hinv q Hq); lia.
Qed.

Lemma dispatch_consistent decode ev w :
  consistent w -> consistent (after (dispatch decode ev) w).
Proof.
  intros Hw. destruct (dispatch_known decode ev w Hw) as (Henc & Hproc & Htim & Hprom).
  split.
  - exact (dispatch_timer_tracked decode ev w Hw).
  - exact (dispatch_context_ready decode ev w Hw).
  - exact (dispatch_sessions_fresh decode ev w Hw).
  - exact Henc.
  - exact Hproc.
  - exact Htim.
  - exact Hprom.
  - exact (dispatch_queue_flushed decode ev w Hw).
  - exact (dispatch_encoding_fresh decode ev w Hw).
Qed.

Lemma run_cons decode ev events w :
  after (run decode (ev :: events)) w =
    after (run decode events) (after (dispatch decode ev) w).
Proof.
  unfold after. cbn [run]. unfold bind.
  destruct (dispatch decode ev w) as [[u w1] e1]. cbn [fst snd].
  destruct (run decode events w1) as [[u' w2] e2]. reflexivity.
Qed.

Lemma run_consistent decode events :
  forall w, consistent w -> consistent (after (run decode events) w).
Proof.
  induction events as [|ev events IH]; intros w Hw.
  - exact Hw.
  - rewrite run_cons. apply IH, dispatch_consistent, Hw.
Qed.

Lemma reachable_consistent decode w : reachable decode w -> consistent w.
Proof. intros [events <-]. apply run_consistent, initial_consistent. Qed.

(** The transcript after an event: only a message of a known session that
    carries a non-empty delta changes it, through the updater. *)
Lemma dispatch_messages decode (ev : Event) (w : World) :
  messages (react (after (dispatch decode ev) w)) =
    match ev with
    | SessionMessage p msg now clk =>
        match sessions (browser w) !! p, truthy (outputTranscription msg) with
        | Some _, Some delta =>
            Transcript.appendTranscription delta clk (messages (react w))
        | _, _ => messages (react w)
        end
    | _ => messages (react w)
    end.
Proof.
  unfold after. destruct ev; eff_cases; reflexivity.
Qed.

(** The transcript of every world the application reaches with clocks that
    do not run backwards is well formed. *)
Lemma run_transcript_wellFormed decode (events : list Event) :
  forall w : World,
    clocksMonotone events ->
    Transcript.wellFormed (messages (react w)) ->
    Transcript.wellFormed (messages (react (after (run decode events) w))).
Proof.
  induction events as [|ev events IH]; intros w Hclocks Hwf.
  - exact Hwf.
  - inversion Hclocks as [|? ? Hclock Hrest]; subst.
    rewrite run_cons. apply IH; [exact Hrest|].
    rewrite dispatch_messages.
    destruct ev; try exact Hwf.
    destruct (sessions (browser w) !! sessionPromise); [|exact Hwf].
    destruct (truthy (outputTranscription msg)); [|exact Hwf].
    apply appendTranscription_wellFormed; assumption.
Qed.


(** The transcript after the handler ran: the updater applied to the
    delta of the message, when it has one. *)
Lemma onmessage_messages decode (msg : LiveServerMessage) (now : Q)
    (clk : Transcript.Clock) (w : World) :
  messages (react (after (onmessage decode msg now clk) w)) =
    match truthy (outputTranscription msg) with
    | Some delta => Transcript.appendTranscription delta clk (messages (react w))
    | None => messages (react w)
    end.
Proof. unfold after. eff_cases; reflexivity. Qed.

(** C6.  For every message [onmessage] receives, in every world.  When
    the message carries a transcription text that is not empty, the
    handler hands that delta to the updater of the transcript, and the
    transcript it leaves is this: if the most recent message is the
    model's and the clock reads less than 2000 ms after its timestamp, the
    transcript keeps every earlier message and its last message keeps its
    id, role and timestamp and has the delta appended to its text;
    otherwise (the transcript is empty, or its last message is another
    role's or is 2000 ms old or older) the transcript keeps every message
    and gains one with the decimal string of [Date.now()] as id, role
    model, the delta as text and the time of creation as timestamp.  That
    id occurs nowhere in a transcript this updater built, as long as the
    wall clock does not run backwards.  A message without such a text
    leaves the transcript as it is, and the event loop hands every message
    of a known session to this handler. *)
Theorem appendTranscription_merge_rule
    (decode : string -> option AudioBuffer) (msg : LiveServerMessage) (now : Q)
    (clk : Transcript.Clock) (w : World) :
  let prev := messages (react w) in
  let next := messages (react (after (onmessage decode msg now clk) w)) in
  (truthy (outputTranscription msg) = None -> next = prev) /\
  (forall delta : string,
      truthy (outputTranscription msg) = Some delta ->
      (forall lastMsg : Message,
          Transcript.mergeable clk prev lastMsg ->
          next =
            removelast prev ++
            [{| id := id lastMsg; role := role lastMsg;
                text := text lastMsg +:+ delta; timestamp := timestamp lastMsg |}]) /\
      ((~ exists lastMsg : Message, Transcript.mergeable clk prev lastMsg) ->
          next =
            prev ++
            [{| id := toString (Transcript.atId clk); role := model;
                text := delta; timestamp := Transcript.atStamp clk |}] /\
          (Transcript.wellFormed prev -> Transcript.monotone clk ->
           toString (Transcript.atId clk) ∉ map id prev))) /\
  (forall p : positive,
      is_Some (sessions (browser w) !! p) ->
      messages (react (after (dispatch decode (SessionMessage p msg now clk)) w)) = next).
Proof.
  cbv zeta. rewrite onmessage_messages. split; [|split].
  - intros ->. reflexivity.
  - intros delta ->. split.
    + intros lastMsg Hm.
      exact (appendTranscription_merge delta clk (messages (react w)) lastMsg Hm).
    + intros Hno. split.
      * exact (appendTranscription_new delta clk (messages (react w)) Hno).
      * intros Hwf Hmono. exact (fresh_id_unused clk (messages (react w)) Hwf Hmono Hno).
  - intros p [s Hs]. rewrite dispatch_messages, Hs.
    destruct (truthy (outputTranscription msg)); reflexivity.
Qed.

(** ["Hello"] arrived at 1000: a message with [" there"] 500 ms later is
    merged into it, 2100 ms later it starts a message of its own, with a
    new id. *)
Lemma appendTranscription_merge_rule_witness :
  let w := withReact (putMessages helloTranscript) initialWorld in
  messages (react (after (onmessage sampleDecode (textMessage " there") 0%Q
                            (clockAt 1500)) w)) =
    [ {| id := "1000"; role := model; text := "Hello there"; timestamp := 1000 |} ] /\
  messages (react (after (onmessage sampleDecode (textMessage " there") 0%Q
                            (clockAt 3100)) w)) =
    [ {| id := "1000"; role := model; text := "Hello"; timestamp := 1000 |};
      {| id := "3100"; role := model; text := " there"; timestamp := 3100 |} ] /\
  "3100" ∉ map id helloTranscript.
Proof.
  cbv zeta.
  assert (Hstale : ~ exists lastMsg, Transcript.mergeable (clockAt 3100) helloTranscript lastMsg).
  { intros (m & Hlast & _ & Hrecent). injection Hlast as <-.
    unfold Transcript.MERGE_WINDOW in Hrecent. cbn in Hrecent. lia. }
  destruct (appendTranscription_merge_rule sampleDecode (textMessage " there") 0%Q
              (clockAt 1500) (withReact (putMessages helloTranscript) initialWorld))
    as (_ & Hearly & _).
  destruct (appendTranscription_merge_rule sampleDecode (textMessage " there") 0%Q
              (clockAt 3100) (withReact (putMessages helloTranscript) initialWorld))
    as (_ & Hlate & _).
  destruct (Hearly " there" eq_refl) as [Hmerge _].
  destruct (Hlate " there" eq_refl) as [_ Hnew].
  destruct (Hnew Hstale) as [Happended Hfresh].
  split; [|split].
  - refine (Hmerge {| id := "1000"; role := model; text := "Hello"; timestamp := 1000 |} _).
    split; [reflexivity|]. split; [reflexivity|].
    unfold Transcript.MERGE_WINDOW. cbn. lia.
  - exact Happended.
  - apply Hfresh.
    + split.
      * apply NoDup_singleton.
      * intros lastMsg [= <-]. constructor; [|constructor].
        split; [reflexivity|]. exists 1000. split; [reflexivity|]. cbn. lia.
    + unfold Transcript.monotone. cbn. lia.
Defined.

(** ** The frame timer *)

Lemma tracked_at_most_one (w : World) :
  (forall t : positive,
      is_Some (timers (browser w) !! t) -> frameIntervalRef (refs w) = Some t) ->
  (liveTimers w <= 1)%nat.
Proof.
  intros Htracked. unfold liveTimers.
  destruct (frameIntervalRef (refs w)) as [t|] eqn:Href.
  - rewrite <- (size_dom (D := gset positive)).
    transitivity (size ({[t]} : gset positive)).
    + apply subseteq_size. intros t' Ht'. apply elem_of_dom in Ht'.
      specialize (Htracked t' Ht'). apply elem_of_singleton. congruence.
    + now rewrite size_singleton.
  - assert (Hempty : timers (browser w) = ∅).
    { apply map_empty. intros t. destruct (timers (browser w) !! t) eqn:Ht; [|reflexivity].
      specialize (Htracked t (ex_intro _ _ Ht)). discriminate. }
    rewrite Hempty, map_size_empty. lia.
Qed.

Lemma timerOp_tracked (op : TimerOp) (w : World) :
  (forall t : positive,
      is_Some (timers (browser w) !! t) -> frameIntervalRef (refs w) = Some t) ->
  forall t : positive,
    is_Some (timers (browser (after (timerOp op) w)) !! t) ->
    frameIntervalRef (refs (after (timerOp op) w)) = Some t.
Proof.
  intros Hinv. unfold after.
  destruct op; eff_cases.
  all: try exact Hinv.
  all: intros t [x Hx].
  all: repeat (apply lookup_insert_Some in Hx as [[<- _]|[_ Hx]]; [reflexivity|]).
  all: try (apply lookup_delete_Some in Hx as [Hne Hx]).
  all: pose proof (Hinv t (ex_intro _ x Hx)) as Ht; congruence.
Qed.

Lemma timerOps_cons (op : TimerOp) (ops : list TimerOp) (w : World) :
  after (timerOps (op :: ops)) w = after (timerOps ops) (after (timerOp op) w).
Proof.
  unfold after. cbn [timerOps]. unfold bind.
  destruct (timerOp op w) as [[u w1] e1]. cbn [fst snd].
  destruct (timerOps ops w1) as [[u' w2] e2]. reflexivity.
Qed.

Lemma timerOps_tracked (ops : list TimerOp) :
  forall w : World,
    (forall t : positive,
        is_Some (timers (browser w) !! t) -> frameIntervalRef (refs w) = Some t) ->
    forall t : positive,
      is_Some (timers (browser (after (timerOps ops) w)) !! t) ->
      frameIntervalRef (refs (after (timerOps ops) w)) = Some t.
Proof.
  induction ops as [|op ops IH]; intros w Hw.
  - exact Hw.
  - rewrite timerOps_cons. apply IH, timerOp_tracked, Hw.
Qed.

(** C10.  At most one frame timer is live at any time.
    [startVideoStreaming] on a world whose [frameIntervalRef] holds a timer
    clears that timer before it sets the new 200 ms one, and the ref holds
    the new one afterwards; [stopEverything] clears the timer the ref
    holds, removes it from the live timers and sets the ref to [null].  So
    after every sequence of the two operations, and after every run of the
    whole application, the number of live frame timers is 0 or 1. *)
Theorem at_most_one_frame_timer :
  (forall (w : World) (old sessionPromise : positive),
      let w0 := withRefs (putFrameInterval (Some old)) w in
      effectsOf (startVideoStreaming sessionPromise) w0 =
        [ClearInterval old; SetInterval (counter (browser w)) 200] /\
      frameIntervalRef (refs (after (startVideoStreaming sessionPromise) w0)) =
        Some (counter (browser w)) /\
      timers (browser (after (startVideoStreaming sessionPromise) w0)) =
        <[counter (browser w) := sessionPromise]> (delete old (timers (browser w)))) /\
  (forall (w : World) (old : positive) (captured : option positive),
      let w0 := withRefs (putFrameInterval (Some old)) w in
      (ClearInterval old ∈ effectsOf (stopEverything captured) w0) /\
      frameIntervalRef (refs (after (stopEverything captured) w0)) = None /\
      timers (browser (after (stopEverything captured) w0)) =
        delete old (timers (browser w))) /\
  (forall ops : list TimerOp,
      liveTimers (after (timerOps ops) initialWorld) = 0%nat \/
      liveTimers (after (timerOps ops) initialWorld) = 1%nat) /\
  (forall (decode : string -> option AudioBuffer) (events : list Event),
      liveTimers (after (run decode events) initialWorld) = 0%nat \/
      liveTimers (after (run decode events) initialWorld) = 1%nat).
Proof.
  split; [|split; [|split]].
  - intros w old sessionPromise. cbv zeta. unfold after, effectsOf.
    eff_cases. repeat split.
  - intros w old captured. cbv zeta. unfold after, effectsOf.
    destruct captured; eff_cases; (split; [set_solver|split; reflexivity]).
  - intros ops.
    assert (liveTimers (after (timerOps ops) initialWorld) <= 1)%nat; [|lia].
    apply tracked_at_most_one, timerOps_tracked, initial_consistent.
  - intros decode events.
    assert (liveTimers (after (run decode events) initialWorld) <= 1)%nat; [|lia].
    apply tracked_at_most_one.
    apply (timer_tracked _ (run_consistent decode events _ initial_consistent)).
Qed.

(** ** Inbound messages *)

Lemma setAdd_keeps (x y : positive) (l : list positive) : x ∈ l -> x ∈ setAdd y l.
Proof. unfold setAdd. destruct (decide (y ∈ l)); set_solver. Qed.

(** C3.  In every world the application can be in, when a message of a
    session carries [interrupted], [stop()] is called on every node of the
    active set (whatever the set holds, the empty set included), the
    active set is empty afterwards and [nextStartTime] is 0. *)
Theorem interruption_stops_and_resets
    (decode : string -> option AudioBuffer) (w : World) (p : positive)
    (msg : LiveServerMessage) (now : Q) (clk : Transcript.Clock) :
  reachable decode w ->
  is_Some (sessions (browser w) !! p) ->
  interrupted msg = Some true ->
  let received := dispatch decode (SessionMessage p msg now clk) in
  (forall node : positive,
      node ∈ sourcesRef (refs w) -> NodeStop node ∈ effectsOf received w) /\
  sourcesRef (refs (after received w)) = [] /\
  nextStartTimeRef (refs (after received w)) = 0%Q.
Proof.
  intros Hreach [s Hs] Hint. cbv zeta.
  pose proof (reachable_consistent decode w Hreach) as Hw.
  destruct (context_ready w Hw) as [ctx Hctx]; [left; exists p; eexists; exact Hs|].
  unfold effectsOf, after, dispatch, ofSession, onmessage, playAudio, setMessages.
  cbn. rewrite Hs. cbn.
  destruct (truthy (outputTranscription msg)) as [delta|];
    destruct (truthy (inlineData msg)) as [base64Audio|]; cbn;
    rewrite ?Hctx; cbn;
    try (destruct (decode base64Audio) as [audioBuffer|]; cbn;
         [unfold schedule, when_; cbn;
          destruct (driftTooLarge (nextStartTimeRef (refs w)) now); cbn|]);
    rewrite (handleInterruption_stops msg _ Hint); cbn;
    (split; [|split; reflexivity]);
    intros node Hnode; rewrite ?app_nil_r;
    repeat (apply elem_of_cons; right);
    apply list_elem_of_fmap; exists node; (split; [reflexivity|]);
    try apply setAdd_keeps; exact Hnode.
Qed.

(** Three units are playing when the interruption arrives: all three are
    stopped. *)
Lemma interruption_stops_and_resets_witness :
  let w := after (run sampleDecode playingRun) initialWorld in
  let received := dispatch sampleDecode (SessionMessage 2 interruption 0%Q silentClock) in
  sourcesRef (refs w) = [4; 5; 6]%positive /\
  effectsOf received w = [NodeStop 4; NodeStop 5; NodeStop 6] /\
  ((forall node : positive,
       node ∈ sourcesRef (refs w) -> NodeStop node ∈ effectsOf received w) /\
   sourcesRef (refs (after received w)) = [] /\
   nextStartTimeRef (refs (after received w)) = 0%Q).
Proof.
  cbv zeta. split; [vm_compute; reflexivity|]. split; [vm_compute; reflexivity|].
  apply (interruption_stops_and_resets sampleDecode
           (after (run sampleDecode playingRun) initialWorld) 2 interruption 0%Q silentClock).
  - exists playingRun. reflexivity.
  - eexists. vm_compute. reflexivity.
  - reflexivity.
Defined.

(** C8.  In every world the application can be in, a message of a session
    whose audio payload fails to decode leaves the world exactly as the
    same message without the payload would: the session status, the
    transcript, [nextStartTime] and the active set are what they would be
    had the unit never arrived, so every later unit is scheduled the same.
    The only trace is one line on the error console.  A message that
    carries nothing but the failed payload leaves the world unchanged. *)
Theorem decode_failure_drops_only_that_unit
    (decode : string -> option AudioBuffer) (w : World) (p : positive)
    (msg : LiveServerMessage) (now : Q) (clk : Transcript.Clock)
    (base64Audio : string) :
  reachable decode w ->
  is_Some (sessions (browser w) !! p) ->
  truthy (inlineData msg) = Some base64Audio ->
  decode base64Audio = None ->
  let received := dispatch decode (SessionMessage p msg now clk) in
  let without := dispatch decode (SessionMessage p (withoutAudio msg) now clk) in
  after received w = after without w /\
  effectsOf received w = ConsoleError "Audio decoding error:" :: effectsOf without w /\
  status (react (after received w)) = status (react w) /\
  (truthy (outputTranscription msg) = None ->
   interrupted msg <> Some true ->
   after received w = w).
Proof.
  intros Hreach [s Hs] Haudio Hdecode. cbv zeta.
  pose proof (reachable_consistent decode w Hreach) as Hw.
  destruct (context_ready w Hw) as [ctx Hctx]; [left; exists p; eexists; exact Hs|].
  unfold effectsOf, after, dispatch, ofSession, onmessage, playAudio, setMessages, withoutAudio.
  cbn. rewrite Hs. cbn. rewrite Haudio. cbn.
  destruct (truthy (outputTranscription msg)) as [delta|]; cbn;
    rewrite ?Hctx; cbn; rewrite Hdecode; cbn.
  all: unfold handleInterruption; cbn.
  all: destruct (interrupted msg) as [[|]|] eqn:Hint; eff_step.
  all: repeat split; intros; congruence.
Qed.

(** Three units are playing when a corrupt payload arrives with a delta. *)
Lemma decode_failure_drops_only_that_unit_witness :
  let w := after (run sampleDecode playingRun) initialWorld in
  let msg := {| outputTranscription := Some "Hello";
                inlineData := Some "corrupt"; interrupted := None |} in
  let received := dispatch sampleDecode (SessionMessage 2 msg 0%Q silentClock) in
  let without := dispatch sampleDecode (SessionMessage 2 (withoutAudio msg) 0%Q silentClock) in
  refs (after received w) = refs w /\
  (after received w = after without w /\
   effectsOf received w = ConsoleError "Audio decoding error:" :: effectsOf without w /\
   status (react (after received w)) = status (react w) /\
   (truthy (outputTranscription msg) = None ->
    interrupted msg <> Some true ->
    after received w = w)).
Proof.
  cbv zeta. split; [vm_compute; reflexivity|].
  apply (decode_failure_drops_only_that_unit sampleDecode
           (after (run sampleDecode playingRun) initialWorld) 2
           {| outputTranscription := Some "Hello";
              inlineData := Some "corrupt"; interrupted := None |}
           0%Q silentClock "corrupt").
  - exists playingRun. reflexivity.
  - eexists. vm_compute. reflexivity.
  - reflexivity.
  - reflexivity.
Defined.

(** ** SessionController *)

(** What [stop()] does, from every world.  Afterwards the status is
    Disconnected; the frame timer the ref held is cleared, no longer live,
    and the ref is [null]; the tracks of the media stream the state holds
    are stopped and the stream state is [null]; [stop()] was called on
    every node of the active set and the set is empty; the session
    reference is [null].  Running it again changes nothing and has no
    effect at all. *)
Theorem stop_tears_down_and_is_idempotent (w : World) :
  let w' := after stop w in
  status (react w') = DISCONNECTED /\
  (forall t : positive,
      frameIntervalRef (refs w) = Some t ->
      (ClearInterval t ∈ effectsOf stop w) /\ timers (browser w') !! t = None) /\
  frameIntervalRef (refs w') = None /\
  (forall stream : positive,
      mediaStream (react w) = Some stream -> TrackStop stream ∈ effectsOf stop w) /\
  mediaStream (react w') = None /\
  (forall node : positive,
      node ∈ sourcesRef (refs w) -> NodeStop node ∈ effectsOf stop w) /\
  sourcesRef (refs w') = [] /\
  sessionPromiseRef (refs w') = None /\
  stop w' = (tt, w', []).
Proof.
  cbv zeta. unfold after, effectsOf.
  unfold_handlers. cbn.
  destruct (frameIntervalRef (refs w)) as [t|] eqn:Href;
    destruct (mediaStream (react w)) as [stream|] eqn:Hstream;
    eff_step; rewrite ?Href, ?Hstream; eff_step.
  all: repeat split; try discriminate.
  all: repeat match goal with H : Some _ = Some _ |- _ => injection H as <- end.
  all: try apply lookup_delete_eq.
  all: intros; simplify_eq; in_log.
Qed.

(** Three units are playing, the timer runs and the stream is held. *)
Lemma stop_tears_down_and_is_idempotent_witness :
  let w := after (run sampleDecode playingRun) initialWorld in
  effectsOf stop w =
    [ClearInterval 3; NodeStop 4; NodeStop 5; NodeStop 6; TrackStop 7] /\
  (ClearInterval 3 ∈ effectsOf stop w) /\
  (TrackStop 7 ∈ effectsOf stop w) /\
  (NodeStop 5 ∈ effectsOf stop w) /\
  stop (after stop w) = (tt, after stop w, []).
Proof.
  cbv zeta. split; [vm_compute; reflexivity|].
  destruct (stop_tears_down_and_is_idempotent
              (after (run sampleDecode playingRun) initialWorld))
    as (_ & Htimer & _ & Htracks & _ & Hnodes & _ & _ & Hagain).
  split; [apply (Htimer 3%positive); vm_compute; reflexivity|].
  split; [apply (Htracks 7%positive); vm_compute; reflexivity|].
  split; [|exact Hagain].
  apply Hnodes. vm_compute. apply list_elem_of_further, list_elem_of_here.
Defined.

(** C7.  [stop()] does not tear down every device track.  It stops the
    tracks of the one stream the React state holds (lines 251-254), and a
    microphone stream of an earlier connection that a later
    [setMediaStream] replaced is out of its reach.  On [restartedRun] the
    state holds stream 8 and stream 7 is live: [stop()] clears the timer
    and stops stream 8 only, no event of the whole run ever stops
    stream 7, and the processor of the first connection still forwards
    its blocks afterwards, in the Disconnected state.  The same happens on
    [regrantedRun], without any error. *)
Theorem stop_leaves_earlier_stream_live :
  let w := after (run sampleDecode restartedRun) initialWorld in
  let v := after (run sampleDecode regrantedRun) initialWorld in
  mediaStream (react w) = Some 8%positive /\
  effectsOf stop w = [ClearInterval 6; TrackStop 8] /\
  effectsOf (run sampleDecode (restartedRun ++ [ClickToggle])) initialWorld =
    [GetUserMedia 1; SetInterval 3 200; ConsoleLog "Gemini Connected";
     ConsoleError "Gemini Error"; ClearInterval 3; GetUserMedia 4;
     SetInterval 6 200; ClearInterval 6; TrackStop 8] /\
  status (react (after stop w)) = DISCONNECTED /\
  mediaStream (react (after stop w)) = None /\
  audioForwarded sampleDecode 0 "pcm" (after stop w) /\
  mediaStream (react v) = Some 8%positive /\
  effectsOf (run sampleDecode (regrantedRun ++ [ClickToggle])) initialWorld =
    [GetUserMedia 1; GetUserMedia 2; SetInterval 4 200; ClearInterval 4;
     SetInterval 6 200; ClearInterval 6; TrackStop 8] /\
  audioForwarded sampleDecode 0 "pcm" (after stop v).
Proof.
  cbv zeta. repeat (split; [vm_compute; reflexivity|]). split; [|split; [|split]].
  - exists 7%positive, 2%positive. split; vm_compute; reflexivity.
  - vm_compute. reflexivity.
  - vm_compute. reflexivity.
  - exists 7%positive, 3%positive. split; vm_compute; reflexivity.
Qed.

(** ** OutboundDispatcher *)

Lemma pipeline_chain (item : Outbound) (s : Session) :
  (resolved s = true -> queued s = []) ->
  sentLog (chain item s) ++ queued (chain item s) = (sentLog s ++ queued s) ++ [item].
Proof.
  intros Hflushed. unfold chain. destruct (resolved s); cbn.
  - rewrite (Hflushed eq_refl). now rewrite !app_nil_r.
  - now rewrite app_assoc.
Qed.

(** The session promises after an event: only the settling of an encode,
    the probe, the fulfilment of a promise and the creation of a session
    touch them. *)
Lemma dispatch_sessions decode (ev : Event) (w : World) :
  sessions (browser (after (dispatch decode ev) w)) =
    match ev with
    | EncodeDone e =>
        match encoding (browser w) !! e with
        | Some (target, payload) => alter (chain (e, payload)) target (sessions (browser w))
        | None => sessions (browser w)
        end
    | ClickTestConnection =>
        if probeOffered w then
          match sessionPromiseRef (refs w) with
          | Some target =>
              alter (chain (counter (browser w), Content "user" PROBE_TEXT)) target
                (sessions (browser w))
          | None => sessions (browser w)
          end
        else sessions (browser w)
    | SessionResolved target => alter fulfil target (sessions (browser w))
    | UserMediaGranted k stream =>
        match connecting (browser w) !! k with
        | Some captured =>
            <[counter (browser w) :=
                {| resolved := false; queued := []; sentLog := [];
                   errorStream := capturedStream captured |}]> (sessions (browser w))
        | None => sessions (browser w)
        end
    | _ => sessions (browser w)
    end.
Proof.
  unfold after. destruct ev; eff_cases; reflexivity.
Qed.

Lemma pipeline_alter_chain (p target : positive) (item : Outbound) (w : World)
    (known : gmap positive Session) :
  known = sessions (browser w) ->
  consistent w ->
  is_Some (known !! target) ->
  match alter (chain item) target known !! p with
  | Some s => sentLog s ++ queued s
  | None => []
  end =
  pipeline p w ++ (if decide (target = p) then [item] else []).
Proof.
  intros -> Hw [s Hs]. unfold pipeline.
  destruct (decide (target = p)) as [->|Hne].
  - rewrite lookup_alter_eq, Hs. cbn.
    apply pipeline_chain. exact (queue_flushed w Hw p s Hs).
  - rewrite lookup_alter_ne by exact Hne. now rewrite app_nil_r.
Qed.

Lemma dispatch_pipeline decode (p : positive) (ev : Event) (w : World) :
  consistent w ->
  pipeline p (after (dispatch decode ev) w) = pipeline p w ++ chainedOn p ev w.
Proof.
  intros Hw. unfold pipeline at 1. rewrite dispatch_sessions.
  destruct ev; cbn [chainedOn]; try (unfold pipeline; now rewrite app_nil_r).
  - (* the probe *)
    destruct (probeOffered w); [|unfold pipeline; now rewrite app_nil_r].
    destruct (sessionPromiseRef (refs w)) as [target|] eqn:Href;
      [|unfold pipeline; now rewrite app_nil_r].
    apply pipeline_alter_chain; [reflexivity|exact Hw|].
    exact (promise_known w Hw target Href).
  - (* a session is created *)
    destruct (connecting (browser w) !! k) as [captured|];
      [|unfold pipeline; now rewrite app_nil_r].
    unfold pipeline. rewrite app_nil_r.
    destruct (decide (counter (browser w) = p)) as [<-|Hne].
    + rewrite lookup_insert_eq. cbn.
      destruct (sessions (browser w) !! counter (browser w)) as [s|] eqn:Hs; [|reflexivity].
      pose proof (sessions_fresh w Hw _ (ex_intro _ s Hs)). lia.
    + now rewrite lookup_insert_ne by exact Hne.
  - (* the promise is fulfilled *)
    unfold pipeline. rewrite app_nil_r.
    destruct (decide (sessionPromise = p)) as [->|Hne].
    + rewrite lookup_alter_eq. destruct (sessions (browser w) !! p) as [s|]; cbn;
        [now rewrite app_nil_r|reflexivity].
    + now rewrite lookup_alter_ne by exact Hne.
  - (* an encode settles *)
    destruct (encoding (browser w) !! e) as [[target payload]|] eqn:He;
      [|unfold pipeline; now rewrite app_nil_r].
    apply pipeline_alter_chain; [reflexivity|exact Hw|].
    exact (encoding_known w Hw e target payload He).
Qed.

Lemma run_pipeline decode (p : positive) (events : list Event) :
  forall w : World,
    consistent w ->
    pipeline p (after (run decode events) w) = pipeline p w ++ completions decode p events w.
Proof.
  induction events as [|ev events IH]; intros w Hw.
  - cbn. now rewrite app_nil_r.
  - rewrite run_cons, IH by (apply dispatch_consistent, Hw).
    rewrite dispatch_pipeline by exact Hw. cbn [completions]. now rewrite app_assoc.
Qed.

(** C5, as the code has it.  What the remote channel receives on a session
    promise is, item for item and in order, what was chained on the
    promise: each chunk when its encode settled (and each probe when it was
    clicked).  So of two chunks whose encodes both settled, the one whose
    encode settled first is delivered first; the sends already made are a
    prefix of that sequence. *)
Theorem delivery_follows_encode_completion
    (decode : string -> option AudioBuffer) (events : list Event) (p : positive) :
  let w := after (run decode events) initialWorld in
  pipeline p w = completions decode p events initialWorld /\
  exists waiting : list Outbound,
    completions decode p events initialWorld = delivered p w ++ waiting.
Proof.
  cbv zeta.
  pose proof (run_pipeline decode p events initialWorld initial_consistent) as Hrun.
  change (pipeline p initialWorld) with (@nil Outbound) in Hrun. cbn [app] in Hrun.
  split; [exact Hrun|].
  rewrite <- Hrun. unfold pipeline, delivered.
  destruct (sessions (browser (after (run decode events) initialWorld)) !! p) as [s|].
  - exists (queued s). reflexivity.
  - exists []. reflexivity.
Qed.

(** C5, as stated, fails on [overtakingRun]: the block captured second is
    encoded first and reaches the channel first. *)
Lemma second_chunk_overtakes_first :
  delivered 2 (after (run sampleDecode overtakingRun) initialWorld) =
    [ (5%positive, Media "audio/pcm;rate=16000" "second");
      (4%positive, Media "audio/pcm;rate=16000" "first") ] /\
  ~ deliveredInProductionOrder sampleDecode.
Proof.
  assert (Hsent : delivered 2 (after (run sampleDecode overtakingRun) initialWorld) =
    [ (5%positive, Media "audio/pcm;rate=16000" "second");
      (4%positive, Media "audio/pcm;rate=16000" "first") ]) by (vm_compute; reflexivity).
  split; [exact Hsent|].
  intros Hordered.
  specialize (Hordered overtakingRun 2%positive "audio/pcm;rate=16000").
  rewrite Hsent in Hordered. cbn in Hordered.
  inversion Hordered as [|? ? _ Hhead]. inversion Hhead as [|? ? Hlt _]. lia.
Qed.

(** ** CapturePipeline *)




(** The microphone button does not reach a processor that is already
    installed: after the user mutes, [isMicOn] is [false] and the
    processor, which holds the [isMicOn] of the render that connected,
    still forwards its blocks. *)
Lemma mute_does_not_reach_installed_processor :
  let w := after (run sampleDecode mutedRun) initialWorld in
  isMicOn (react w) = false /\
  status (react w) = CONNECTED /\
  processors (browser w) = [(true, 2%positive)] /\
  audioForwarded sampleDecode 0 "pcm" w /\
  delivered 2 (after (run sampleDecode (mutedRun ++ [AudioBlock 0 "pcm"; EncodeDone 4]))
                 initialWorld) =
    [(4%positive, Media "audio/pcm;rate=16000" "pcm")].
Proof.
  cbv zeta. repeat (split; [vm_compute; reflexivity|]). split.
  - exists 4%positive, 2%positive. split; vm_compute; reflexivity.
  - vm_compute. reflexivity.
Qed.

(** Nor does [stop()]: the processor stays installed and the session open,
    so a block captured after the user stopped is encoded and sent while
    the state is Disconnected. *)
Lemma audio_keeps_flowing_after_stop :
  let w := after (run sampleDecode stoppedRun) initialWorld in
  status (react w) = DISCONNECTED /\
  sessionPromiseRef (refs w) = None /\
  delivered 2 w = [(4%positive, Media "audio/pcm;rate=16000" "pcm")].
Proof. cbv zeta. repeat split; vm_compute; reflexivity. Qed.

(** ** The diagnostic probe *)

(** C9, as the code has it.  The probe is offered exactly when the status
    is Connected, and a click where it is not offered does nothing.
    Invoked, it leaves the React state (the status with it) and every ref
    unchanged.  When the session reference holds a promise, the text
    message is chained on that promise: sent at once if the promise has
    resolved, queued behind the waiting sends if not.  When the session
    reference is [null] it does nothing. *)
Theorem probe_chains_on_the_referenced_session (w : World) :
  (probeOffered w = true <-> status (react w) = CONNECTED) /\
  (forall decode : string -> option AudioBuffer,
      probeOffered w = false -> dispatch decode ClickTestConnection w = (tt, w, [])) /\
  react (after handleTestConnection w) = react w /\
  refs (after handleTestConnection w) = refs w /\
  effectsOf handleTestConnection w = [] /\
  (sessionPromiseRef (refs w) = None -> handleTestConnection w = (tt, w, [])) /\
  (forall (p : positive) (s : Session),
      sessionPromiseRef (refs w) = Some p ->
      sessions (browser w) !! p = Some s ->
      let item := (counter (browser w), Content "user" PROBE_TEXT) in
      sessions (browser (after handleTestConnection w)) !! p =
        Some (if resolved s
              then {| resolved := true; queued := queued s;
                      sentLog := sentLog s ++ [item]; errorStream := errorStream s |}
              else {| resolved := false; queued := queued s ++ [item];
                      sentLog := sentLog s; errorStream := errorStream s |})).
Proof.
  unfold after, effectsOf. split; [apply bool_decide_eq_true|].
  split.
  { intros decode Hoff. unfold dispatch. cbn. now rewrite Hoff. }
  unfold handleTestConnection, thenSend. cbn.
  destruct (sessionPromiseRef (refs w)) as [target|]; cbn; repeat split; try discriminate.
  intros p s [= ->] Hs. rewrite lookup_alter_eq, Hs. reflexivity.
Qed.

Lemma probe_chains_on_the_referenced_session_witness :
  let w := after (run sampleDecode connectedRun) initialWorld in
  delivered 2 (after handleTestConnection w) = [(4%positive, Content "user" PROBE_TEXT)] /\
  sessions (browser (after handleTestConnection w)) !! 2%positive =
    Some {| resolved := true; queued := [];
            sentLog := [(4%positive, Content "user" PROBE_TEXT)]; errorStream := None |}.
Proof.
  cbv zeta. split; [vm_compute; reflexivity|].
  destruct (probe_chains_on_the_referenced_session
              (after (run sampleDecode connectedRun) initialWorld))
    as (_ & _ & _ & _ & _ & _ & Hchained).
  apply (Hchained 2%positive
           {| resolved := true; queued := []; sentLog := []; errorStream := None |});
    vm_compute; reflexivity.
Defined.

Lemma idle_probe_refutes_claim (decode : string -> option AudioBuffer)
    (events : list Event) (w : World) :
  w = after (run decode events) initialWorld ->
  probeOffered w = true ->
  handleTestConnection w = (tt, w, []) ->
  ~ probeAlwaysInjects decode.
Proof.
  intros -> Hoffered Hnothing Hclaim.
  destruct (Hclaim events Hoffered) as (p & item & Hpipe).
  unfold after at 1 in Hpipe. rewrite Hnothing in Hpipe. cbn [fst snd] in Hpipe.
  apply (f_equal length) in Hpipe. rewrite length_app in Hpipe.
  cbn [length] in Hpipe. lia.
Qed.

(** C9, as stated, fails on [stoppedThenOpenedRun]: the user stopped while
    Connecting, which set the session reference to [null]; the session,
    which nothing closed, opened afterwards and set the status to
    Connected.  The probe is offered and does nothing. *)
Lemma probe_offered_without_session :
  let w := after (run sampleDecode stoppedThenOpenedRun) initialWorld in
  status (react w) = CONNECTED /\
  sessionPromiseRef (refs w) = None /\
  handleTestConnection w = (tt, w, []) /\
  ~ probeAlwaysInjects sampleDecode.
Proof.
  cbv zeta.
  split; [vm_compute; reflexivity|]. split; [vm_compute; reflexivity|].
  split; [vm_compute; reflexivity|].
  apply (idle_probe_refutes_claim sampleDecode stoppedThenOpenedRun _ eq_refl);
    vm_compute; reflexivity.
Qed.

(** * Further properties of the code *)

(** ** The scheduler *)

Lemma Qltb_false (x y : Q) : Qltb x y = false <-> (y <= x)%Q.
Proof. unfold Qltb, Qle. apply Z.ltb_ge. Qed.

Lemma startFor_window (nextStartTime now : Q) :
  isDouble now ->
  (now <= startFor nextStartTime now <= fadd now (1 # 2))%Q.
Proof.
  intros Hnow. pose proof (fadd_ge now (1 # 2) Hnow ltac:(lra)) as Hsum.
  unfold startFor, driftTooLarge, MAX_LOOKAHEAD.
  destruct (Qltb nextStartTime now) eqn:Hbehind; cbn [orb].
  - lra.
  - destruct (Qltb (fadd now (1 # 2)) nextStartTime) eqn:Hahead.
    + lra.
    + apply Qltb_false in Hbehind, Hahead. lra.
Qed.

(** X1.  Whatever the schedule is when a unit arrives, the unit is started
    no earlier than the clock reading and no later than the [now + 0.5]
    that line 124 computes, the double nearest to half a second after
    the clock reading; the one [start()] call is for that unit at that
    instant. *)
Theorem scheduled_start_within_half_second
    (now : Q) (audioBuffer : AudioBuffer) (w : World) :
  isDouble now ->
  let unit := fst (fst (schedule now audioBuffer w)) in
  (now <= scheduledStart unit <= fadd now (1 # 2))%Q /\
  effectsOf (schedule now audioBuffer) w =
    [NodeStart (handle unit) (scheduledStart unit)].
Proof.
  intros Hnow. cbv zeta. destruct (schedule_result now audioBuffer w) as (w' & Hrun & _).
  unfold effectsOf. rewrite Hrun. cbn [fst snd scheduledStart handle].
  split; [apply startFor_window, Hnow|reflexivity].
Qed.

(** The schedule stands at 0.8 when a unit arrives at clock 0.3: the unit
    starts at 0.8, which is the double [0.3 + 0.5]. *)
Lemma scheduled_start_within_half_second_witness :
  let w := withRefs (putNextStartTime (round (4 # 5))) initialWorld in
  let unit := fst (fst (schedule (round (3 # 10)) {| duration := 1 # 4 |} w)) in
  isDouble (round (3 # 10)) /\
  scheduledStart unit = round (4 # 5) /\
  (round (3 # 10) <= scheduledStart unit <= fadd (round (3 # 10)) (1 # 2))%Q.
Proof.
  cbv zeta. split; [apply isDouble_round|]. split; [vm_compute; reflexivity|].
  exact (proj1 (scheduled_start_within_half_second (round (3 # 10)) {| duration := 1 # 4 |}
                  (withRefs (putNextStartTime (round (4 # 5))) initialWorld)
                  (isDouble_round (3 # 10)))).
Defined.

(** X2.  Playback is gapless while the schedule keeps up: when a second
    unit arrives with the schedule neither behind the clock nor more than
    the rounded [now + 0.5] ahead of it, it starts exactly at the end the
    program computed for the first one (the rounded sum of its start and
    its duration), and the schedule moves on by the second duration. *)
Theorem consecutive_units_are_gapless
    (now1 now2 : Q) (first second : AudioBuffer) (w : World) :
  let w1 := after (schedule now1 first) w in
  let unit1 := fst (fst (schedule now1 first w)) in
  let unit2 := fst (fst (schedule now2 second w1)) in
  (now2 <= scheduledEnd unit1)%Q ->
  (scheduledEnd unit1 <= fadd now2 (1 # 2))%Q ->
  scheduledStart unit2 = scheduledEnd unit1 /\
  nextStartTimeRef (refs (after (schedule now2 second) w1)) =
    fadd (scheduledEnd unit1) (duration second).
Proof.
  cbv zeta. intros Hnotbehind Hnotahead.
  destruct (schedule_result now1 first w) as (w1 & Hrun1 & Hnext1 & _).
  unfold after. rewrite Hrun1 in *. cbn [fst snd] in *.
  destruct (schedule_result now2 second w1) as (w2 & Hrun2 & Hnext2 & _).
  rewrite Hrun2. cbn [fst snd scheduledStart].
  unfold scheduledEnd in *. cbn [scheduledStart unitDuration] in *.
  assert (Hkeep : startFor (nextStartTimeRef (refs w1)) now2 = nextStartTimeRef (refs w1)).
  { apply startFor_keep. rewrite Hnext1. lra. }
  rewrite Hnext2, Hkeep, Hnext1. split; reflexivity.
Qed.

(** Units of 0.2 and 0.3 seconds arrive at clock 0.1: the second starts at
    0.30000000000000004, the sum of the doubles 0.1 and 0.2. *)
Lemma consecutive_units_are_gapless_witness :
  let first := {| duration := round (1 # 5) |} in
  let second := {| duration := round (3 # 10) |} in
  let w1 := after (schedule (round (1 # 10)) first) initialWorld in
  scheduledStart (fst (fst (schedule (round (1 # 10)) second w1))) =
    scheduledEnd (fst (fst (schedule (round (1 # 10)) first initialWorld))) /\
  scheduledEnd (fst (fst (schedule (round (1 # 10)) first initialWorld))) =
    fadd (round (1 # 10)) (round (1 # 5)).
Proof.
  cbv zeta. split; [|vm_compute; reflexivity].
  refine (proj1 (consecutive_units_are_gapless (round (1 # 10)) (round (1 # 10))
                   {| duration := round (1 # 5) |} {| duration := round (3 # 10) |}
                   initialWorld _ _)).
  - vm_compute. discriminate.
  - vm_compute. discriminate.
Defined.

Lemma dispatch_message_known decode (p : positive) (s : Session)
    (msg : LiveServerMessage) (now : Q) (clk : Transcript.Clock) (w : World) :
  sessions (browser w) !! p = Some s ->
  dispatch decode (SessionMessage p msg now clk) w = onmessage decode msg now clk w.
Proof.
  intros Hs. unfold dispatch, ofSession. cbn. rewrite Hs.
  destruct (onmessage decode msg now clk w) as [[u w'] effects]. reflexivity.
Qed.

(** A message whose audio decodes starts its node first, at the start the
    scheduler computes from the world the message finds. *)
Lemma onmessage_starts_node decode (msg : LiveServerMessage) (now : Q)
    (clk : Transcript.Clock) (w : World) (base64Audio : string)
    (audioBuffer : AudioBuffer) :
  is_Some (audioContextRef (refs w)) ->
  truthy (inlineData msg) = Some base64Audio ->
  decode base64Audio = Some audioBuffer ->
  exists rest : list Effect,
    effectsOf (onmessage decode msg now clk) w =
      NodeStart (counter (browser w)) (startFor (nextStartTimeRef (refs w)) now) :: rest.
Proof.
  intros [ctx Hctx] Haudio Hdecode.
  unfold effectsOf, onmessage, playAudio, setMessages, startFor.
  rewrite Haudio, Hdecode.
  destruct (truthy (outputTranscription msg)); unfold schedule, when_; cbn;
    rewrite Hctx; cbn;
    destruct (driftTooLarge (nextStartTimeRef (refs w)) now); cbn;
    match goal with
    | |- context [handleInterruption msg ?w1] =>
        destruct (handleInterruption msg w1) as [[u w'] effects]
    end; cbn; eexists; reflexivity.
Qed.

(** A message that carries an interruption leaves the schedule at 0. *)
Lemma onmessage_interrupted_resets decode (msg : LiveServerMessage) (now : Q)
    (clk : Transcript.Clock) (w : World) :
  is_Some (audioContextRef (refs w)) ->
  interrupted msg = Some true ->
  nextStartTimeRef (refs (after (onmessage decode msg now clk) w)) = 0%Q.
Proof.
  intros [ctx Hctx] Hint.
  unfold after, onmessage, playAudio, setMessages. cbn.
  destruct (truthy (outputTranscription msg)) as [delta|];
    destruct (truthy (inlineData msg)) as [base64Audio|]; cbn;
    rewrite ?Hctx; cbn;
    try (destruct (decode base64Audio) as [audioBuffer|]; cbn;
         [unfold schedule, when_; cbn;
          destruct (driftTooLarge (nextStartTimeRef (refs w)) now); cbn|]);
    rewrite (handleInterruption_stops msg _ Hint); reflexivity.
Qed.

Lemma startFor_from_zero (now : Q) : (0 <= now)%Q -> (startFor 0 now == now)%Q.
Proof.
  intros Hnow. unfold startFor, driftTooLarge.
  destruct (Qltb 0 now) eqn:Hbehind; cbn [orb]; [reflexivity|].
  apply Qltb_false in Hbehind.
  destruct (Qltb (fadd now MAX_LOOKAHEAD) 0); [reflexivity|lra].
Qed.

(** X3.  Barge-in leaves no artificial delay: in every world the
    application can be in, the first unit that decodes after a message with
    an interruption starts at the clock reading of its own arrival. *)
Theorem unit_after_interruption_starts_at_clock
    (decode : string -> option AudioBuffer) (w : World) (p : positive)
    (barge : LiveServerMessage) (now1 : Q) (clk1 : Transcript.Clock)
    (msg : LiveServerMessage) (now2 : Q) (clk2 : Transcript.Clock)
    (base64Audio : string) (audioBuffer : AudioBuffer) :
  reachable decode w ->
  is_Some (sessions (browser w) !! p) ->
  interrupted barge = Some true ->
  truthy (inlineData msg) = Some base64Audio ->
  decode base64Audio = Some audioBuffer ->
  (0 <= now2)%Q ->
  let w1 := after (dispatch decode (SessionMessage p barge now1 clk1)) w in
  exists (node : positive) (start : Q) (rest : list Effect),
    effectsOf (dispatch decode (SessionMessage p msg now2 clk2)) w1 =
      NodeStart node start :: rest /\
    (start == now2)%Q.
Proof.
  intros Hreach [s Hs] Hint Haudio Hdecode Hnow. cbv zeta.
  pose proof (reachable_consistent decode w Hreach) as Hw.
  assert (Hctx : is_Some (audioContextRef (refs w))).
  { apply (context_ready w Hw). left. exists p. eexists. exact Hs. }
  pose proof (dispatch_consistent decode (SessionMessage p barge now1 clk1) w Hw) as Hw1.
  assert (Hs1 : sessions (browser (after (dispatch decode (SessionMessage p barge now1 clk1)) w))
                !! p = Some s).
  { rewrite dispatch_sessions. exact Hs. }
  assert (Hctx1 : is_Some (audioContextRef
            (refs (after (dispatch decode (SessionMessage p barge now1 clk1)) w)))).
  { apply (context_ready _ Hw1). left. exists p. eexists. exact Hs1. }
  assert (Hzero : nextStartTimeRef
            (refs (after (dispatch decode (SessionMessage p barge now1 clk1)) w)) = 0%Q).
  { unfold after. rewrite (dispatch_message_known decode p s barge now1 clk1 w Hs).
    exact (onmessage_interrupted_resets decode barge now1 clk1 w Hctx Hint). }
  unfold effectsOf. rewrite (dispatch_message_known decode p s msg now2 clk2 _ Hs1).
  destruct (onmessage_starts_node decode msg now2 clk2 _ base64Audio audioBuffer
              Hctx1 Haudio Hdecode) as (rest & Heff).
  unfold effectsOf in Heff. rewrite Heff, Hzero.
  eexists _, _, rest. split; [reflexivity|]. apply startFor_from_zero, Hnow.
Qed.

(** Three units are playing; the interruption arrives, then a unit at
    clock 2. *)
Lemma unit_after_interruption_starts_at_clock_witness :
  let w := after (run sampleDecode playingRun) initialWorld in
  let w1 := after (dispatch sampleDecode (SessionMessage 2 interruption (1 # 1) silentClock)) w in
  exists (node : positive) (start : Q) (rest : list Effect),
    effectsOf (dispatch sampleDecode
                 (SessionMessage 2 (audioMessage "d") (2 # 1) silentClock)) w1 =
      NodeStart node start :: rest /\
    (start == 2 # 1)%Q.
Proof.
  cbv zeta.
  apply (unit_after_interruption_starts_at_clock sampleDecode
           (after (run sampleDecode playingRun) initialWorld) 2 interruption (1 # 1)
           silentClock (audioMessage "d") (2 # 1) silentClock "d" {| duration := 1 # 4 |}).
  - exists playingRun. reflexivity.
  - eexists. vm_compute. reflexivity.
  - reflexivity.
  - reflexivity.
  - reflexivity.
  - vm_compute. discriminate.
Defined.

(** ** The transcript and its rendering *)

Lemma append_empty_r (s : string) : s +:+ "" = s.
Proof.
  induction s as [|c s IH]; [reflexivity|].
  change (String c (s +:+ "") = String c s). f_equal. exact IH.
Qed.

Lemma append_assoc (s1 s2 s3 : string) : (s1 +:+ s2) +:+ s3 = s1 +:+ (s2 +:+ s3).
Proof.
  induction s1 as [|c s1 IH]; [reflexivity|].
  change (String c ((s1 +:+ s2) +:+ s3) = String c (s1 +:+ (s2 +:+ s3))).
  f_equal. exact IH.
Qed.

Lemma transcriptText_app (front back : list Message) :
  transcriptText (front ++ back) = transcriptText front +:+ transcriptText back.
Proof.
  unfold transcriptText. induction front as [|m front IH]; cbn.
  - reflexivity.
  - rewrite IH. symmetry. apply append_assoc.
Qed.

Lemma transcriptText_snoc (front : list Message) (m : Message) :
  transcriptText (front ++ [m]) = transcriptText front +:+ text m.
Proof.
  rewrite transcriptText_app. f_equal. unfold transcriptText. cbn [foldr].
  apply append_empty_r.
Qed.

Lemma last_split (prev : list Message) (lastMsg : Message) :
  last prev = Some lastMsg -> prev = removelast prev ++ [lastMsg].
Proof.
  intros Hlast. apply last_Some in Hlast as [front ->].
  rewrite removelast_last. reflexivity.
Qed.

Lemma appendTranscription_text (delta : string) (clk : Transcript.Clock)
    (prev : list Message) :
  transcriptText (Transcript.appendTranscription delta clk prev) =
    transcriptText prev +:+ delta.
Proof.
  unfold Transcript.appendTranscription.
  destruct (last prev) as [lastMsg|] eqn:Hlast.
  - destruct (bool_decide (role lastMsg = model) &&
              Transcript.isRecent (Transcript.atCheck clk) lastMsg).
    + rewrite transcriptText_snoc. cbn.
      rewrite (last_split prev lastMsg Hlast) at 2.
      rewrite transcriptText_snoc, append_assoc. reflexivity.
    + apply transcriptText_snoc.
  - apply transcriptText_snoc.
Qed.

Lemma appendTranscription_length (delta : string) (clk : Transcript.Clock)
    (prev : list Message) :
  (length prev <= length (Transcript.appendTranscription delta clk prev) <=
     S (length prev))%nat /\
  (0 < length (Transcript.appendTranscription delta clk prev))%nat.
Proof.
  unfold Transcript.appendTranscription.
  destruct (last prev) as [lastMsg|] eqn:Hlast.
  - destruct (bool_decide (role lastMsg = model) &&
              Transcript.isRecent (Transcript.atCheck clk) lastMsg).
    + rewrite (last_split prev lastMsg Hlast) at 1 4.
      rewrite !length_app. cbn. lia.
    + rewrite length_app. cbn. lia.
  - rewrite length_app. cbn. lia.
Qed.

(** X4.  The updater of the transcript loses and reorders nothing: merged
    or appended, the delta ends up at the very end of the text the
    transcript shows, and the transcript gains at most one message and is
    not empty afterwards. *)
Theorem appendTranscription_appends_text (delta : string) (clk : Transcript.Clock)
    (prev : list Message) :
  let next := Transcript.appendTranscription delta clk prev in
  transcriptText next = transcriptText prev +:+ delta /\
  (length prev <= length next <= S (length prev))%nat /\
  next <> [].
Proof.
  cbv zeta. split; [apply appendTranscription_text|].
  destruct (appendTranscription_length delta clk prev) as [Hlen Hpos].
  split; [exact Hlen|].
  intros Hnil. rewrite Hnil in Hpos. cbn in Hpos. lia.
Qed.

Lemma dispatch_transcriptText decode (ev : Event) (w : World) :
  transcriptText (messages (react (after (dispatch decode ev) w))) =
    transcriptText (messages (react w)) +:+ acceptedDelta ev w.
Proof.
  rewrite dispatch_messages. unfold acceptedDelta.
  destruct ev; try (rewrite append_empty_r; reflexivity).
  destruct (sessions (browser w) !! sessionPromise);
    [|rewrite append_empty_r; reflexivity].
  destruct (truthy (outputTranscription msg));
    [|rewrite append_empty_r; reflexivity].
  apply appendTranscription_text.
Qed.

(** X5.  Over any run of the application, from any world, the text of the
    transcript is the text it had followed by the transcription deltas of
    the messages of known sessions, in arrival order: no other event
    writes to the transcript, and stopping or failing never clears it. *)
Theorem run_accumulates_transcriptions
    (decode : string -> option AudioBuffer) (events : list Event) (w : World) :
  transcriptText (messages (react (after (run decode events) w))) =
    transcriptText (messages (react w)) +:+ acceptedText decode events w.
Proof.
  revert w. induction events as [|ev events IH]; intros w.
  - cbn. rewrite append_empty_r. reflexivity.
  - rewrite run_cons, IH, dispatch_transcriptText. cbn [acceptedText].
    apply append_assoc.
Qed.

Lemma appendTranscription_roles (delta : string) (clk : Transcript.Clock)
    (prev : list Message) :
  Forall (fun m => role m = model) prev ->
  Forall (fun m => role m = model) (Transcript.appendTranscription delta clk prev).
Proof.
  intros Hprev. unfold Transcript.appendTranscription.
  destruct (last prev) as [lastMsg|] eqn:Hlast.
  - destruct (bool_decide (role lastMsg = model) &&
              Transcript.isRecent (Transcript.atCheck clk) lastMsg) eqn:Hmerge.
    + rewrite (last_split prev lastMsg Hlast) in Hprev.
      apply Forall_app in Hprev as [Hfront Hlast'].
      apply Forall_app. split; [exact Hfront|].
      constructor; [|constructor]. cbn. inversion Hlast'; assumption.
    + apply Forall_app. split; [exact Hprev|]. constructor; [reflexivity|constructor].
  - apply Forall_app. split; [exact Hprev|]. constructor; [reflexivity|constructor].
Qed.

Lemma run_roles decode (events : list Event) :
  forall w : World,
    Forall (fun m => role m = model) (messages (react w)) ->
    Forall (fun m => role m = model) (messages (react (after (run decode events) w))).
Proof.
  induction events as [|ev events IH]; intros w Hw.
  - exact Hw.
  - rewrite run_cons. apply IH. rewrite dispatch_messages.
    destruct ev; try exact Hw.
    destruct (sessions (browser w) !! sessionPromise); [|exact Hw].
    destruct (truthy (outputTranscription msg)); [|exact Hw].
    apply appendTranscription_roles, Hw.
Qed.

(** X6.  The transcript panel only ever speaks for the interpreter: in
    every world the application can be in, each bubble it renders is
    aligned to the start and labelled Interpreter, shows the text of its
    message, and the placeholder is rendered exactly when there is no
    message. *)
Theorem transcript_shows_only_interpreter
    (decode : string -> option AudioBuffer) (w : World) :
  reachable decode w ->
  let view := TranscriptView.render (messages (react w)) in
  (view = TranscriptView.Placeholder <-> messages (react w) = []) /\
  forall bubbles : list TranscriptView.Bubble,
    view = TranscriptView.Bubbles bubbles ->
    map TranscriptView.body bubbles = map text (messages (react w)) /\
    Forall (fun b => TranscriptView.side b = TranscriptView.itemsStart /\
                     TranscriptView.speaker b = "Interpreter") bubbles.
Proof.
  intros [events <-]. cbv zeta.
  pose proof (run_roles decode events initialWorld (Forall_nil_2 _)) as Hroles.
  destruct (messages (react (after (run decode events) initialWorld)))
    as [|m msgs] eqn:Hmsgs.
  - split; [split; reflexivity|]. intros bubbles Hview. discriminate Hview.
  - split; [split; discriminate|].
    intros bubbles Hview. cbn in Hview. injection Hview as <-.
    split.
    + change (map TranscriptView.body (map TranscriptView.bubbleOf (m :: msgs)) =
              map text (m :: msgs)).
      rewrite map_map. reflexivity.
    + change (Forall (fun b => TranscriptView.side b = TranscriptView.itemsStart /\
                               TranscriptView.speaker b = "Interpreter")
                (map TranscriptView.bubbleOf (m :: msgs))).
      apply Forall_map. eapply Forall_impl; [exact Hroles|].
      intros msg Hrole. cbn. rewrite Hrole. split; reflexivity.
Qed.

(** Three deltas arrived, the second merged into the first: two bubbles,
    both the interpreter's. *)
Lemma transcript_shows_only_interpreter_witness :
  let w := after (run sampleDecode talkingRun) initialWorld in
  exists bubbles : list TranscriptView.Bubble,
    TranscriptView.render (messages (react w)) = TranscriptView.Bubbles bubbles /\
    map TranscriptView.body bubbles = ["Hello"; "Bye"] /\
    Forall (fun b => TranscriptView.side b = TranscriptView.itemsStart /\
                     TranscriptView.speaker b = "Interpreter") bubbles.
Proof.
  cbv zeta.
  destruct (transcript_shows_only_interpreter sampleDecode
              (after (run sampleDecode talkingRun) initialWorld)
              (ex_intro _ talkingRun eq_refl)) as [_ Hbubbles].
  exists (map TranscriptView.bubbleOf
            (messages (react (after (run sampleDecode talkingRun) initialWorld)))).
  assert (Hview :
    TranscriptView.render (messages (react (after (run sampleDecode talkingRun) initialWorld))) =
    TranscriptView.Bubbles
      (map TranscriptView.bubbleOf
         (messages (react (after (run sampleDecode talkingRun) initialWorld)))))
    by (vm_compute; reflexivity).
  destruct (Hbubbles _ Hview) as [Hbody Hsides].
  split; [exact Hview|]. split; [|exact Hsides].
  rewrite Hbody. vm_compute. reflexivity.
Defined.

(** X7.  React keys are unique: after any run in which the wall clock
    does not run backwards inside a handler, no two bubbles of the
    rendered transcript have the same key. *)
Theorem rendered_keys_are_distinct
    (decode : string -> option AudioBuffer) (events : list Event) :
  clocksMonotone events ->
  NoDup (TranscriptView.keys
           (TranscriptView.render
              (messages (react (after (run decode events) initialWorld))))).
Proof.
  intros Hclocks.
  assert (Hstart : Transcript.wellFormed (messages (react initialWorld))).
  { split; [constructor|]. intros lastMsg Hlast. discriminate Hlast. }
  destruct (run_transcript_wellFormed decode events initialWorld Hclocks Hstart)
    as [Hids _].
  destruct (messages (react (after (run decode events) initialWorld))) as [|m msgs].
  - constructor.
  - change (NoDup (map TranscriptView.key (map TranscriptView.bubbleOf (m :: msgs)))).
    rewrite map_map. exact Hids.
Qed.

(** Three deltas, the second merged into the first bubble. *)
Lemma rendered_keys_are_distinct_witness :
  clocksMonotone talkingRun /\
  NoDup (TranscriptView.keys
           (TranscriptView.render
              (messages (react (after (run sampleDecode talkingRun) initialWorld))))).
Proof.
  assert (Hclocks : clocksMonotone talkingRun).
  { unfold clocksMonotone, talkingRun, connectedRun, connectingRun.
    repeat constructor; cbn; lia. }
  split; [exact Hclocks|].
  apply (rendered_keys_are_distinct sampleDecode talkingRun Hclocks).
Defined.

(** ** What every run keeps true *)

Lemma dispatch_counter decode (ev : Event) (w : World) :
  (counter (browser w) <= counter (browser (after (dispatch decode ev) w)))%positive.
Proof. unfold after. destruct ev; eff_cases; lia. Qed.

Lemma setAdd_NoDup (x : positive) (l : list positive) : NoDup l -> NoDup (setAdd x l).
Proof.
  intros Hl. unfold setAdd. destruct (decide (x ∈ l)) as [|Hnew]; [exact Hl|].
  apply NoDup_app. split; [exact Hl|]. split; [|apply NoDup_singleton].
  intros y Hy Hin. apply list_elem_of_singleton in Hin as ->. exact (Hnew Hy).
Qed.

Lemma setAdd_inv (x y : positive) (l : list positive) : y ∈ setAdd x l -> y = x \/ y ∈ l.
Proof.
  unfold setAdd. destruct (decide (x ∈ l)); [now right|].
  intros Hy. apply elem_of_app in Hy as [Hy|Hy]; [now right|].
  apply list_elem_of_singleton in Hy. now left.
Qed.

Lemma setDelete_inv (x y : positive) (l : list positive) : y ∈ setDelete x l -> y ∈ l.
Proof. unfold setDelete. intros Hy. apply list_elem_of_filter in Hy as [_ Hy]. exact Hy. Qed.

Lemma dispatch_sources_distinct decode (ev : Event) (w : World) :
  NoDup (sourcesRef (refs w)) ->
  NoDup (sourcesRef (refs (after (dispatch decode ev) w))).
Proof.
  intros Hinv. unfold after.
  destruct ev; eff_cases.
  all: try exact Hinv.
  all: try apply NoDup_nil_2.
  all: try (apply setAdd_NoDup; exact Hinv).
  all: apply NoDup_filter; exact Hinv.
Qed.

Lemma dispatch_sources_fresh decode (ev : Event) (w : World) :
  (forall node : positive,
      node ∈ sourcesRef (refs w) -> (node < counter (browser w))%positive) ->
  forall node : positive,
    node ∈ sourcesRef (refs (after (dispatch decode ev) w)) ->
    (node < counter (browser (after (dispatch decode ev) w)))%positive.
Proof.
  intros Hinv. unfold after.
  destruct ev; eff_cases.
  all: try exact Hinv.
  all: intros node Hnode.
  all: try (apply elem_of_nil in Hnode; contradiction).
  all: try (apply setAdd_inv in Hnode as [->|Hnode]; [lia|]).
  all: try (apply setDelete_inv in Hnode).
  all: specialize (Hinv node Hnode); lia.
Qed.

Lemma dispatch_error_shown decode (ev : Event) (w : World) :
  (status (react w) = ERROR ->
   exists message : string, error (react w) = Some message /\ message <> "") ->
  status (react (after (dispatch decode ev) w)) = ERROR ->
  exists message : string,
    error (react (after (dispatch decode ev) w)) = Some message /\ message <> "".
Proof.
  intros Hinv. unfold after.
  destruct ev; eff_cases.
  all: try exact Hinv.
  all: try discriminate.
  all: intros _; eexists; (split; [reflexivity|discriminate]).
Qed.

Lemma dispatch_unresolved_silent decode (ev : Event) (w : World) :
  (forall (p : positive) (s : Session),
      sessions (browser w) !! p = Some s -> resolved s = false -> sentLog s = []) ->
  forall (p : positive) (s : Session),
    sessions (browser (after (dispatch decode ev) w)) !! p = Some s ->
    resolved s = false -> sentLog s = [].
Proof.
  intros Hinv. unfold after.
  destruct ev; eff_cases.
  all: try exact Hinv.
  all: intros q s' Hq Hres.
  all: try (apply lookup_insert_Some in Hq as [[_ <-]|[_ Hq]]; [reflexivity|]).
  all: try (apply lookup_alter_Some in Hq as [[_ (s0 & Hq & ->)]|[_ Hq]]).
  all: try (eapply Hinv; eassumption).
  all: try discriminate.
  all: unfold chain in *; destruct (resolved s0) eqn:Hs0; cbn in *; try discriminate.
  all: eapply Hinv; eassumption.
Qed.

Lemma dispatch_encoding_none decode (ev : Event) (w : World) (n : positive) :
  (n < counter (browser w))%positive ->
  encoding (browser w) !! n = None ->
  encoding (browser (after (dispatch decode ev) w)) !! n = None.
Proof.
  intros Hold Hnone. unfold after.
  destruct ev; eff_cases.
  all: try exact Hnone.
  all: try (apply lookup_delete_None; right; exact Hnone).
  all: apply lookup_insert_None; split; [exact Hnone|lia].
Qed.

Lemma chainedOn_settles decode (p : positive) (ev : Event) (w : World) (n : positive) :
  consistent w ->
  n ∈ map fst (chainedOn p ev w) ->
  (n < counter (browser (after (dispatch decode ev) w)))%positive /\
  encoding (browser (after (dispatch decode ev) w)) !! n = None /\
  (n < counter (browser w) -> is_Some (encoding (browser w) !! n))%positive.
Proof.
  intros Hw Hn.
  destruct ev; cbn [chainedOn] in Hn; try (apply elem_of_nil in Hn; contradiction).
  - (* the probe *)
    destruct (probeOffered w) eqn:Hoffered; [|apply elem_of_nil in Hn; contradiction].
    destruct (sessionPromiseRef (refs w)) as [target|] eqn:Href;
      [|apply elem_of_nil in Hn; contradiction].
    destruct (decide (target = p)); [|apply elem_of_nil in Hn; contradiction].
    apply list_elem_of_singleton in Hn. cbn in Hn. subst n.
    assert (Hfree : encoding (browser w) !! counter (browser w) = None).
    { destruct (encoding (browser w) !! counter (browser w)) eqn:Hlook; [|reflexivity].
      pose proof (encoding_fresh w Hw (counter (browser w)) (ex_intro _ _ Hlook)). lia. }
    unfold after, dispatch. cbn. rewrite Hoffered.
    unfold handleTestConnection, thenSend. cbn. rewrite Href. cbn.
    split; [lia|]. split; [exact Hfree|]. lia.
  - (* an encode settles *)
    destruct (encoding (browser w) !! e) as [[target payload]|] eqn:Hlook;
      [|apply elem_of_nil in Hn; contradiction].
    destruct (decide (target = p)); [|apply elem_of_nil in Hn; contradiction].
    apply list_elem_of_singleton in Hn. cbn in Hn. subst n.
    pose proof (encoding_fresh w Hw e (ex_intro _ _ Hlook)) as Hfresh.
    unfold after, dispatch, encodeSettled, thenSend. cbn. rewrite Hlook. cbn.
    split; [exact Hfresh|]. split; [apply lookup_delete_eq|].
    intros _. eexists. reflexivity.
Qed.

Lemma dispatch_items decode (ev : Event) (w : World) :
  consistent w ->
  (forall p : positive, NoDup (pipelineIds p w)) ->
  (forall p n : positive,
      n ∈ pipelineIds p w ->
      (n < counter (browser w))%positive /\ encoding (browser w) !! n = None) ->
  let w' := after (dispatch decode ev) w in
  (forall p : positive, NoDup (pipelineIds p w')) /\
  (forall p n : positive,
      n ∈ pipelineIds p w' ->
      (n < counter (browser w'))%positive /\ encoding (browser w') !! n = None).
Proof.
  intros Hw Hdistinct Hold. cbv zeta.
  assert (Hids : forall p,
             pipelineIds p (after (dispatch decode ev) w) =
               pipelineIds p w ++ map fst (chainedOn p ev w)).
  { intros p. unfold pipelineIds. rewrite (dispatch_pipeline decode p ev w Hw).
    apply map_app. }
  split.
  - intros p. rewrite Hids. apply NoDup_app. split; [apply Hdistinct|]. split.
    + intros n Hn Hnew. destruct (Hold p n Hn) as [Hlt Hnone].
      destruct (chainedOn_settles decode p ev w n Hw Hnew) as (_ & _ & Hflight).
      destruct (Hflight Hlt) as [x Hx]. congruence.
    + destruct ev; cbn [chainedOn]; try apply NoDup_nil_2.
      * destruct (probeOffered w); [|apply NoDup_nil_2].
        destruct (sessionPromiseRef (refs w)); [|apply NoDup_nil_2].
        destruct (decide (p0 = p)); [apply NoDup_singleton|apply NoDup_nil_2].
      * destruct (encoding (browser w) !! e) as [[target payload]|]; [|apply NoDup_nil_2].
        destruct (decide (target = p)); [apply NoDup_singleton|apply NoDup_nil_2].
  - intros p n Hn. rewrite Hids in Hn. apply elem_of_app in Hn as [Hn|Hn].
    + destruct (Hold p n Hn) as [Hlt Hnone]. split.
      * pose proof (dispatch_counter decode ev w). lia.
      * apply dispatch_encoding_none; assumption.
    + destruct (chainedOn_settles decode p ev w n Hw Hn) as (Hlt & Hnone & _).
      split; assumption.
Qed.

Lemma initial_wellKept : wellKept initialWorld.
Proof.
  split; cbn.
  - apply NoDup_nil_2.
  - intros node Hnode. apply elem_of_nil in Hnode. contradiction.
  - discriminate.
  - intros p s Hx. rewrite lookup_empty in Hx. discriminate.
  - intros p. unfold pipelineIds, pipeline. cbn. rewrite lookup_empty. apply NoDup_nil_2.
  - intros p n Hn. unfold pipelineIds, pipeline in Hn. cbn in Hn.
    rewrite lookup_empty in Hn. apply elem_of_nil in Hn. contradiction.
  - intros p n Hn. unfold pipelineIds, pipeline in Hn. cbn in Hn.
    rewrite lookup_empty in Hn. apply elem_of_nil in Hn. contradiction.
Qed.

Lemma dispatch_wellKept decode (ev : Event) (w : World) :
  consistent w -> wellKept w -> wellKept (after (dispatch decode ev) w).
Proof.
  intros Hw [Hdistinct Hfresh Herror Hsilent Hitems Hitemsfresh Hsettled].
  destruct (dispatch_items decode ev w Hw Hitems) as [Hitems' Hboth].
  { intros p n Hn. split; [exact (Hitemsfresh p n Hn)|exact (Hsettled p n Hn)]. }
  split.
  - exact (dispatch_sources_distinct decode ev w Hdistinct).
  - exact (dispatch_sources_fresh decode ev w Hfresh).
  - exact (dispatch_error_shown decode ev w Herror).
  - exact (dispatch_unresolved_silent decode ev w Hsilent).
  - exact Hitems'.
  - intros p n Hn. exact (proj1 (Hboth p n Hn)).
  - intros p n Hn. exact (proj2 (Hboth p n Hn)).
Qed.

Lemma run_wellKept decode (events : list Event) :
  forall w : World,
    consistent w -> wellKept w -> wellKept (after (run decode events) w).
Proof.
  induction events as [|ev events IH]; intros w Hw Hkept.
  - exact Hkept.
  - rewrite run_cons. apply IH.
    + apply dispatch_consistent, Hw.
    + apply dispatch_wellKept; assumption.
Qed.

Lemma reachable_wellKept decode (w : World) : reachable decode w -> wellKept w.
Proof.
  intros [events <-]. apply run_wellKept; [apply initial_consistent|apply initial_wellKept].
Qed.

(** ** The active set *)

Lemma setAdd_new (x : positive) (l : list positive) : x ∉ l -> setAdd x l = l ++ [x].
Proof. intros Hnew. unfold setAdd. destruct (decide (x ∈ l)); [contradiction|reflexivity]. Qed.

Lemma setDelete_absent (x : positive) (l : list positive) : x ∉ l -> setDelete x l = l.
Proof.
  unfold setDelete. induction l as [|y l IH]; intros Hnew; [reflexivity|].
  apply not_elem_of_cons in Hnew as [Hne Hnew].
  rewrite filter_cons_True by congruence. rewrite IH by exact Hnew. reflexivity.
Qed.

Lemma setDelete_snoc (x : positive) (l : list positive) :
  x ∉ l -> setDelete x (l ++ [x]) = l.
Proof.
  intros Hnew. unfold setDelete. rewrite filter_app.
  fold (setDelete x l). rewrite (setDelete_absent x l Hnew).
  rewrite filter_cons_False by (intros Hne; now apply Hne).
  rewrite filter_nil. apply app_nil_r.
Qed.

Lemma onmessage_sources decode (msg : LiveServerMessage) (now : Q)
    (clk : Transcript.Clock) (w : World) (base64Audio : string)
    (audioBuffer : AudioBuffer) :
  is_Some (audioContextRef (refs w)) ->
  truthy (inlineData msg) = Some base64Audio ->
  decode base64Audio = Some audioBuffer ->
  interrupted msg <> Some true ->
  sourcesRef (refs (after (onmessage decode msg now clk) w)) =
    setAdd (counter (browser w)) (sourcesRef (refs w)).
Proof.
  intros [ctx Hctx] Haudio Hdecode Hquiet.
  unfold after, onmessage, playAudio, setMessages.
  rewrite Haudio, Hdecode.
  destruct (truthy (outputTranscription msg)); unfold schedule, when_; cbn;
    rewrite Hctx; cbn;
    destruct (driftTooLarge (nextStartTimeRef (refs w)) now); cbn;
    rewrite (handleInterruption_quiet msg _ Hquiet); reflexivity.
Qed.

(** X8.  The active set follows the units that play: in every world the
    application can be in, a message whose audio decodes adds exactly one
    node to the active set, a node that was not in it, and the [onended]
    of that node gives the set back as it was. *)
Theorem ended_unit_leaves_active_set
    (decode : string -> option AudioBuffer) (w : World) (p : positive)
    (msg : LiveServerMessage) (now : Q) (clk : Transcript.Clock)
    (base64Audio : string) (audioBuffer : AudioBuffer) :
  reachable decode w ->
  is_Some (sessions (browser w) !! p) ->
  truthy (inlineData msg) = Some base64Audio ->
  decode base64Audio = Some audioBuffer ->
  interrupted msg <> Some true ->
  let node := counter (browser w) in
  let w1 := after (dispatch decode (SessionMessage p msg now clk)) w in
  (node ∉ sourcesRef (refs w)) /\
  sourcesRef (refs w1) = sourcesRef (refs w) ++ [node] /\
  sourcesRef (refs (after (dispatch decode (NodeEnded node)) w1)) = sourcesRef (refs w).
Proof.
  intros Hreach [s Hs] Haudio Hdecode Hquiet. cbv zeta.
  pose proof (reachable_consistent decode w Hreach) as Hw.
  pose proof (reachable_wellKept decode w Hreach) as Hkept.
  assert (Hctx : is_Some (audioContextRef (refs w))).
  { apply (context_ready w Hw). left. exists p. eexists. exact Hs. }
  assert (Hnew : counter (browser w) ∉ sourcesRef (refs w)).
  { intros Hin. pose proof (sources_fresh w Hkept _ Hin). lia. }
  assert (Hafter : sourcesRef (refs (after (dispatch decode (SessionMessage p msg now clk)) w)) =
                   sourcesRef (refs w) ++ [counter (browser w)]).
  { unfold after. rewrite (dispatch_message_known decode p s msg now clk w Hs).
    rewrite <- (setAdd_new _ _ Hnew).
    exact (onmessage_sources decode msg now clk w base64Audio audioBuffer
             Hctx Haudio Hdecode Hquiet). }
  split; [exact Hnew|]. split; [exact Hafter|].
  change (setDelete (counter (browser w))
            (sourcesRef (refs (after (dispatch decode (SessionMessage p msg now clk)) w))) =
          sourcesRef (refs w)).
  rewrite Hafter. apply setDelete_snoc, Hnew.
Qed.

(** Three units are playing and a fourth arrives. *)
Lemma ended_unit_leaves_active_set_witness :
  let w := after (run sampleDecode playingRun) initialWorld in
  let node := counter (browser w) in
  let w1 := after (dispatch sampleDecode
                     (SessionMessage 2 (audioMessage "d") (1 # 1) silentClock)) w in
  (node ∉ sourcesRef (refs w)) /\
  sourcesRef (refs w1) = sourcesRef (refs w) ++ [node] /\
  sourcesRef (refs (after (dispatch sampleDecode (NodeEnded node)) w1)) = sourcesRef (refs w).
Proof.
  cbv zeta.
  apply (ended_unit_leaves_active_set sampleDecode
           (after (run sampleDecode playingRun) initialWorld) 2 (audioMessage "d") (1 # 1)
           silentClock "d" {| duration := 1 # 4 |}).
  - exists playingRun. reflexivity.
  - eexists. vm_compute. reflexivity.
  - reflexivity.
  - reflexivity.
  - discriminate.
Defined.

(** ** The outbound channel *)

(** X9.  Nothing reaches the remote channel before the session promise
    resolves, and nothing is left waiting once it has: after any run, the
    sends made on a pending promise are none, and the sends made on a
    resolved one are everything that was chained on it. *)
Theorem nothing_sent_before_resolution
    (decode : string -> option AudioBuffer) (events : list Event)
    (p : positive) (s : Session) :
  let w := after (run decode events) initialWorld in
  sessions (browser w) !! p = Some s ->
  (resolved s = false -> delivered p w = [] /\ pipeline p w = queued s) /\
  (resolved s = true -> delivered p w = pipeline p w /\ queued s = []).
Proof.
  cbv zeta. intros Hs.
  assert (Hreach : reachable decode (after (run decode events) initialWorld))
    by (exists events; reflexivity).
  pose proof (reachable_consistent decode _ Hreach) as Hw.
  pose proof (reachable_wellKept decode _ Hreach) as Hkept.
  unfold delivered, pipeline. rewrite Hs. split; intros Hres.
  - rewrite (unresolved_silent _ Hkept p s Hs Hres). split; reflexivity.
  - rewrite (queue_flushed _ Hw p s Hs Hres), app_nil_r. split; reflexivity.
Qed.

(** A block was captured and encoded while the promise is pending: it
    waits. *)
Lemma nothing_sent_before_resolution_witness :
  let w := after (run sampleDecode queuedRun) initialWorld in
  let s := {| resolved := false;
              queued := [(4%positive, Media "audio/pcm;rate=16000" "pcm")];
              sentLog := []; errorStream := None |} in
  sessions (browser w) !! 2%positive = Some s /\
  (resolved s = false -> delivered 2 w = [] /\ pipeline 2 w = queued s) /\
  (resolved s = true -> delivered 2 w = pipeline 2 w /\ queued s = []).
Proof.
  cbv zeta.
  assert (Hs : sessions (browser (after (run sampleDecode queuedRun) initialWorld))
               !! 2%positive =
               Some {| resolved := false;
                       queued := [(4%positive, Media "audio/pcm;rate=16000" "pcm")];
                       sentLog := []; errorStream := None |}).
  { vm_compute. reflexivity. }
  split; [exact Hs|].
  exact (nothing_sent_before_resolution sampleDecode queuedRun 2 _ Hs).
Defined.

(** X10.  No item is sent twice: after any run, the production numbers of
    the items chained on a session promise are pairwise different, so a
    captured block, a frame or a probe reaches the session at most once. *)
Theorem no_item_is_sent_twice
    (decode : string -> option AudioBuffer) (events : list Event) (p : positive) :
  NoDup (pipelineIds p (after (run decode events) initialWorld)).
Proof.
  apply (items_distinct _ (reachable_wellKept decode _ (ex_intro _ events eq_refl))).
Qed.

(** ** The error banner *)

(** X11.  The Error state is never silent: after any run, when the status
    is Error the error banner is rendered. *)
Theorem error_state_shows_banner
    (decode : string -> option AudioBuffer) (events : list Event) :
  let w := after (run decode events) initialWorld in
  status (react w) = ERROR -> bannerShown w = true.
Proof.
  cbv zeta. intros Hstatus.
  destruct (error_shown _ (reachable_wellKept decode _ (ex_intro _ events eq_refl)) Hstatus)
    as (message & Herror & Hmessage).
  unfold bannerShown. rewrite Herror.
  destruct message; [contradiction|reflexivity].
Qed.

Lemma error_state_shows_banner_witness :
  let w := after (run sampleDecode failedRun) initialWorld in
  status (react w) = ERROR /\ bannerShown w = true.
Proof.
  cbv zeta.
  assert (Hstatus : status (react (after (run sampleDecode failedRun) initialWorld)) = ERROR).
  { vm_compute. reflexivity. }
  split; [exact Hstatus|].
  exact (error_state_shows_banner sampleDecode failedRun Hstatus).
Defined.

Lemma dispatch_error_cases decode (ev : Event) (w : World) :
  error (react (after (dispatch decode ev) w)) = error (react w) \/
  (exists message : string,
      error (react (after (dispatch decode ev) w)) = Some message /\ message <> "") \/
  (error (react (after (dispatch decode ev) w)) = None /\ ev = ClickToggle /\
   status (react w) <> CONNECTED /\ status (react w) <> CONNECTING).
Proof.
  unfold after. destruct ev; eff_cases.
  all: try (left; reflexivity).
  all: try (right; left; eexists; split; [reflexivity|discriminate]).
  all: right; right.
  all: repeat match goal with
       | H : _ || _ = false |- _ => apply orb_false_iff in H as [? ?]
       | H : bool_decide _ = false |- _ => apply bool_decide_eq_false in H
       end.
  all: repeat split; assumption.
Qed.

(** X12.  The banner goes away only when the user starts again: whatever
    the world, an event after which the banner is no longer rendered is a
    click on the main button while it reads Start Interpreter. *)
Theorem banner_cleared_only_by_start
    (decode : string -> option AudioBuffer) (ev : Event) (w : World) :
  bannerShown w = true ->
  bannerShown (after (dispatch decode ev) w) = false ->
  ev = ClickToggle /\ toggleLabel w = "Start Interpreter".
Proof.
  unfold bannerShown. intros Hshown Hgone.
  destruct (dispatch_error_cases decode ev w)
    as [Hsame|[(message & Hset & Hmessage)|(_ & Hev & Hconnected & Hconnecting)]].
  - rewrite Hsame, Hshown in Hgone. discriminate.
  - rewrite Hset in Hgone. destruct message; [contradiction|discriminate].
  - split; [exact Hev|]. unfold toggleLabel.
    rewrite !bool_decide_eq_false_2 by assumption. reflexivity.
Qed.

(** The session failed; the user starts again. *)
Lemma banner_cleared_only_by_start_witness :
  let w := after (run sampleDecode failedRun) initialWorld in
  bannerShown w = true /\
  bannerShown (after (dispatch sampleDecode ClickToggle) w) = false /\
  ClickToggle = ClickToggle /\ toggleLabel w = "Start Interpreter".
Proof.
  cbv zeta.
  assert (Hshown : bannerShown (after (run sampleDecode failedRun) initialWorld) = true)
    by (vm_compute; reflexivity).
  assert (Hgone : bannerShown (after (dispatch sampleDecode ClickToggle)
                                 (after (run sampleDecode failedRun) initialWorld)) = false)
    by (vm_compute; reflexivity).
  split; [exact Hshown|]. split; [exact Hgone|].
  exact (banner_cleared_only_by_start sampleDecode ClickToggle _ Hshown Hgone).
Defined.

(** ** The main button *)

Ltac no_request :=
  let k := fresh "k" in
  let Hk := fresh "Hk" in
  intros k Hk;
  repeat first
    [ apply elem_of_nil in Hk; contradiction
    | apply elem_of_cons in Hk as [Hk|Hk]; [discriminate|]
    | apply elem_of_app in Hk as [Hk|Hk]
    | apply list_elem_of_fmap in Hk as (? & Hk & _); discriminate ].

Lemma handleToggle_starts (w : World) :
  status (react w) <> CONNECTED -> status (react w) <> CONNECTING ->
  handleToggle w =
    connectToGemini {| capturedMic := isMicOn (react w);
                       capturedStream := mediaStream (react w) |} w.
Proof.
  intros Hconnected Hconnecting. unfold handleToggle. cbn.
  rewrite !bool_decide_eq_false_2 by assumption. cbn.
  destruct (audioContextRef (refs w)); reflexivity.
Qed.

Lemma handleToggle_stops (w : World) :
  status (react w) = CONNECTED \/ status (react w) = CONNECTING ->
  handleToggle w = disconnect (mediaStream (react w)) w.
Proof.
  intros Hactive. unfold handleToggle. cbn.
  assert (Htest : bool_decide (status (react w) = CONNECTED) ||
                  bool_decide (status (react w) = CONNECTING) = true).
  { apply orb_true_iff. destruct Hactive as [H|H]; [left|right];
      apply bool_decide_eq_true_2; exact H. }
  rewrite Htest. eff_cases; reflexivity.
Qed.

(** X13.  The main button does what its label says.  While it reads
    Start Interpreter a click starts a connection: the status becomes
    Connecting, the error is cleared, the playback context exists, one
    microphone request is issued and the camera preview becomes active.
    While it reads anything else a click stops: the status becomes
    Disconnected, no microphone request is issued and the preview becomes
    inactive.  A second click therefore always undoes the first one's
    label. *)
Theorem toggle_label_tells_what_click_does (w : World) :
  let w' := after handleToggle w in
  (toggleLabel w = "Start Interpreter" ->
     status (react w') = CONNECTING /\ error (react w') = None /\
     is_Some (audioContextRef (refs w')) /\
     effectsOf handleToggle w = [GetUserMedia (counter (browser w))] /\
     previewActive w = false /\ previewActive w' = true /\
     toggleLabel w' = "Connecting...") /\
  (toggleLabel w <> "Start Interpreter" ->
     status (react w') = DISCONNECTED /\
     (forall k : positive, GetUserMedia k ∉ effectsOf handleToggle w) /\
     previewActive w = true /\ previewActive w' = false /\
     toggleLabel w' = "Start Interpreter").
Proof.
  cbv zeta. unfold toggleLabel at 1 3, previewActive at 1 3.
  destruct (decide (status (react w) = CONNECTED)) as [Hconnected|Hconnected];
    [|destruct (decide (status (react w) = CONNECTING)) as [Hconnecting|Hconnecting]].
  - (* the button reads Stop Interpreter *)
    rewrite (bool_decide_eq_true_2 _ Hconnected).
    split; [discriminate|]. intros _.
    unfold after, effectsOf. rewrite (handleToggle_stops w (or_introl Hconnected)).
    unfold toggleLabel, previewActive. eff_cases.
    all: try match goal with
         | H : bool_decide (_ = _) = _ |- _ => compute in H; discriminate H
         end.
    all: repeat split; try reflexivity; no_request.
  - (* the button reads Connecting... *)
    rewrite (bool_decide_eq_false_2 _ Hconnected), (bool_decide_eq_true_2 _ Hconnecting).
    split; [discriminate|]. intros _.
    unfold after, effectsOf. rewrite (handleToggle_stops w (or_intror Hconnecting)).
    unfold toggleLabel, previewActive. eff_cases.
    all: try match goal with
         | H : bool_decide (_ = _) = _ |- _ => compute in H; discriminate H
         end.
    all: repeat split; try reflexivity; no_request.
  - (* the button reads Start Interpreter *)
    rewrite !bool_decide_eq_false_2 by assumption.
    split; [|intros Hlabel; contradiction Hlabel; reflexivity]. intros _.
    unfold after, effectsOf. rewrite (handleToggle_starts w Hconnected Hconnecting).
    unfold toggleLabel, previewActive. eff_cases.
    all: try match goal with
         | H : bool_decide (_ = _) = _ |- _ => compute in H; discriminate H
         end.
    all: repeat split; try reflexivity; eexists; first [reflexivity|eassumption].
Qed.

(** ** Installed processors *)

Lemma dispatch_processors decode (ev : Event) (w : World) :
  processors (browser w) `prefix_of` processors (browser (after (dispatch decode ev) w)).
Proof.
  unfold after. destruct ev; eff_cases.
  all: try reflexivity.
  all: apply prefix_app_r; reflexivity.
Qed.

Lemma run_processors decode (events : list Event) :
  forall w : World,
    processors (browser w) `prefix_of` processors (browser (after (run decode events) w)).
Proof.
  induction events as [|ev events IH]; intros w.
  - reflexivity.
  - rewrite run_cons. etransitivity; [apply (dispatch_processors decode ev)|apply IH].
Qed.

Lemma forwarded_iff_flag decode (w : World) (i : nat) (flag : bool) (p : positive)
    (data : string) :
  consistent w ->
  processors (browser w) !! i = Some (flag, p) ->
  (audioForwarded decode i data w <-> flag = true).
Proof.
  intros Hw Hi.
  assert (Hblock : dispatch decode (AudioBlock i data) w = onaudioprocess flag p data w).
  { unfold dispatch. cbn. rewrite Hi. cbn.
    destruct (onaudioprocess flag p data w) as [[u w'] effects]. reflexivity. }
  split.
  - intros (e & q & Hbefore & Hafter). unfold after in Hafter. rewrite Hblock in Hafter.
    destruct flag; [reflexivity|]. cbn in Hafter. congruence.
  - intros ->. exists (counter (browser w)), p. split.
    + destruct (encoding (browser w) !! counter (browser w)) as [x|] eqn:Hx; [|reflexivity].
      pose proof (encoding_fresh w Hw _ (ex_intro _ x Hx)). lia.
    + unfold after. rewrite Hblock. cbn. apply lookup_insert_eq.
Qed.

(** X14.  A processor is installed for good.  Whatever happens after a
    connection installed its script processor (mute, stop, a session
    error, a close, a new connection), the processor stays installed with
    the microphone flag and the session promise it captured, the session
    stays known, and the processor forwards a block exactly when that
    captured flag is on: the microphone button and the stop button do not
    reach it. *)
Theorem installed_processor_forwards_for_good
    (decode : string -> option AudioBuffer) (events later : list Event)
    (i : nat) (flag : bool) (p : positive) (data : string) :
  let w := after (run decode events) initialWorld in
  let w' := after (run decode later) w in
  processors (browser w) !! i = Some (flag, p) ->
  processors (browser w') !! i = Some (flag, p) /\
  is_Some (sessions (browser w') !! p) /\
  (audioForwarded decode i data w' <-> flag = true).
Proof.
  cbv zeta. intros Hi.
  assert (Hw : consistent (after (run decode events) initialWorld))
    by (apply run_consistent, initial_consistent).
  pose proof (run_consistent decode later _ Hw) as Hw'.
  assert (Hi' : processors (browser (after (run decode later)
                                       (after (run decode events) initialWorld))) !! i =
                Some (flag, p)).
  { eapply prefix_lookup_Some; [exact Hi|apply run_processors]. }
  split; [exact Hi'|]. split.
  - apply (processors_known _ Hw' flag p). exact (list_elem_of_lookup_2 _ i _ Hi').
  - exact (forwarded_iff_flag decode _ i flag p data Hw' Hi').
Qed.

(** The session is connected; the user mutes, then stops. *)
Lemma installed_processor_forwards_for_good_witness :
  let w := after (run sampleDecode connectedRun) initialWorld in
  let w' := after (run sampleDecode [ClickMic; ClickToggle]) w in
  processors (browser w) !! 0%nat = Some (true, 2%positive) /\
  isMicOn (react w') = false /\
  status (react w') = DISCONNECTED /\
  processors (browser w') !! 0%nat = Some (true, 2%positive) /\
  is_Some (sessions (browser w') !! 2%positive) /\
  (audioForwarded sampleDecode 0 "pcm" w' <-> true = true).
Proof.
  cbv zeta.
  assert (Hi : processors (browser (after (run sampleDecode connectedRun) initialWorld))
               !! 0%nat = Some (true, 2%positive)) by (vm_compute; reflexivity).
  split; [exact Hi|]. split; [vm_compute; reflexivity|]. split; [vm_compute; reflexivity|].
  exact (installed_processor_forwards_for_good sampleDecode connectedRun
           [ClickMic; ClickToggle] 0 true 2 "pcm" Hi).
Defined.

(** ** Failures *)

Lemma dispatch_failed_known decode (p : positive) (s : Session) (w : World) :
  sessions (browser w) !! p = Some s ->
  dispatch decode (SessionFailed p) w = onerror (errorStream s) w.
Proof.
  intros Hs. unfold dispatch, ofSession. cbn. rewrite Hs.
  eff_cases; reflexivity.
Qed.

Lemma no_timer_without_ref (w : World) :
  consistent w -> frameIntervalRef (refs w) = None -> liveTimers w = 0%nat.
Proof.
  intros Hw Href. unfold liveTimers. apply map_size_empty_iff, map_empty.
  intros t. destruct (timers (browser w) !! t) as [x|] eqn:Hx; [|reflexivity].
  pose proof (timer_tracked w Hw t (ex_intro _ x Hx)). congruence.
Qed.

(** X15.  A session error tears playback down but stops only the stream
    its closure captured.  In every world the application can be in, the
    [onerror] of a session sets the status to Error with the connection
    message, clears the frame timer (no timer is live afterwards), stops
    every node of the active set and empties it, and drops the session
    reference.  The tracks it stops are those of the [mediaStream] of the
    render that started the connection, and no others: when that was
    [null], the microphone stream the connection opened stays in the state
    and keeps running. *)
Theorem session_error_stops_only_captured_stream
    (decode : string -> option AudioBuffer) (w : World) (p : positive) (s : Session) :
  reachable decode w ->
  sessions (browser w) !! p = Some s ->
  let w' := after (dispatch decode (SessionFailed p)) w in
  let effects := effectsOf (dispatch decode (SessionFailed p)) w in
  status (react w') = ERROR /\
  error (react w') = Some "Connection error. Please try again." /\
  frameIntervalRef (refs w') = None /\ liveTimers w' = 0%nat /\
  (forall node : positive, node ∈ sourcesRef (refs w) -> NodeStop node ∈ effects) /\
  sourcesRef (refs w') = [] /\
  sessionPromiseRef (refs w') = None /\
  (forall stream : positive, TrackStop stream ∈ effects <-> errorStream s = Some stream) /\
  mediaStream (react w') =
    match errorStream s with
    | Some _ => None
    | None => mediaStream (react w)
    end.
Proof.
  intros Hreach Hs. cbv zeta.
  pose proof (reachable_consistent decode w Hreach) as Hw.
  pose proof (dispatch_consistent decode (SessionFailed p) w Hw) as Hw'.
  assert (Href : frameIntervalRef (refs (after (dispatch decode (SessionFailed p)) w)) = None).
  { unfold after. rewrite (dispatch_failed_known decode p s w Hs).
    eff_cases; first [reflexivity|assumption]. }
  pose proof (no_timer_without_ref _ Hw' Href) as Hnone.
  split; [|split; [|split; [exact Href|split; [exact Hnone|]]]].
  1-2: unfold after; rewrite (dispatch_failed_known decode p s w Hs);
       eff_cases; reflexivity.
  clear Href Hnone Hw'.
  unfold after, effectsOf. rewrite (dispatch_failed_known decode p s w Hs).
  unfold_handlers. cbn.
  destruct (frameIntervalRef (refs w)) as [t|]; destruct (errorStream s) as [captured|];
    eff_step.
  all: split; [intros node Hnode; in_log|].
  all: split; [reflexivity|]. all: split; [reflexivity|].
  all: split; [|reflexivity].
  all: intros stream; split.
  all: try (intros [= ->]; in_log).
  all: try discriminate.
  all: intros Hk.
  all: repeat first
         [ apply elem_of_nil in Hk; contradiction
         | apply elem_of_cons in Hk as [Hk|Hk]; [first [discriminate|congruence]|]
         | apply elem_of_app in Hk as [Hk|Hk]
         | apply list_elem_of_fmap in Hk as (? & Hk & _); discriminate ].
Qed.

(** The first connection of the page fails: its closure captured no
    stream, so the microphone stream 7 is still in the state. *)
Lemma session_error_stops_only_captured_stream_witness :
  let w := after (run sampleDecode connectedRun) initialWorld in
  let w' := after (dispatch sampleDecode (SessionFailed 2)) w in
  status (react w') = ERROR /\
  mediaStream (react w') = Some 7%positive /\
  (forall stream : positive,
      TrackStop stream ∈ effectsOf (dispatch sampleDecode (SessionFailed 2)) w <->
      None = Some stream).
Proof.
  cbv zeta.
  destruct (session_error_stops_only_captured_stream sampleDecode
              (after (run sampleDecode connectedRun) initialWorld) 2
              {| resolved := true; queued := []; sentLog := []; errorStream := None |})
    as (Hstatus & _ & _ & _ & _ & _ & _ & Htracks & Hstream).
  - exists connectedRun. reflexivity.
  - vm_compute. reflexivity.
  - split; [exact Hstatus|]. split; [|exact Htracks].
    rewrite Hstream. vm_compute. reflexivity.
Defined.

Lemma dispatch_denied_known decode (k : positive) (captured : Capture)
    (message : string) (w : World) :
  connecting (browser w) !! k = Some captured ->
  after (dispatch decode (UserMediaDenied k message)) w =
    after (connectFailed captured message)
      (withBrowser (fun b => putConnecting (delete k (connecting b)) b) w) /\
  effectsOf (dispatch decode (UserMediaDenied k message)) w =
    effectsOf (connectFailed captured message)
      (withBrowser (fun b => putConnecting (delete k (connecting b)) b) w).
Proof.
  intros Hk. unfold after, effectsOf, dispatch. cbn. rewrite Hk.
  eff_cases; split; reflexivity.
Qed.

(** X16.  A refused microphone is reported and nothing is installed.
    When the [getUserMedia] of a pending connection is rejected, the
    status becomes Error, the error is the rejection's message (or Failed
    to connect when it has none) so the banner is rendered, the message
    is logged, and the attempt leaves no session, no script processor and
    no session reference behind; the frame timer and the active set are
    cleared as by a stop. *)
Theorem denied_microphone_reports_and_installs_nothing
    (decode : string -> option AudioBuffer) (w : World) (k : positive)
    (captured : Capture) (message : string) :
  connecting (browser w) !! k = Some captured ->
  let w' := after (dispatch decode (UserMediaDenied k message)) w in
  status (react w') = ERROR /\
  error (react w') = Some (if decide (message = "") then "Failed to connect" else message) /\
  bannerShown w' = true /\
  ConsoleError message ∈ effectsOf (dispatch decode (UserMediaDenied k message)) w /\
  connecting (browser w') = delete k (connecting (browser w)) /\
  sessions (browser w') = sessions (browser w) /\
  processors (browser w') = processors (browser w) /\
  sessionPromiseRef (refs w') = None /\
  frameIntervalRef (refs w') = None /\
  sourcesRef (refs w') = [].
Proof.
  intros Hk. cbv zeta.
  destruct (dispatch_denied_known decode k captured message w Hk) as [-> ->].
  unfold bannerShown, after, effectsOf.
  destruct message as [|c message]; eff_cases.
  all: try match goal with
       | n : "" <> "" |- _ => contradiction n; reflexivity
       | e : String _ _ = "" |- _ => discriminate e
       end.
  all: repeat split; first [reflexivity|assumption|in_log].
Qed.

Lemma denied_microphone_reports_and_installs_nothing_witness :
  let w := after (dispatch sampleDecode ClickToggle) initialWorld in
  let w' := after (dispatch sampleDecode (UserMediaDenied 1 "")) w in
  connecting (browser w) !! 1%positive =
    Some {| capturedMic := true; capturedStream := None |} /\
  status (react w') = ERROR /\
  error (react w') = Some "Failed to connect" /\
  bannerShown w' = true /\
  sessions (browser w') = sessions (browser w).
Proof.
  cbv zeta.
  assert (Hk : connecting (browser (after (dispatch sampleDecode ClickToggle) initialWorld))
               !! 1%positive = Some {| capturedMic := true; capturedStream := None |})
    by (vm_compute; reflexivity).
  destruct (denied_microphone_reports_and_installs_nothing sampleDecode _ 1 _ "" Hk)
    as (Hstatus & Herror & Hbanner & _ & _ & Hsessions & _).
  split; [exact Hk|]. split; [exact Hstatus|]. split; [exact Herror|].
  split; [exact Hbanner|exact Hsessions].
Defined.

(** X17.  Unmounting does not release the microphone.  The cleanup of the
    mount effect is the [stopEverything] of the first render, whose
    [mediaStream] is [null]: from every world it clears the frame timer,
    stops the playing nodes and drops the session reference, but it stops
    no track and leaves the stream, the status and every installed
    processor as they are. *)
Theorem unmount_leaves_microphone_open
    (decode : string -> option AudioBuffer) (w : World) :
  let w' := after (dispatch decode Unmount) w in
  let effects := effectsOf (dispatch decode Unmount) w in
  (forall stream : positive, TrackStop stream ∉ effects) /\
  mediaStream (react w') = mediaStream (react w) /\
  status (react w') = status (react w) /\
  processors (browser w') = processors (browser w) /\
  frameIntervalRef (refs w') = None /\
  (forall node : positive, node ∈ sourcesRef (refs w) -> NodeStop node ∈ effects) /\
  sourcesRef (refs w') = [] /\
  sessionPromiseRef (refs w') = None.
Proof.
  cbv zeta. unfold after, effectsOf. eff_cases.
  all: split; [no_request|].
  all: repeat split; try first [reflexivity|assumption].
  all: intros node Hnode; in_log.
Qed.

(** ** The playback context *)





(** ** The bars of the visualizer *)

Section VisualizerProofs.

Import Visualizer.








Lemma bars_positions (canvasHeight width : Q) (dataArray : list Byte.byte) :
  forall (x : Q) (r : Rect),
    r ∈ bars canvasHeight width x dataArray ->
    exists (i : nat) (b : Byte.byte),
      dataArray !! i = Some b /\
      (rectX r == x + barLeft width i)%Q /\
      rectHeight r = barHeight canvasHeight b.
Proof.
  induction dataArray as [|b rest IH]; intros x r Hr.
  - apply elem_of_nil in Hr. contradiction.
  - cbn [bars] in Hr. apply elem_of_app in Hr as [Hr|Hr].
    + destruct (Qltb 0 (barHeight canvasHeight b));
        [|apply elem_of_nil in Hr; contradiction].
      apply list_elem_of_singleton in Hr. subst r.
      exists 0%nat, b. split; [reflexivity|]. split; [|reflexivity].
      unfold barLeft. cbn. ring.
    + destruct (IH _ r Hr) as (i & b' & Hi & Hx & Hh).
      exists (S i), b'. split; [exact Hi|]. split; [|exact Hh].
      rewrite Hx. unfold barLeft. rewrite Nat2Z.inj_succ, <- Z.add_1_r, inject_Z_plus.
      ring.
Qed.

Lemma barLeft_beyond (canvasWidth : Q) (bufferLength i : nat) :
  (0 < canvasWidth)%Q -> (0 < bufferLength)%nat -> (2 * bufferLength <= 5 * i)%nat ->
  (canvasWidth < barLeft (barWidth canvasWidth bufferLength) i)%Q.
Proof.
  intros Hwidth Hlength Hbin. unfold barLeft, barWidth.
  set (n := inject_Z (Z.of_nat bufferLength)).
  set (k := inject_Z (Z.of_nat i)).
  assert (Hn : (0 < n)%Q).
  { unfold n. change 0%Q with (inject_Z 0). rewrite <- Zlt_Qlt. lia. }
  assert (Hk : (2 * n <= 5 * k)%Q).
  { unfold n, k. change 2%Q with (inject_Z 2). change 5%Q with (inject_Z 5).
    rewrite <- !inject_Z_mult, <- Zle_Qle. lia. }
  assert (Hkpos : (0 < k)%Q) by lra.
  assert (Hratio : (1 <= k / n * (5 # 2))%Q).
  { apply Qle_shift_div_l in Hk; [|exact Hn].
    assert (Hdiv : (5 * k / n == 5 * (k / n))%Q) by (field; lra).
    rewrite Hdiv in Hk. lra. }
  assert (Hsplit : (k * (canvasWidth / n * (5 # 2) + 1) ==
                    canvasWidth * (k / n * (5 # 2)) + k)%Q) by (field; lra).
  rewrite Hsplit.
  assert (Hscaled : (canvasWidth * 1 <= canvasWidth * (k / n * (5 # 2)))%Q).
  { rewrite !(Qmult_comm canvasWidth). apply Qmult_le_compat_r; lra. }
  lra.
Qed.

(** X20.  Where the bars are: every rectangle [draw] fills is the bar of
    one bin [i], [i] steps of [barWidth + 1] from the left edge and as high
    as that bin's level asks; and a bar of a bin in the upper three fifths
    of the spectrum ([5 i >= 2 bufferLength]) starts to the right of the
    canvas, where it cannot be seen. *)
Theorem bars_of_high_bins_are_off_canvas (canvasWidth canvasHeight : Q)
    (dataArray : list Byte.byte) (r : Rect) :
  r ∈ draw canvasWidth canvasHeight dataArray ->
  exists (i : nat) (b : Byte.byte),
    dataArray !! i = Some b /\
    (rectX r == barLeft (barWidth canvasWidth (length dataArray)) i)%Q /\
    rectHeight r = barHeight canvasHeight b /\
    ((0 < canvasWidth)%Q -> (2 * length dataArray <= 5 * i)%nat ->
     (canvasWidth < rectX r)%Q).
Proof.
  intros Hr. unfold draw in Hr.
  destruct (bars_positions _ _ _ _ _ Hr) as (i & b & Hi & Hx & Hh).
  exists i, b. split; [exact Hi|]. split; [rewrite Hx; ring|]. split; [exact Hh|].
  intros Hwidth Hbin. rewrite Hx.
  assert (Hlength : (0 < length dataArray)%nat).
  { apply lookup_lt_Some in Hi. lia. }
  pose proof (barLeft_beyond canvasWidth (length dataArray) i Hwidth Hlength Hbin). lra.
Qed.

(** Three bins on the canvas of the component: the bar of the third
    starts at 102, beyond the 60 pixels of the canvas. *)
Lemma bars_of_high_bins_are_off_canvas_witness :
  let dataArray := [Byte.xff; Byte.x00; Byte.x80] in
  let width := barWidth CANVAS_WIDTH 3 in
  let r := {| rectX := (0 + (width + 1) + (width + 1))%Q;
              rectY := (CANVAS_HEIGHT - barHeight CANVAS_HEIGHT Byte.x80)%Q;
              rectWidth := width;
              rectHeight := barHeight CANVAS_HEIGHT Byte.x80 |} in
  r ∈ draw CANVAS_WIDTH CANVAS_HEIGHT dataArray /\
  exists (i : nat) (b : Byte.byte),
    dataArray !! i = Some b /\
    (rectX r == barLeft (barWidth CANVAS_WIDTH (length dataArray)) i)%Q /\
    rectHeight r = barHeight CANVAS_HEIGHT b /\
    ((0 < CANVAS_WIDTH)%Q -> (2 * length dataArray <= 5 * i)%nat ->
     (CANVAS_WIDTH < rectX r)%Q).
Proof.
  cbv zeta.
  assert (Hr : {| rectX := (0 + (barWidth CANVAS_WIDTH 3 + 1) +
                            (barWidth CANVAS_WIDTH 3 + 1))%Q;
                  rectY := (CANVAS_HEIGHT - barHeight CANVAS_HEIGHT Byte.x80)%Q;
                  rectWidth := barWidth CANVAS_WIDTH 3;
                  rectHeight := barHeight CANVAS_HEIGHT Byte.x80 |}
               ∈ draw CANVAS_WIDTH CANVAS_HEIGHT [Byte.xff; Byte.x00; Byte.x80]).
  { apply list_elem_of_further, list_elem_of_here. }
  split; [exact Hr|].
  exact (bars_of_high_bins_are_off_canvas CANVAS_WIDTH CANVAS_HEIGHT
           [Byte.xff; Byte.x00; Byte.x80] _ Hr).
Defined.

End VisualizerProofs.

(** ** The camera preview *)

Section PreviewProofs.

Import Preview.

(** X21.  Deactivating the preview releases the camera it holds: when
    [isActive] turns false, the tracks of the attached stream, and of no
    other, are stopped, the video element is detached from it, and no
    camera request is made; without an attached stream nothing happens. *)
Theorem preview_deactivation_releases_camera (s : State) :
  isActive s = true ->
  let s' := fst (setActive false s) in
  let effects := snd (setActive false s) in
  isActive s' = false /\ srcObject s' = None /\ requests s' = requests s /\
  (forall k : positive, GetUserMedia k ∉ effects) /\
  (forall stream : positive, TrackStop stream ∈ effects <-> srcObject s = Some stream).
Proof.
  intros Hactive. cbv zeta. unfold setActive, cleanup, startVideo.
  rewrite Hactive. cbn.
  destruct (srcObject s) as [attached|] eqn:Hsrc; cbn; rewrite ?Hsrc; cbn.
  all: repeat split; try no_request.
  all: try discriminate.
  - intros Hk. apply elem_of_cons in Hk as [Hk|Hk]; [congruence|].
    apply list_elem_of_singleton in Hk. congruence.
  - intros [= ->]. apply list_elem_of_here.
  - intros Hk. apply elem_of_nil in Hk. contradiction.
Qed.

(** The camera was granted while the preview was active. *)
Lemma preview_deactivation_releases_camera_witness :
  let s := fst (steps [Render true; Granted 1 9 true] initial) in
  isActive s = true /\
  srcObject s = Some 9%positive /\
  srcObject (fst (setActive false s)) = None /\
  (forall stream : positive,
      TrackStop stream ∈ snd (setActive false s) <-> srcObject s = Some stream).
Proof.
  cbv zeta.
  assert (Hactive : isActive (fst (steps [Render true; Granted 1 9 true] initial)) = true)
    by (vm_compute; reflexivity).
  destruct (preview_deactivation_releases_camera _ Hactive)
    as (_ & Hsrc & _ & _ & Htracks).
  split; [exact Hactive|]. split; [vm_compute; reflexivity|].
  split; [exact Hsrc|exact Htracks].
Defined.

Lemma steps_idle (n : nat) (s : State) :
  steps (replicate n (Render (isActive s))) s = (s, []).
Proof.
  induction n as [|n IH]; [reflexivity|].
  cbn [replicate steps step]. unfold setActive.
  rewrite bool_decide_eq_true_2 by reflexivity. rewrite IH. reflexivity.
Qed.

(** X22.  A camera granted too late stays on.  When the request of
    [startVideo] is fulfilled after the preview was deactivated, the
    stream is attached to the video element all the same, none of its
    tracks is stopped, and no later render with [isActive] still false
    stops or detaches it. *)
Theorem late_grant_keeps_camera_on (s : State) (k stream : positive)
    (played : bool) (n : nat) :
  isActive s = false ->
  k ∈ requests s ->
  let s1 := fst (granted k stream played s) in
  isActive s1 = false /\
  srcObject s1 = Some stream /\
  (forall other : positive, TrackStop other ∉ snd (granted k stream played s)) /\
  steps (replicate n (Render false)) s1 = (s1, []).
Proof.
  intros Hinactive Hk. cbv zeta. unfold granted.
  destruct (decide (k ∈ requests s)) as [_|Hno]; [|contradiction]. cbn.
  split; [exact Hinactive|]. split; [reflexivity|]. split.
  - destruct played; no_request.
  - match goal with
    | |- steps _ ?s1 = _ => replace false with (isActive s1) by exact Hinactive
    end.
    apply steps_idle.
Qed.

(** The preview is activated and deactivated before the browser answers
    the request. *)
Lemma late_grant_keeps_camera_on_witness :
  let s := fst (steps [Render true; Render false] initial) in
  let s1 := fst (granted 1 9 true s) in
  isActive s = false /\
  1%positive ∈ requests s /\
  isActive s1 = false /\
  srcObject s1 = Some 9%positive /\
  (forall other : positive, TrackStop other ∉ snd (granted 1 9 true s)) /\
  steps (replicate 3 (Render false)) s1 = (s1, []).
Proof.
  cbv zeta.
  assert (Hinactive : isActive (fst (steps [Render true; Render false] initial)) = false)
    by (vm_compute; reflexivity).
  assert (Hk : 1%positive ∈ requests (fst (steps [Render true; Render false] initial))).
  { apply list_elem_of_here. }
  split; [exact Hinactive|]. split; [exact Hk|].
  exact (late_grant_keeps_camera_on _ 1 9 true 3 Hinactive Hk).
Defined.

End PreviewProofs.
